(** * StellarCade frontend: query cache and invalidation rule engine

    A shallow embedding of
    [frontend/src/services/query-cache-invalidation.ts]
    (classes [QueryCache] and [QueryCacheInvalidator], the helpers
    [keyToString] and [hasPrefix], the tables [QueryKeys] and
    [QueryPolicies]) together with the properties the design document
    states about it.

    Conventions of the embedding.
    - A JavaScript string is the list of its UTF-16 code units.
    - A number in a key is a safe integer (one of magnitude at most
      [2^53 - 1], which a double holds exactly and [Number::toString]
      prints as its decimal numeral) or one of the three non-finite
      values; [-0] is identified with [0] (they are [===] and print
      alike).  Clock values and stale times are integer-valued doubles,
      and their sum is rounded as a double is.  Fractions are not
      modelled.
    - [Date.now()] is an explicit argument of every operation that reads
      the clock; one synchronous call reads one clock value.
    - The [Map] of entries is an association list in insertion order.
    - A fetcher is an asynchronous function: the promise it returns
      settles later, so a [refetch] is split at its [await] into the call
      and the continuation. *)

From Stdlib Require Import List ZArith NArith Lia Bool String Ascii.
From Stdlib Require Import DecimalString DecimalZ.
From Stdlib Require Import Sorted Permutation Eqdep_dec.
Import ListNotations.

Local Open Scope Z_scope.

(* ================================================================== *)
(** ** JavaScript strings and [JSON.stringify] on scalar arrays *)
(* ================================================================== *)

Module Js.

(** A string value: its UTF-16 code units. *)
Definition JsString := list N.

(** A string literal of the source text (all of them are ASCII). *)
Definition lit (s : string) : JsString :=
  List.map N_of_ascii (list_ascii_of_string s).

Fixpoint str_eqb (a b : JsString) : bool :=
  match a, b with
  | [], [] => true
  | x :: a', y :: b' => N.eqb x y && str_eqb a' b'
  | _, _ => false
  end.

(** [Number.MAX_SAFE_INTEGER], [2^53 - 1]. *)
Definition MAX_SAFE_INTEGER : Z := 9007199254740991.

(** [Number.isSafeInteger] *)
Definition is_safe_integer (z : Z) : bool :=
  (- MAX_SAFE_INTEGER <=? z) && (z <=? MAX_SAFE_INTEGER).

(** The numbers of a key: the safe integers, which [Number::toString]
    prints as their decimal numeral, and the non-finite values. *)
Inductive JsNumber :=
| Int (z : Z) (safe : is_safe_integer z = true)
| NaN
| PosInfinity
| NegInfinity.

(** The scalar segments a [QueryKey] is made of. *)
Inductive Scalar :=
| SString (s : JsString)
| SNumber (n : JsNumber)
| SBool (b : bool)
| SNull.

(** [a === b] on numbers: [NaN] is not equal to itself. *)
Definition num_strict_eq (a b : JsNumber) : bool :=
  match a, b with
  | Int x _, Int y _ => Z.eqb x y
  | PosInfinity, PosInfinity => true
  | NegInfinity, NegInfinity => true
  | _, _ => false
  end.

(** [a === b] on scalars: same type and same value. *)
Definition strict_eq (a b : Scalar) : bool :=
  match a, b with
  | SString x, SString y => str_eqb x y
  | SNumber x, SNumber y => num_strict_eq x y
  | SBool x, SBool y => Bool.eqb x y
  | SNull, SNull => true
  | _, _ => false
  end.

(** [Number::toString] in radix 10: a safe integer has at most 16
    digits, all of them significant, and is printed without exponent. *)
Definition number_to_string (n : JsNumber) : JsString :=
  match n with
  | Int z _ => lit (NilEmpty.string_of_int (Z.to_int z))
  | NaN => lit "NaN"
  | PosInfinity => lit "Infinity"
  | NegInfinity => lit "-Infinity"
  end.

(** [String(v)] for a scalar [v]. *)
Definition String_of (v : Scalar) : JsString :=
  match v with
  | SString s => s
  | SNumber n => number_to_string n
  | SBool true => lit "true"
  | SBool false => lit "false"
  | SNull => lit "null"
  end.

(** *** QuoteJSONString *)

Definition is_leading_surrogate (c : N) : bool :=
  (N.leb 55296 c && N.leb c 56319)%N.      (* 0xD800 .. 0xDBFF *)

Definition is_trailing_surrogate (c : N) : bool :=
  (N.leb 56320 c && N.leb c 57343)%N.      (* 0xDC00 .. 0xDFFF *)

(** One lower-case hexadecimal digit, as a code unit. *)
Definition hex_digit (d : N) : N :=
  (if d <? 10 then 48 + d else 87 + d)%N.

(** UnicodeEscape: [\uXXXX] with four lower-case hexadecimal digits. *)
Definition unicode_escape (c : N) : JsString :=
  [92; 117;
   hex_digit ((c / 4096) mod 16); hex_digit ((c / 256) mod 16);
   hex_digit ((c / 16) mod 16); hex_digit (c mod 16)]%N.

(** The escape of one code point that is not a surrogate pair. *)
Definition escape_unit (c : N) : JsString :=
  (if c =? 8 then [92; 98]              (* backspace: \b *)
   else if c =? 9 then [92; 116]        (* tab: \t *)
   else if c =? 10 then [92; 110]       (* line feed: \n *)
   else if c =? 12 then [92; 102]       (* form feed: \f *)
   else if c =? 13 then [92; 114]       (* carriage return: \r *)
   else if c =? 34 then [92; 34]        (* quotation mark *)
   else if c =? 92 then [92; 92]        (* reverse solidus *)
   else if (c <? 32) || is_leading_surrogate c || is_trailing_surrogate c
        then unicode_escape c
   else [c])%N.

(** The body of QuoteJSONString: the code points of the string are read
    left to right, a leading surrogate followed by a trailing one is one
    code point and is copied, every other code unit is one code point. *)
Fixpoint quote_body (s : JsString) : JsString :=
  match s with
  | [] => []
  | c :: rest =>
      if is_leading_surrogate c then
        match rest with
        | d :: rest' =>
            if is_trailing_surrogate d
            then c :: d :: quote_body rest'
            else escape_unit c ++ quote_body rest
        | [] => escape_unit c
        end
      else escape_unit c ++ quote_body rest
  end.

Definition QuoteJSONString (s : JsString) : JsString :=
  (34 :: quote_body s ++ [34])%N.

(** SerializeJSONProperty on a scalar: a non-finite number is [null]. *)
Definition serialize_scalar (v : Scalar) : JsString :=
  match v with
  | SString s => QuoteJSONString s
  | SNumber (Int z safe) => number_to_string (Int z safe)
  | SNumber _ => lit "null"
  | SBool true => lit "true"
  | SBool false => lit "false"
  | SNull => lit "null"
  end.

(** The elements of SerializeJSONArray, separated by commas (no gap). *)
Fixpoint serialize_elements (l : list Scalar) : JsString :=
  match l with
  | [] => []
  | [v] => serialize_scalar v
  | v :: rest => serialize_scalar v ++ 44%N :: serialize_elements rest
  end.

(** [JSON.stringify(a)] for an array [a] of scalars. *)
Definition JSON_stringify (a : list Scalar) : JsString :=
  (91 :: serialize_elements a ++ [93])%N.

(** *** Arithmetic on clock values *)

(** The value of a numeric expression of the cache: a double whose
    value is the integer [z], or a non-finite value. *)
Inductive Double :=
| Finite (z : Z)
| NotANumber
| PlusInfinity
| MinusInfinity.

(** Rounding of a non-negative integer to 53 significant bits, to the
    nearest, ties to the even significand. *)
Definition round_significand (a : Z) : Z :=
  if a <? 2 ^ 53 then a
  else
    let e := Z.log2 a - 52 in
    let q := a / 2 ^ e in
    let r := a mod 2 ^ e in
    let half := 2 ^ (e - 1) in
    let q' := if (half <? r) || ((r =? half) && Z.odd q) then q + 1 else q in
    q' * 2 ^ e.

(** The double nearest to the integer [z]; from [2^1024 - 2^970] on it
    is an infinity. *)
Definition round_to_double (z : Z) : Double :=
  let m := round_significand (Z.abs z) in
  if 2 ^ 1024 <=? m then (if z <? 0 then MinusInfinity else PlusInfinity)
  else Finite (Z.sgn z * m).

(** [x + y] (Number::add). *)
Definition Number_add (x y : Double) : Double :=
  match x, y with
  | NotANumber, _ | _, NotANumber => NotANumber
  | PlusInfinity, MinusInfinity | MinusInfinity, PlusInfinity => NotANumber
  | PlusInfinity, _ | _, PlusInfinity => PlusInfinity
  | MinusInfinity, _ | _, MinusInfinity => MinusInfinity
  | Finite a, Finite b => round_to_double (a + b)
  end.

(** [x >= y]: false as soon as an operand is [NaN]. *)
Definition Number_ge (x y : Double) : bool :=
  match x, y with
  | NotANumber, _ | _, NotANumber => false
  | PlusInfinity, _ => true
  | _, MinusInfinity => true
  | MinusInfinity, _ => false
  | _, PlusInfinity => false
  | Finite a, Finite b => a >=? b
  end.

End Js.
Import Js.


(* ================================================================== *)
(** ** Key and policy model *)
(* ================================================================== *)

(** The types of [../types/query-cache] are declared in
    [services/global-state-store.README.md] (lines 32 to 91).  There a
    [QueryKey] is [readonly [QueryNamespace, string, ...Array<string |
    number | boolean | null>]].  The service runs on any array of
    scalars: the tuple type is erased, the design document invalidates
    with the one-segment prefix [["games"]] and speaks of unknown
    namespaces.  So a key is a list of scalars here, and [declared_key]
    below tells the keys of the declared type. *)
Definition QueryKey := list Scalar.

(** [QueryNamespace = "balances" | "games" | "rewards" | "profile"] *)
Definition QueryNamespace : list JsString :=
  [lit "balances"; lit "games"; lit "rewards"; lit "profile"].

(** The keys of the declared tuple type: a namespace, a string, then
    any scalars. *)
Definition declared_key (key : QueryKey) : bool :=
  match key with
  | SString namespace :: SString _ :: _ =>
      existsb (str_eqb namespace) QueryNamespace
  | _ => false
  end.

(** [interface QueryPolicy { staleTimeMs: number; refetchOnInvalidate:
    boolean }], with an integer stale time. *)
Record QueryPolicy := {
  staleTimeMs : Z;
  refetchOnInvalidate : bool
}.

(** What a [policy] field holds when the cache runs.  [QueryPolicies] is
    an object literal, so a name it does not define is looked up in
    [Object.prototype]: the entry written for a key whose namespace is
    such a name carries that member (a function, or [Object.prototype]
    itself for [__proto__]) in place of a policy. *)
Inductive PolicyObject :=
| Declared (p : QueryPolicy)
| PrototypeMember (name : JsString).

(** The property names of [Object.prototype]. *)
Definition Object_prototype : list JsString :=
  [lit "constructor"; lit "__defineGetter__"; lit "__defineSetter__";
   lit "hasOwnProperty"; lit "__lookupGetter__"; lit "__lookupSetter__";
   lit "isPrototypeOf"; lit "propertyIsEnumerable"; lit "toString";
   lit "valueOf"; lit "__proto__"; lit "toLocaleString"].

(** [policy.staleTimeMs] as an operand of [+]: a member of
    [Object.prototype] has no such property, and [undefined] converts
    to [NaN]. *)
Definition staleTime (o : PolicyObject) : Double :=
  match o with
  | Declared p => Finite (staleTimeMs p)
  | PrototypeMember _ => NotANumber
  end.

(** [policy.refetchOnInvalidate] as a condition: [undefined] is falsy. *)
Definition refetches (o : PolicyObject) : bool :=
  match o with
  | Declared p => refetchOnInvalidate p
  | PrototypeMember _ => false
  end.

Module QueryKeys.
Module balances.
Definition root : QueryKey := [SString (lit "balances"); SString (lit "root")].
Definition account (address : JsString) : QueryKey :=
  [SString (lit "balances"); SString (lit "account"); SString address].
End balances.
Module games.
Definition root : QueryKey := [SString (lit "games"); SString (lit "root")].
Definition byId (gameId : Scalar) : QueryKey :=
  [SString (lit "games"); SString (lit "byId"); SString (String_of gameId)].
Definition recentByAddress (address : JsString) : QueryKey :=
  [SString (lit "games"); SString (lit "recentByAddress"); SString address].
End games.
Module rewards.
Definition root : QueryKey := [SString (lit "rewards"); SString (lit "root")].
Definition byAddress (address : JsString) : QueryKey :=
  [SString (lit "rewards"); SString (lit "byAddress"); SString address].
End rewards.
Module profile.
Definition root : QueryKey := [SString (lit "profile"); SString (lit "root")].
Definition byAddress (address : JsString) : QueryKey :=
  [SString (lit "profile"); SString (lit "byAddress"); SString address].
End profile.
End QueryKeys.

(** [QueryPolicies[namespace]]: one of the four policies of the table,
    else the member of [Object.prototype] of that name, else
    [undefined]. *)
Definition QueryPolicies (namespace : JsString) : option PolicyObject :=
  if str_eqb namespace (lit "balances")
  then Some (Declared {| staleTimeMs := 3000; refetchOnInvalidate := true |})
  else if str_eqb namespace (lit "games")
  then Some (Declared {| staleTimeMs := 10000; refetchOnInvalidate := true |})
  else if str_eqb namespace (lit "rewards")
  then Some (Declared {| staleTimeMs := 5000; refetchOnInvalidate := true |})
  else if str_eqb namespace (lit "profile")
  then Some (Declared {| staleTimeMs := 60000; refetchOnInvalidate := true |})
  else if existsb (str_eqb namespace) Object_prototype
  then Some (PrototypeMember namespace)
  else None.

(** [String(key[0])]; reading past the end of an array gives [undefined]. *)
Definition namespace_of (key : QueryKey) : JsString :=
  match key with
  | [] => lit "undefined"
  | v :: _ => String_of v
  end.

Definition keyToString (key : QueryKey) : JsString := JSON_stringify key.

(** The loop of [hasPrefix] compares [key[i]] and [prefix[i]] for
    [i = 0 .. prefix.length - 1] and returns at the first difference. *)
Fixpoint segments_match (key prefix : QueryKey) {struct prefix} : bool :=
  match prefix, key with
  | [], _ => true
  | p :: prefix', k :: key' =>
      if negb (strict_eq k p) then false else segments_match key' prefix'
  | _ :: _, [] => false
  end.

Definition hasPrefix (key prefix : QueryKey) : bool :=
  if (List.length key <? List.length prefix)%nat then false
  else segments_match key prefix.

(** The spec's words for the same relation: the prefix is no longer than
    the key and the leading segments are equal element-wise. *)
Definition leading_segments_equal (key prefix : QueryKey) : Prop :=
  (List.length prefix <= List.length key)%nat /\
  forall i p, nth_error prefix i = Some p ->
              exists k, nth_error key i = Some k /\ strict_eq k p = true.

(* ================================================================== *)
(** ** Reading the key encoding back *)
(* ================================================================== *)

Module Unquote.

(** A reader for the text [QuoteJSONString] writes: it is not part of the
    program, it is how the encoding is shown to lose nothing. *)
Definition hex_value (c : N) : option N :=
  (if (48 <=? c) && (c <=? 57) then Some (c - 48)
   else if (97 <=? c) && (c <=? 102) then Some (c - 87)
   else None)%N.

Definition unescape (x : N) : option N :=
  (if x =? 98 then Some 8
   else if x =? 116 then Some 9
   else if x =? 110 then Some 10
   else if x =? 102 then Some 12
   else if x =? 114 then Some 13
   else if x =? 34 then Some 34
   else if x =? 92 then Some 92
   else None)%N.

Definition cons_fst (c : N) (r : option (JsString * JsString))
  : option (JsString * JsString) :=
  match r with
  | Some (s, rest) => Some (c :: s, rest)
  | None => None
  end.

(** Reads up to the closing quotation mark; returns the string read and
    what follows the mark. *)
Fixpoint unquote_body (l : JsString) : option (JsString * JsString) :=
  match l with
  | [] => None
  | c :: t =>
      if (c =? 34)%N then Some ([], t)
      else if (c =? 92)%N then
        match t with
        | [] => None
        | x :: t' =>
            if (x =? 117)%N then
              match t' with
              | h1 :: h2 :: h3 :: h4 :: t'' =>
                  match hex_value h1, hex_value h2, hex_value h3, hex_value h4 with
                  | Some a, Some b, Some c', Some d =>
                      cons_fst (a * 4096 + b * 256 + c' * 16 + d)%N
                               (unquote_body t'')
                  | _, _, _, _ => None
                  end
              | _ => None
              end
            else
              match unescape x with
              | Some u => cons_fst u (unquote_body t')
              | None => None
              end
        end
      else cons_fst c (unquote_body t)
  end.

End Unquote.
Import Unquote.

(** The characters of a decimal numeral. *)
Definition numeric (c : N) : bool :=
  ((c =? 45) || ((48 <=? c) && (c <=? 57)))%N.

(** What may follow an element: nothing, or a character that is not
    part of a numeral (a comma or the closing bracket). *)
Definition delimited (x : JsString) : Prop :=
  match x with
  | [] => True
  | c :: _ => numeric c = false
  end.

(** A segment that [JSON.stringify] does not turn into [null]. *)
Definition finite_scalar (v : Scalar) : bool :=
  match v with
  | SNumber (Int _ _) => true
  | SNumber _ => false
  | _ => true
  end.

Definition finite_key (k : QueryKey) : bool := forallb finite_scalar k.

(** Element-wise [===] of two keys. *)
Fixpoint key_eqb (k1 k2 : QueryKey) : bool :=
  match k1, k2 with
  | [], [] => true
  | v :: k1', w :: k2' => strict_eq v w && key_eqb k1' k2'
  | _, _ => false
  end.

(* ================================================================== *)
(** ** Cache entries, events and outcomes *)
(* ================================================================== *)

(** [CacheEntryMeta], [CacheInvalidationReason], [ContractTxContext]
    and [CacheInvalidationEvent] as declared with [QueryKey], see above.
    An optional field is an [option]; the three fields that [set] and
    [invalidate] fill with [Date.now()] are integers, [staleAt] is the
    value of a sum. *)
Record EntryMeta := {
  createdAt : Z;
  updatedAt : Z;
  staleAt : Double;
  invalidatedAt : option Z
}.

Inductive InvalidationReason :=
| manual
| tx_success
| tx_failed_retryable
| tx_failed_terminal
| mutation_success
| mutation_failed_retryable
| mutation_failed_terminal
| consistency_check.

Record ContractTx := {
  contract : JsString;
  method : JsString;
  txHash : option JsString;
  addresses : option (list JsString);
  gameId : option Scalar
}.

Record Mutation := {
  name : JsString;
  mutation_addresses : option (list JsString)
}.

Record CacheInvalidationEvent := {
  at_ms : Z;
  reason : InvalidationReason;
  contractTx : option ContractTx;
  mutation : option Mutation
}.

(** Insertion-ordered [Map<string, V>]. *)
Section JsMap.
Context {V : Type}.

Fixpoint map_get (k : JsString) (m : list (JsString * V)) : option V :=
  match m with
  | [] => None
  | (k', v) :: m' => if str_eqb k k' then Some v else map_get k m'
  end.

(** [Map.prototype.set]: a present key keeps its position, a new key is
    appended. *)
Fixpoint map_set (k : JsString) (v : V) (m : list (JsString * V))
  : list (JsString * V) :=
  match m with
  | [] => [(k, v)]
  | (k', v') :: m' =>
      if str_eqb k k' then (k', v) :: m' else (k', v') :: map_set k v m'
  end.

Fixpoint map_delete (k : JsString) (m : list (JsString * V))
  : list (JsString * V) :=
  match m with
  | [] => []
  | (k', v') :: m' =>
      if str_eqb k k' then map_delete k m' else (k', v') :: map_delete k m'
  end.

Definition map_values (m : list (JsString * V)) : list V := List.map snd m.
Definition map_keys (m : list (JsString * V)) : list JsString := List.map fst m.
End JsMap.

(* ================================================================== *)
(** ** The cache store *)
(* ================================================================== *)

Section Cache.

(** [Data] is the cached payload ([unknown] in the source), [RawError]
    whatever a fetcher rejects with and [newError] the constructor
    [new Error(message)].  [AppError] and [toAppError(raw, kind?,
    context?)] belong to the module [./error-mapping], which is not
    among the sources: they are parameters. *)
Variables Data RawError AppError : Type.
Variable newError : JsString -> RawError.
Variable toAppError :
  RawError -> option JsString -> list (JsString * QueryKey) -> AppError.

Record CacheEntry := {
  key : QueryKey;
  data : Data;
  policy : PolicyObject;
  meta : EntryMeta
}.

(** How the promise returned by a fetcher settles. *)
Inductive Settled :=
| Fulfilled (d : Data)
| Rejected (e : RawError).

(** A fetcher: called at some clock value, its promise settles later. *)
Definition Fetcher := Z -> Settled.

(** A [refetch] suspended at [await fetcher()]. *)
Record Suspended := {
  suspended_key : QueryKey;
  suspended_promise : Settled
}.

Inductive FetchResult :=
| DataResult (d : Data)
| ErrorResult (e : AppError).

(** The state of a [QueryCache] object.  [notified] records the calls of
    [notify] (what every subscriber is handed, oldest first);
    [suspended] holds the background refetches started with
    [void this.refetch(key)] that wait for their promise. *)
Record QueryCache := {
  entries : list (JsString * CacheEntry);
  fetchers : list (JsString * Fetcher);
  maxEntries : option Z;
  notified : list (QueryKey * option CacheEntry);
  suspended : list Suspended
}.

(** [new QueryCache(opts)] *)
Definition new_QueryCache (opts_maxEntries : option Z) : QueryCache :=
  {| entries := []; fetchers := []; maxEntries := opts_maxEntries;
     notified := []; suspended := [] |}.

Definition with_entries (c : QueryCache) (es : list (JsString * CacheEntry))
  : QueryCache :=
  {| entries := es; fetchers := fetchers c; maxEntries := maxEntries c;
     notified := notified c; suspended := suspended c |}.

Definition notify (c : QueryCache) (k : QueryKey) (e : option CacheEntry)
  : QueryCache :=
  {| entries := entries c; fetchers := fetchers c;
     maxEntries := maxEntries c;
     notified := notified c ++ [(k, e)]; suspended := suspended c |}.

Definition suspend (c : QueryCache) (s : Suspended) : QueryCache :=
  {| entries := entries c; fetchers := fetchers c;
     maxEntries := maxEntries c;
     notified := notified c; suspended := suspended c ++ [s] |}.

Definition registerFetcher (c : QueryCache) (k : QueryKey) (f : Fetcher)
  : QueryCache :=
  {| entries := entries c;
     fetchers := map_set (keyToString k) f (fetchers c);
     maxEntries := maxEntries c;
     notified := notified c; suspended := suspended c |}.

Definition unregisterFetcher (c : QueryCache) (k : QueryKey) : QueryCache :=
  {| entries := entries c;
     fetchers := map_delete (keyToString k) (fetchers c);
     maxEntries := maxEntries c;
     notified := notified c; suspended := suspended c |}.

Definition get (c : QueryCache) (k : QueryKey) : option CacheEntry :=
  map_get (keyToString k) (entries c).

(** [all.sort((a, b) => a.meta.updatedAt - b.meta.updatedAt)]:
    [Array.prototype.sort] is stable, so the result is the one a stable
    insertion sort gives. *)
Fixpoint insert_by_updatedAt (e : CacheEntry) (l : list CacheEntry)
  : list CacheEntry :=
  match l with
  | [] => [e]
  | h :: t =>
      if updatedAt (meta e) <=? updatedAt (meta h)
      then e :: h :: t
      else h :: insert_by_updatedAt e t
  end.

Definition sort_by_updatedAt (l : list CacheEntry) : list CacheEntry :=
  fold_right insert_by_updatedAt [] l.

(** [!this.maxEntries] holds when the option is absent and when it is
    [0].  The victims are [all[0] .. all[toRemove - 1]]; an index past
    the end of [all] is skipped. *)
Definition enforceMaxEntries (c : QueryCache) : QueryCache :=
  match maxEntries c with
  | None => c
  | Some m =>
      if m =? 0 then c
      else if Z.of_nat (List.length (entries c)) <=? m then c
      else
        let all := sort_by_updatedAt (map_values (entries c)) in
        let toRemove := Z.of_nat (List.length (entries c)) - m in
        with_entries c
          (fold_left
             (fun es i =>
                match nth_error all i with
                | None => es
                | Some victim => map_delete (keyToString (key victim)) es
                end)
             (seq 0 (Z.to_nat toRemove))
             (entries c))
  end.

Definition fallback_policy : QueryPolicy :=
  {| staleTimeMs := 30000; refetchOnInvalidate := true |}.

(** [policy ?? QueryPolicies[String(key[0])] ?? fallback] *)
Definition effectivePolicy (k : QueryKey) (p : option QueryPolicy)
  : PolicyObject :=
  match p with
  | Some p' => Declared p'
  | None =>
      match QueryPolicies (namespace_of k) with
      | Some o => o
      | None => Declared fallback_policy
      end
  end.

Definition set (c : QueryCache) (k : QueryKey) (d : Data)
           (p : option QueryPolicy) (ts : Z) : CacheEntry * QueryCache :=
  let existing := get c k in
  let effectivePolicy := effectivePolicy k p in
  let entry :=
    {| key := k;
       data := d;
       policy := effectivePolicy;
       meta :=
         {| createdAt :=
              match existing with
              | Some e => createdAt (meta e)
              | None => ts
              end;
            updatedAt := ts;
            staleAt := Number_add (Finite ts) (staleTime effectivePolicy);
            invalidatedAt :=
              match existing with
              | Some e => invalidatedAt (meta e)
              | None => None
              end |} |} in
  let c1 := with_entries c (map_set (keyToString k) entry (entries c)) in
  let c2 := enforceMaxEntries c1 in
  (entry, notify c2 k (Some entry)).

Definition isStale (c : QueryCache) (k : QueryKey) (ts : Z) : bool :=
  match get c k with
  | None => true
  | Some entry =>
      match invalidatedAt (meta entry) with
      | Some _ => true
      | None => Number_ge (Finite ts) (staleAt (meta entry))
      end
  end.

Definition missing_fetcher (k : QueryKey) : AppError :=
  toAppError (newError (lit "Missing fetcher")) None [(lit "key", k)].

(** [void this.refetch(key)]: the part of [refetch] that runs before
    its [await].  Without a fetcher the call returns an error that
    nobody reads; with one, the fetcher is called and the rest of
    [refetch] waits for its promise. *)
Definition start_refetch (c : QueryCache) (k : QueryKey) (ts : Z)
  : QueryCache :=
  match map_get (keyToString k) (fetchers c) with
  | None => c
  | Some fetcher =>
      suspend c {| suspended_key := k; suspended_promise := fetcher ts |}
  end.

Definition mark_invalidated (e : CacheEntry) (ts : Z) : CacheEntry :=
  {| key := key e; data := data e; policy := policy e;
     meta := {| createdAt := createdAt (meta e);
                updatedAt := updatedAt (meta e);
                staleAt := staleAt (meta e);
                invalidatedAt := Some ts |} |}.

Definition invalidate (c : QueryCache) (k : QueryKey)
           (_evt : option CacheInvalidationEvent) (ts : Z) : QueryCache :=
  match map_get (keyToString k) (entries c) with
  | None => c
  | Some e =>
      let updated := mark_invalidated e ts in
      let c1 := with_entries c (map_set (keyToString k) updated (entries c)) in
      let c2 := notify c1 k (Some updated) in
      if refetches (policy updated)
      then start_refetch c2 k ts
      else c2
  end.

(** The loop visits the entries in insertion order.  [invalidate] only
    overwrites the slot of a key that is present, so the [Map] has the
    same keys in the same order throughout and the values visited are
    those present when the loop starts. *)
Definition invalidatePrefix (c : QueryCache) (prefix : QueryKey)
           (evt : option CacheInvalidationEvent) (ts : Z) : QueryCache :=
  fold_left
    (fun c' entry =>
       if hasPrefix (key entry) prefix
       then invalidate c' (key entry) evt ts
       else c')
    (map_values (entries c)) c.

Definition remove (c : QueryCache) (k : QueryKey) : QueryCache :=
  notify (with_entries c (map_delete (keyToString k) (entries c))) k None.

Definition clear (c : QueryCache) : QueryCache :=
  with_entries
    (fold_left (fun c' entry => notify c' (key entry) None)
               (map_values (entries c)) c)
    [].

(** The continuation of [refetch] after [await fetcher()], run at clock
    [ts] on the cache as it is then. *)
Definition resume_refetch (c : QueryCache) (s : Suspended) (ts : Z)
  : FetchResult * QueryCache :=
  let k := suspended_key s in
  match suspended_promise s with
  | Fulfilled d => (DataResult d, snd (set c k d None ts))
  | Rejected e =>
      (ErrorResult (toAppError e None [(lit "key", k)]),
       invalidate c k
         (Some {| at_ms := ts; reason := consistency_check;
                  contractTx := None; mutation := None |})
         ts)
  end.

(** [await cache.refetch(key)]: called at clock [ts], resumed at [ts']
    with nothing else running in between. *)
Definition refetch (c : QueryCache) (k : QueryKey) (ts ts' : Z)
  : FetchResult * QueryCache :=
  match map_get (keyToString k) (fetchers c) with
  | None => (ErrorResult (missing_fetcher k), c)
  | Some fetcher =>
      resume_refetch c
        {| suspended_key := k; suspended_promise := fetcher ts |} ts'
  end.

(** [await cache.getOrFetch(key)], with the same two clock values. *)
Definition getOrFetch (c : QueryCache) (k : QueryKey) (ts ts' : Z)
  : FetchResult * QueryCache :=
  let fetch_path :=
    match map_get (keyToString k) (fetchers c) with
    | None => (ErrorResult (missing_fetcher k), c)
    | Some fetcher =>
        match fetcher ts with
        | Fulfilled d => (DataResult d, snd (set c k d None ts'))
        | Rejected e => (ErrorResult (toAppError e None [(lit "key", k)]), c)
        end
    end in
  match get c k with
  | Some existing =>
      if negb (isStale c k ts) then (DataResult (data existing), c)
      else fetch_path
  | None => fetch_path
  end.

(** One turn of the job queue: the oldest suspended refetch resumes;
    its result is discarded, as [void] does.  [None] when nothing is
    suspended. *)
Definition run_job (c : QueryCache) (ts : Z) : option QueryCache :=
  match suspended c with
  | [] => None
  | s :: rest =>
      let c' := {| entries := entries c; fetchers := fetchers c;
                   maxEntries := maxEntries c;
                   notified := notified c; suspended := rest |} in
      Some (snd (resume_refetch c' s ts))
  end.

(** [n] turns of the job queue, the [i]-th at clock [clock i]; stops
    early when the queue is empty. *)
Fixpoint run_jobs (n : nat) (clock : nat -> Z) (c : QueryCache)
  : QueryCache * nat :=
  match n with
  | O => (c, O)
  | S n' =>
      match run_job c (clock O) with
      | None => (c, O)
      | Some c' =>
          let (c'', done) := run_jobs n' (fun i => clock (S i)) c' in
          (c'', S done)
      end
  end.

(* ---------------------------------------------------------------- *)
(** *** The invalidation rule engine *)
(* ---------------------------------------------------------------- *)

Inductive TxOutcome :=
| OutcomeOk (outcome_txHash : option JsString)
| OutcomeFailed (error : AppError) (retryable : bool).

Record InvalidationRuleInput := {
  outcome : TxOutcome;
  event : CacheInvalidationEvent
}.

Definition invalidateBalances (c : QueryCache) (addrs : list JsString)
           (evt : CacheInvalidationEvent) (ts : Z) : QueryCache :=
  fold_left
    (fun c' addr => invalidate c' (QueryKeys.balances.account addr) (Some evt) ts)
    addrs c.

Definition invalidateCoinFlip (c : QueryCache) (addrs : list JsString)
           (gid : option Scalar) (evt : CacheInvalidationEvent) (ts : Z)
  : QueryCache :=
  let c1 :=
    match gid with
    | Some g =>
        invalidate c (QueryKeys.games.byId (SString (String_of g))) (Some evt) ts
    | None => c
    end in
  fold_left
    (fun c' addr =>
       invalidate c' (QueryKeys.games.recentByAddress addr) (Some evt) ts)
    addrs c1.

Definition invalidateAchievementBadge (c : QueryCache)
           (addrs : list JsString) (evt : CacheInvalidationEvent) (ts : Z)
  : QueryCache :=
  fold_left
    (fun c' addr =>
       let c1 := invalidate c' (QueryKeys.rewards.byAddress addr) (Some evt) ts in
       invalidate c1 (QueryKeys.profile.byAddress addr) (Some evt) ts)
    addrs c.

Definition contract_is (evt : CacheInvalidationEvent) (n : JsString) : bool :=
  match contractTx evt with
  | Some tx => str_eqb (contract tx) n
  | None => false
  end.

(** [const evt = { ...input.event, at: now(), reason, ... }] *)
Definition stamp_event (input : InvalidationRuleInput) (ts : Z)
  : CacheInvalidationEvent :=
  let reason' :=
    match outcome input with
    | OutcomeOk _ => tx_success
    | OutcomeFailed _ true => tx_failed_retryable
    | OutcomeFailed _ false => tx_failed_terminal
    end in
  {| at_ms := ts;
     reason := reason';
     contractTx :=
       match contractTx (event input) with
       | Some tx =>
           Some {| contract := contract tx;
                   method := method tx;
                   txHash :=
                     match outcome input with
                     | OutcomeOk h => h
                     | OutcomeFailed _ _ => txHash tx
                     end;
                   addresses := addresses tx;
                   gameId := gameId tx |}
       | None => None
       end;
     mutation := mutation (event input) |}.

(** [evt.contractTx?.addresses ?? evt.mutation?.addresses ?? []] *)
Definition event_addresses (evt : CacheInvalidationEvent) : list JsString :=
  match
    match contractTx evt with
    | Some tx => addresses tx
    | None => None
    end
  with
  | Some a => a
  | None =>
      match
        match mutation evt with
        | Some m => mutation_addresses m
        | None => None
        end
      with
      | Some a => a
      | None => []
      end
  end.

(** [evt.contractTx?.gameId] *)
Definition event_gameId (evt : CacheInvalidationEvent) : option Scalar :=
  match contractTx evt with
  | Some tx => gameId tx
  | None => None
  end.

Definition applyRules (c : QueryCache) (input : InvalidationRuleInput)
           (ts : Z) : QueryCache :=
  let evt := stamp_event input ts in
  let addrs := event_addresses evt in
  let gid := event_gameId evt in
  let c1 := invalidateBalances c addrs evt ts in
  let c2 :=
    if contract_is evt (lit "prizePool")
    then invalidatePrefix c1 QueryKeys.balances.root (Some evt) ts
    else c1 in
  let c3 :=
    if contract_is evt (lit "coinFlip")
    then invalidateCoinFlip c2 addrs gid evt ts
    else c2 in
  if contract_is evt (lit "achievementBadge")
  then invalidateAchievementBadge c3 addrs evt ts
  else c3.

(* ---------------------------------------------------------------- *)
(** *** The remaining methods of [QueryCache] *)
(* ---------------------------------------------------------------- *)

(** [QueryCacheSnapshot]: the keys of the stored entries, in insertion
    order, and [entries.size]. *)
Record QueryCacheSnapshot := {
  keys : list QueryKey;
  size : nat
}.

Definition snapshot (c : QueryCache) : QueryCacheSnapshot :=
  {| keys := List.map key (map_values (entries c));
     size := List.length (entries c) |}.

(** [{ ok: true } | { ok: false; error }] *)
Inductive DependencyResult :=
| DepsOk
| DepsFailed (error : AppError).

(** The loop of [ensureDependencies] returns at the first stale
    dependency, after invalidating the parent; nothing in its [try]
    block throws. *)
Fixpoint ensureDependencies (c : QueryCache) (parent : QueryKey)
         (deps : list QueryKey) (ts : Z) : DependencyResult * QueryCache :=
  match deps with
  | [] => (DepsOk, c)
  | dep :: rest =>
      if isStale c dep ts then
        (DepsFailed
           (toAppError (newError (lit "Dependency stale"))
                       (Some (lit "unknown"))
                       [(lit "parent", parent); (lit "dep", dep)]),
         invalidate c parent
           (Some {| at_ms := ts; reason := consistency_check;
                    contractTx := None; mutation := None |})
           ts)
      else ensureDependencies c parent rest ts
  end.

(* ---------------------------------------------------------------- *)
(** *** Notions the properties are stated with *)
(* ---------------------------------------------------------------- *)

(** The store is well formed when its slots are pairwise different and
    every entry sits in the slot of its own key: what a [Map] filled by
    [set] looks like. *)
Definition well_formed (c : QueryCache) : Prop :=
  NoDup (map_keys (entries c)) /\
  forall s e, In (s, e) (entries c) -> s = keyToString (key e).

(** Invalidating a list of keys one after the other. *)
Definition invalidate_all (c : QueryCache) (ks : list QueryKey)
           (evt : option CacheInvalidationEvent) (ts : Z) : QueryCache :=
  fold_left (fun c' k => invalidate c' k evt ts) ks c.

Definition slot_among (j : QueryKey) (ks : list QueryKey) : bool :=
  existsb (fun k => str_eqb (keyToString j) (keyToString k)) ks.

(** The keys [applyRules] passes to [invalidate], in call order. *)
Definition rule_keys (c : QueryCache) (evt : CacheInvalidationEvent)
  : list QueryKey :=
  let addrs := event_addresses evt in
  List.map QueryKeys.balances.account addrs
  ++ (if contract_is evt (lit "prizePool")
      then filter (fun k => hasPrefix k QueryKeys.balances.root)
                  (List.map key (map_values (entries c)))
      else [])
  ++ (if contract_is evt (lit "coinFlip")
      then match event_gameId evt with
           | Some g => [QueryKeys.games.byId (SString (String_of g))]
           | None => []
           end
           ++ List.map QueryKeys.games.recentByAddress addrs
      else [])
  ++ (if contract_is evt (lit "achievementBadge")
      then flat_map (fun a => [QueryKeys.rewards.byAddress a;
                               QueryKeys.profile.byAddress a]) addrs
      else []).

(** The state between two turns of the invalidate / refetch cycle: the
    entry is there with its data and refetches on invalidation, its
    fetcher is registered, and exactly one refetch of the key waits, on
    a promise that rejects. *)
Definition cycling (c : QueryCache) (k : QueryKey) (d : Data) (f : Fetcher)
           (notifications : nat) : Prop :=
  (exists e, get c k = Some e /\ data e = d /\
             refetches (policy e) = true /\
             invalidatedAt (meta e) <> None) /\
  map_get (keyToString k) (fetchers c) = Some f /\
  (exists err, suspended c =
               [{| suspended_key := k; suspended_promise := Rejected err |}]) /\
  List.length (notified c) = notifications.

Definition stamp (e : CacheEntry) : Z := updatedAt (meta e).

(** A cache as a run of the program leaves it at clock [T]: well
    formed, no entry written after [T], and within its bound when one
    is configured ([maxEntries] absent or [0] means no bound). *)
Definition consistent (c : QueryCache) (T : Z) : Prop :=
  well_formed c /\
  (forall s e, In (s, e) (entries c) -> stamp e <= T) /\
  match maxEntries c with
  | None => True
  | Some m => m = 0 \/ (1 <= m /\ Z.of_nat (List.length (entries c)) <= m)
  end.

(** How the cache after [set] relates to the one before: [entry] is in
    the slot of [k]; [evicted] is the slot, and the entry, that the
    bound pushed out, if any; every other slot is as it was. *)
Definition set_outcome (c c' : QueryCache) (k : QueryKey)
           (entry : CacheEntry) (evicted : option (JsString * CacheEntry))
  : Prop :=
  NoDup (map_keys (entries c')) /\
  (forall s,
     map_get s (entries c') =
     if str_eqb s (keyToString k) then Some entry
     else match evicted with
          | Some (sv, _) =>
              if str_eqb s sv then None else map_get s (entries c)
          | None => map_get s (entries c)
          end) /\
  match evicted with
  | None =>
      List.length (entries c') =
      (List.length (entries c)
       + match get c k with Some _ => 0 | None => 1 end)%nat /\
      match maxEntries c with
      | None => True
      | Some m =>
          m = 0 \/ (1 <= m /\ Z.of_nat (List.length (entries c')) <= m)
      end
  | Some (sv, victim) =>
      get c k = None /\
      sv <> keyToString k /\
      map_get sv (entries c) = Some victim /\
      (forall s e, map_get s (entries c) = Some e ->
                   stamp victim <= stamp e) /\
      List.length (entries c') = List.length (entries c) /\
      maxEntries c = Some (Z.of_nat (List.length (entries c))) /\
      (1 <= List.length (entries c))%nat
  end /\
  fetchers c' = fetchers c /\ maxEntries c' = maxEntries c.

(** A run of [set] calls. *)
Record SetCall := {
  call_key : QueryKey;
  call_data : Data;
  call_policy : option QueryPolicy;
  call_ts : Z
}.

Definition run_sets (c : QueryCache) (calls : list SetCall) : QueryCache :=
  fold_left
    (fun c' op =>
       snd (set c' (call_key op) (call_data op) (call_policy op) (call_ts op)))
    calls c.

(** The clock values of the calls never decrease, starting from [T]. *)
Fixpoint clock_monotone (T : Z) (calls : list SetCall) : Prop :=
  match calls with
  | [] => True
  | op :: rest => T <= call_ts op /\ clock_monotone (call_ts op) rest
  end.

Definition call_slot (op : SetCall) : JsString := keyToString (call_key op).

(** The storage slots the calls touch, each once. *)
Definition distinct_slots (calls : list SetCall) : list JsString :=
  nodup (list_eq_dec N.eq_dec) (List.map call_slot calls).

(** What holds of a bounded cache after the calls [hist], the last of
    them at clock [T]. *)
Definition lru_invariant (N : Z) (c : QueryCache) (hist : list SetCall)
           (T : Z) : Prop :=
  consistent c T /\
  maxEntries c = Some N /\
  (forall op, In op hist -> call_ts op <= T) /\
  (forall s e, map_get s (entries c) = Some e ->
     exists op, In op hist /\ call_slot op = s /\
                key e = call_key op /\ stamp e = call_ts op) /\
  (forall op s e, In op hist -> map_get s (entries c) = Some e ->
     s = call_slot op \/ map_get (call_slot op) (entries c) = None ->
     call_ts op <= stamp e) /\
  (Z.of_nat (List.length (entries c)) = N \/
   forall op, In op hist -> map_get (call_slot op) (entries c) <> None).

(** The eviction rule in the words of the design document, on the
    slots and their [updatedAt] alone.  First, the slot to evict: the
    least recently updated one, and among those updated at the same
    clock value the one that comes first in the enumeration of the
    [Map]. *)
Fixpoint least_recently_updated (l : list (JsString * Z))
  : option (JsString * Z) :=
  match l with
  | [] => None
  | x :: rest =>
      match least_recently_updated rest with
      | Some y => if snd x <=? snd y then Some x else Some y
      | None => Some x
      end
  end.

(** One [set] at clock [ts] on the slot [s] of a store bounded by [N]:
    a stored slot is updated in place, a new one is appended, and when
    that makes more than [N] slots the least recently updated leaves. *)
Definition lru_set (N : Z) (l : list (JsString * Z)) (s : JsString) (ts : Z)
  : list (JsString * Z) :=
  let l1 := map_set s ts l in
  if Z.of_nat (List.length l1) <=? N then l1
  else
    match least_recently_updated l1 with
    | Some (victim, _) => map_delete victim l1
    | None => l1
    end.

(** The slots that the rule leaves after a run of calls on an empty
    store, in the order of enumeration, each with its [updatedAt]. *)
Definition lru_run (N : Z) (calls : list SetCall) : list (JsString * Z) :=
  fold_left (fun l op => lru_set N l (call_slot op) (call_ts op)) calls [].

(** The slots of the store with the [updatedAt] of their entries, in the
    order the [Map] enumerates them. *)
Definition slot_stamps (c : QueryCache) : list (JsString * Z) :=
  List.map (fun se => (fst se, stamp (snd se))) (entries c).

(** The states of a cache object, with the clock value they are
    reached at: a cache is created with no bound or a non-negative one,
    the clock moves forward, and the public operations and the job queue
    run.  An awaited fetch is taken as one step. *)
Inductive Reachable : Z -> QueryCache -> Prop :=
| reach_new (m : option Z) (T : Z) :
    match m with Some n => 0 <= n | None => True end ->
    Reachable T (new_QueryCache m)
| reach_later (T T' : Z) (c : QueryCache) :
    Reachable T c -> T <= T' -> Reachable T' c
| reach_set (T : Z) (c : QueryCache) k d p :
    Reachable T c -> Reachable T (snd (set c k d p T))
| reach_invalidate (T : Z) (c : QueryCache) k evt :
    Reachable T c -> Reachable T (invalidate c k evt T)
| reach_invalidatePrefix (T : Z) (c : QueryCache) prefix evt :
    Reachable T c -> Reachable T (invalidatePrefix c prefix evt T)
| reach_remove (T : Z) (c : QueryCache) k :
    Reachable T c -> Reachable T (remove c k)
| reach_clear (T : Z) (c : QueryCache) :
    Reachable T c -> Reachable T (clear c)
| reach_registerFetcher (T : Z) (c : QueryCache) k f :
    Reachable T c -> Reachable T (registerFetcher c k f)
| reach_unregisterFetcher (T : Z) (c : QueryCache) k :
    Reachable T c -> Reachable T (unregisterFetcher c k)
| reach_getOrFetch (T T' : Z) (c : QueryCache) k :
    Reachable T c -> T <= T' -> Reachable T' (snd (getOrFetch c k T T'))
| reach_refetch (T T' : Z) (c : QueryCache) k :
    Reachable T c -> T <= T' -> Reachable T' (snd (refetch c k T T'))
| reach_applyRules (T : Z) (c : QueryCache) input :
    Reachable T c -> Reachable T (applyRules c input T)
| reach_run_job (T : Z) (c c' : QueryCache) :
    Reachable T c -> run_job c T = Some c' -> Reachable T c'.

(** The timestamps of an entry as the writes leave them at clock [T]:
    created no later than updated, updated no later than [T], [staleAt]
    the sum of [updatedAt] and the stale time of the entry's policy,
    invalidated (if at all) between creation and [T]. *)
Definition well_timed (T : Z) (e : CacheEntry) : Prop :=
  createdAt (meta e) <= updatedAt (meta e) /\
  updatedAt (meta e) <= T /\
  staleAt (meta e) =
    Number_add (Finite (updatedAt (meta e))) (staleTime (policy e)) /\
  forall i, invalidatedAt (meta e) = Some i -> createdAt (meta e) <= i <= T.

End Cache.

Arguments Fulfilled {Data RawError} d.
Arguments Rejected {Data RawError} e.
Arguments DataResult {Data AppError} d.
Arguments ErrorResult {Data AppError} e.
Arguments OutcomeOk {AppError} outcome_txHash.
Arguments OutcomeFailed {AppError} error retryable.
Arguments missing_fetcher {RawError AppError} newError toAppError k.
Arguments key {Data} _.
Arguments data {Data} _.
Arguments policy {Data} _.
Arguments meta {Data} _.
Arguments entries {Data RawError} _.
Arguments fetchers {Data RawError} _.
Arguments maxEntries {Data RawError} _.
Arguments notified {Data RawError} _.
Arguments suspended {Data RawError} _.
Arguments get {Data RawError} c k.
Arguments set {Data RawError} c k d p ts.
Arguments isStale {Data RawError} c k ts.
Arguments invalidate {Data RawError} c k _evt ts.
Arguments invalidatePrefix {Data RawError} c prefix evt ts.
Arguments mark_invalidated {Data} e ts.
Arguments enforceMaxEntries {Data RawError} c.
Arguments registerFetcher {Data RawError} c k f.
Arguments start_refetch {Data RawError} c k ts.
Arguments resume_refetch {Data RawError AppError} toAppError c s ts.
Arguments refetch {Data RawError AppError} newError toAppError c k ts ts'.
Arguments getOrFetch {Data RawError AppError} newError toAppError c k ts ts'.
Arguments run_job {Data RawError AppError} toAppError c ts.
Arguments run_jobs {Data RawError AppError} toAppError n clock c.
Arguments applyRules {Data RawError AppError} c input ts.
Arguments stamp_event {AppError} input ts.
Arguments invalidateBalances {Data RawError} c addrs evt ts.
Arguments invalidateCoinFlip {Data RawError} c addrs gid evt ts.
Arguments invalidateAchievementBadge {Data RawError} c addrs evt ts.
Arguments outcome {AppError} _.
Arguments event {AppError} _.
Arguments well_formed {Data RawError} c.
Arguments invalidate_all {Data RawError} c ks evt ts.
Arguments rule_keys {Data RawError} c evt.
Arguments cycling {Data RawError} c k d f notifications.
Arguments stamp {Data} e.
Arguments consistent {Data RawError} c T.
Arguments set_outcome {Data RawError} c c' k entry evicted.
Arguments call_key {Data} _.
Arguments call_data {Data} _.
Arguments call_policy {Data} _.
Arguments call_ts {Data} _.
Arguments run_sets {Data RawError} c calls.
Arguments clock_monotone {Data} T calls.
Arguments call_slot {Data} op.
Arguments distinct_slots {Data} calls.
Arguments lru_invariant {Data RawError} N c hist T.
Arguments lru_run {Data} N calls.
Arguments slot_stamps {Data RawError} c.
Arguments Reachable {Data RawError AppError} newError toAppError _ _.
Arguments remove {Data RawError} c k.
Arguments clear {Data RawError} c.
Arguments unregisterFetcher {Data RawError} c k.
Arguments snapshot {Data RawError} c.
Arguments well_timed {Data} T e.
Arguments DepsOk {AppError}.
Arguments DepsFailed {AppError} error.
Arguments ensureDependencies {Data RawError AppError} newError toAppError c parent deps ts.

(* ================================================================== *)
(** ** Concrete caches and events *)
(* ================================================================== *)

Module Examples.

(** Payloads are integers, a fetcher rejects with a message, and the
    normalized error keeps what [toAppError] was given. *)
Definition Payload := Z.
Definition Raw := JsString.
Definition App := (JsString * option JsString * list (JsString * QueryKey))%type.
Definition newError (message : JsString) : Raw := message.
Definition toAppError (e : Raw) (kind : option JsString)
           (context : list (JsString * QueryKey)) : App :=
  (e, kind, context).

Definition empty (bound : option Z) : QueryCache Payload Raw :=
  new_QueryCache Payload Raw bound.

Definition boom : Fetcher Payload Raw := fun _ => Rejected (lit "boom").

Definition GADDR := lit "GADDR".
Definition balanceKey := QueryKeys.balances.account GADDR.
Definition gameKey := QueryKeys.games.recentByAddress GADDR.
Definition game7 := QueryKeys.games.byId (SNumber (Int 7 eq_refl)).
Definition rewardsKey := QueryKeys.rewards.byAddress (lit "GAAA").

Definition minute : QueryPolicy :=
  {| staleTimeMs := 60000; refetchOnInvalidate := false |}.
Definition always_stale : QueryPolicy :=
  {| staleTimeMs := 0; refetchOnInvalidate := false |}.

(** The cache of the test of the rule engine: a balance and a list of
    recent games for [GADDR], both written at clock 0. *)
Definition two_entries : QueryCache Payload Raw :=
  snd (set (snd (set (empty None) balanceKey 1 (Some minute) 0))
           gameKey 2 (Some minute) 0).

Definition coinFlip_success : InvalidationRuleInput App :=
  {| outcome := OutcomeOk (Some (lit "abc"));
     event :=
       {| at_ms := 0; reason := tx_success;
          contractTx :=
            Some {| contract := lit "coinFlip"; method := lit "play";
                    txHash := None; addresses := Some [GADDR];
                    gameId := Some (SNumber (Int 7 eq_refl)) |};
          mutation := None |} |}.

Definition prizePool_success : InvalidationRuleInput App :=
  {| outcome := OutcomeOk (Some (lit "abc"));
     event :=
       {| at_ms := 0; reason := tx_success;
          contractTx :=
            Some {| contract := lit "prizePool"; method := lit "deposit";
                    txHash := None; addresses := Some [];
                    gameId := None |};
          mutation := None |} |}.

(** A rewards entry under the default policy of its namespace, with a
    fetcher that always fails. *)
Definition failing_rewards : QueryCache Payload Raw :=
  registerFetcher (snd (set (empty None) rewardsKey 1 None 0)) rewardsKey boom.

(** Two writes at the same clock value. *)
Definition tied_calls : list (SetCall Payload) :=
  [ {| call_key := balanceKey; call_data := 1; call_policy := None; call_ts := 0 |};
    {| call_key := gameKey; call_data := 2; call_policy := None; call_ts := 0 |} ].

End Examples.

(* ================================================================== *)
(** ** Basic facts: arithmetic, strings and maps *)
(* ================================================================== *)

(** Up to [2^53] in magnitude an integer is a double: nothing is
    rounded. *)
Lemma round_to_double_exact (z : Z) :
  Z.abs z <= 2 ^ 53 -> round_to_double z = Finite z.
Proof.
  intros Hz. change (2 ^ 53) with 9007199254740992 in Hz.
  destruct (Z.eq_dec (Z.abs z) 9007199254740992) as [E|E].
  - destruct (Z.abs_spec z) as [[_ H]|[_ H]]; rewrite H in E.
    + subst z. vm_compute. reflexivity.
    + replace z with (-9007199254740992) by lia. vm_compute. reflexivity.
  - unfold round_to_double, round_significand.
    change (2 ^ 53) with 9007199254740992.
    destruct (Z.ltb_spec (Z.abs z) 9007199254740992) as [Hlt|Hge]; [|lia].
    cbv zeta.
    destruct (Z.leb_spec (2 ^ 1024) (Z.abs z)) as [Hbig|_].
    + exfalso. assert (9007199254740992 < 2 ^ 1024) by (vm_compute; reflexivity).
      lia.
    + f_equal. destruct z; reflexivity.
Qed.

Lemma Number_add_exact (a b : Z) :
  Z.abs (a + b) <= 2 ^ 53 -> Number_add (Finite a) (Finite b) = Finite (a + b).
Proof. apply round_to_double_exact. Qed.

(** A key of the declared type names one of the four namespaces, and
    [QueryPolicies] holds a policy for each. *)
Lemma declared_key_policy (k : QueryKey) :
  declared_key k = true ->
  exists q, QueryPolicies (namespace_of k) = Some (Declared q).
Proof.
  destruct k as [|[ns| | |] [|[s| | |] rest]]; try discriminate.
  cbn [declared_key namespace_of String_of QueryNamespace existsb].
  unfold QueryPolicies.
  destruct (str_eqb ns (lit "balances")); [eauto|].
  destruct (str_eqb ns (lit "games")); [eauto|].
  destruct (str_eqb ns (lit "rewards")); [eauto|].
  destruct (str_eqb ns (lit "profile")); [eauto|].
  discriminate.
Qed.

Lemma Number_ge_Finite (a b : Z) :
  Number_ge (Finite a) (Finite b) = (b <=? a).
Proof. cbn. apply Z.geb_leb. Qed.

(** A clock value never reaches a [staleAt] that is [NaN]. *)
Lemma Number_ge_NaN (x : Double) : Number_ge x NotANumber = false.
Proof. now destruct x. Qed.

(** [x >= s] once true stays true as [x] grows. *)
Lemma Number_ge_monotone (t t' : Z) (s : Double) :
  t <= t' -> Number_ge (Finite t) s = true -> Number_ge (Finite t') s = true.
Proof.
  intros Ht. destruct s as [z| | |]; cbn; try congruence.
  rewrite !Z.geb_leb, !Z.leb_le. lia.
Qed.

Lemma str_eqb_eq (a b : JsString) : str_eqb a b = true <-> a = b.
Proof.
  revert b; induction a as [|x a IH]; intros [|y b]; simpl; split;
    try congruence; try reflexivity.
  - intros H. apply andb_true_iff in H. destruct H as [Hx Hr].
    apply N.eqb_eq in Hx. apply IH in Hr. congruence.
  - intros H. injection H as -> ->. rewrite N.eqb_refl. simpl.
    apply IH. reflexivity.
Qed.

Lemma str_eqb_refl (a : JsString) : str_eqb a a = true.
Proof. apply str_eqb_eq. reflexivity. Qed.

Lemma str_eqb_neq (a b : JsString) : str_eqb a b = false <-> a <> b.
Proof.
  split.
  - intros H E. apply str_eqb_eq in E. congruence.
  - intros H. destruct (str_eqb a b) eqn:E; [|reflexivity].
    apply str_eqb_eq in E. contradiction.
Qed.

Lemma str_eqb_sym (a b : JsString) : str_eqb a b = str_eqb b a.
Proof.
  destruct (str_eqb a b) eqn:E.
  - apply str_eqb_eq in E. subst. symmetry. apply str_eqb_refl.
  - apply str_eqb_neq in E. symmetry. apply str_eqb_neq. congruence.
Qed.

(** Case analysis on a comparison of two strings. *)
Ltac str_cases a b :=
  let E := fresh "E" in
  destruct (str_eqb a b) eqn:E;
  [apply str_eqb_eq in E | apply str_eqb_neq in E].

Section JsMapFacts.
Context {V : Type}.
Implicit Types (m : list (JsString * V)) (k j : JsString) (v : V).

Lemma map_get_set j k v m :
  map_get j (map_set k v m) = if str_eqb j k then Some v else map_get j m.
Proof.
  induction m as [|[k' v'] m IH]; simpl.
  - reflexivity.
  - str_cases k k'; simpl.
    + subst k'. str_cases j k; reflexivity.
    + rewrite IH. str_cases j k'; [|reflexivity].
      subst k'. str_cases j k; [congruence|reflexivity].
Qed.

Lemma In_map_set j w k v m :
  In (j, w) (map_set k v m) -> (j = k /\ w = v) \/ In (j, w) m.
Proof.
  induction m as [|[k' v'] m IH]; cbn [map_set].
  - intros [H|[]]. injection H as <- <-. now left.
  - str_cases k k'.
    + intros [H|H]; [|right; now right].
      injection H as <- <-. left. split; [now symmetry|reflexivity].
    + intros [H|H]; [right; now left|].
      destruct (IH H) as [H'|H']; [now left|right; now right].
Qed.

Lemma map_set_length_le k v m :
  (List.length (map_set k v m) <= S (List.length m))%nat.
Proof.
  induction m as [|[k' v'] m IH]; cbn [map_set]; [cbn; lia|].
  destruct (str_eqb k k'); cbn [List.length]; lia.
Qed.

Lemma map_get_In j v m : map_get j m = Some v -> In (j, v) m.
Proof.
  induction m as [|[k' v'] m IH]; simpl; [discriminate|].
  str_cases j k'.
  - intros H. injection H as ->. subst. now left.
  - intros H. right. auto.
Qed.

Lemma map_get_None j m : map_get j m = None <-> ~ In j (map_keys m).
Proof.
  induction m as [|[k' v'] m IH]; simpl.
  - tauto.
  - str_cases j k'.
    + subst. split; [discriminate|]. intros H. exfalso. apply H. now left.
    + rewrite IH. split; intros H; [intros [H1|H1]; [congruence|auto]|tauto].
Qed.

Lemma In_map_get j v m :
  NoDup (map_keys m) -> In (j, v) m -> map_get j m = Some v.
Proof.
  induction m as [|[k' v'] m IH]; simpl; [tauto|].
  intros Hnd [H|H].
  - injection H as -> ->. now rewrite str_eqb_refl.
  - inversion Hnd as [|? ? Hni Hnd']; subst.
    str_cases j k'.
    + subst k'. exfalso. apply Hni.
      change j with (fst (j, v)). apply in_map. exact H.
    + auto.
Qed.

Lemma map_keys_set_present k v m :
  In k (map_keys m) -> map_keys (map_set k v m) = map_keys m.
Proof.
  induction m as [|[k' v'] m IH]; simpl; [tauto|].
  intros H. str_cases k k'; simpl; [reflexivity|].
  f_equal. apply IH. destruct H; [congruence|assumption].
Qed.

Lemma map_set_absent k v m :
  ~ In k (map_keys m) -> map_set k v m = m ++ [(k, v)].
Proof.
  induction m as [|[k' v'] m IH]; simpl; [reflexivity|].
  intros H. str_cases k k'; [exfalso; apply H; left; congruence|].
  f_equal. apply IH. tauto.
Qed.

Lemma map_get_delete j k m :
  map_get j (map_delete k m) = if str_eqb j k then None else map_get j m.
Proof.
  induction m as [|[k' v'] m IH]; simpl.
  - now destruct (str_eqb j k).
  - str_cases k k'; simpl.
    + subst k'. rewrite IH. str_cases j k; reflexivity.
    + rewrite IH. str_cases j k'; [|reflexivity].
      subst k'. str_cases j k; [congruence|reflexivity].
Qed.

Lemma map_delete_absent k m :
  ~ In k (map_keys m) -> map_delete k m = m.
Proof.
  induction m as [|[k' v'] m IH]; simpl; [reflexivity|].
  intros H. str_cases k k'; [exfalso; apply H; left; congruence|].
  f_equal. apply IH. tauto.
Qed.

Lemma map_delete_app k m1 m2 :
  map_delete k (m1 ++ m2) = map_delete k m1 ++ map_delete k m2.
Proof.
  induction m1 as [|[k' v'] m1 IH]; simpl; [reflexivity|].
  destruct (str_eqb k k'); simpl; now rewrite IH.
Qed.

Lemma In_map_delete k m s x :
  In (s, x) (map_delete k m) <-> s <> k /\ In (s, x) m.
Proof.
  induction m as [|[k' v'] m IH]; simpl; [tauto|].
  str_cases k k'; simpl; rewrite IH.
  - subst k'. split.
    + intros [? ?]. tauto.
    + intros [Hn [H|H]]; [congruence|tauto].
  - split.
    + intros [H|[? ?]]; [injection H as <- <-; split; [congruence|now left]|tauto].
    + intros [Hn [H|H]]; tauto.
Qed.

Lemma map_delete_length_present k m :
  NoDup (map_keys m) -> In k (map_keys m) ->
  S (List.length (map_delete k m)) = List.length m.
Proof.
  induction m as [|[k' v'] m IH]; simpl; [tauto|].
  intros Hnd Hin. inversion Hnd as [|? ? Hni Hnd']; subst.
  str_cases k k'.
  - subst k'. now rewrite map_delete_absent.
  - simpl. f_equal. apply IH; [assumption|]. destruct Hin; [congruence|assumption].
Qed.

Lemma map_keys_delete_incl k m s :
  In s (map_keys (map_delete k m)) -> In s (map_keys m) /\ s <> k.
Proof.
  unfold map_keys. rewrite !in_map_iff. intros [[s' x] [<- H]].
  apply In_map_delete in H. destruct H as [Hn H]. simpl. split; [|assumption].
  exists (s', x). auto.
Qed.

Lemma map_keys_delete_NoDup k m :
  NoDup (map_keys m) -> NoDup (map_keys (map_delete k m)).
Proof.
  induction m as [|[k' v'] m IH]; simpl; [auto|].
  intros Hnd. inversion Hnd as [|? ? Hni Hnd']; subst.
  destruct (str_eqb k k'); simpl; [auto|].
  constructor; [|auto].
  intros H. apply map_keys_delete_incl in H. tauto.
Qed.
End JsMapFacts.

(* ================================================================== *)
(** ** Facts about the cache operations *)
(* ================================================================== *)

Section CacheFacts.
Context {Data RawError AppError : Type}.
Variable newError : JsString -> RawError.
Variable toAppError :
  RawError -> option JsString -> list (JsString * QueryKey) -> AppError.

Let Cache := QueryCache Data RawError.
Let Entry := CacheEntry Data.
Implicit Types (c : Cache) (k j : QueryKey) (e : Entry) (ts : Z).

(* Keys are compared through their encodings only. *)
Opaque keyToString.


Lemma mark_invalidated_idem e ts :
  mark_invalidated (mark_invalidated e ts) ts = mark_invalidated e ts.
Proof. reflexivity. Qed.

Lemma entries_start_refetch c k ts :
  entries (start_refetch c k ts) = entries c.
Proof. unfold start_refetch. now destruct (map_get _ (fetchers c)). Qed.

Lemma fetchers_start_refetch c k ts :
  fetchers (start_refetch c k ts) = fetchers c.
Proof. unfold start_refetch. now destruct (map_get _ (fetchers c)). Qed.

Lemma maxEntries_start_refetch c k ts :
  maxEntries (start_refetch c k ts) = maxEntries c.
Proof. unfold start_refetch. now destruct (map_get _ (fetchers c)). Qed.

(** What [invalidate] does to the [Map], whatever it schedules. *)
Lemma entries_invalidate c k evt ts :
  entries (invalidate c k evt ts) =
  match get c k with
  | None => entries c
  | Some e => map_set (keyToString k) (mark_invalidated e ts) (entries c)
  end.
Proof.
  unfold invalidate, get. destruct (map_get _ (entries c)) as [e|]; [|reflexivity].
  destruct (refetches _); [rewrite entries_start_refetch|];
    reflexivity.
Qed.

Lemma fetchers_invalidate c k evt ts :
  fetchers (invalidate c k evt ts) = fetchers c.
Proof.
  unfold invalidate. destruct (map_get _ (entries c)) as [e|]; [|reflexivity].
  destruct (refetches _); [rewrite fetchers_start_refetch|];
    reflexivity.
Qed.

Lemma maxEntries_invalidate c k evt ts :
  maxEntries (invalidate c k evt ts) = maxEntries c.
Proof.
  unfold invalidate. destruct (map_get _ (entries c)) as [e|]; [|reflexivity].
  destruct (refetches _); [rewrite maxEntries_start_refetch|];
    reflexivity.
Qed.

Lemma get_invalidate c k evt ts j :
  get (invalidate c k evt ts) j =
  if str_eqb (keyToString j) (keyToString k)
  then option_map (fun e => mark_invalidated e ts) (get c j)
  else get c j.
Proof.
  unfold get at 1. rewrite entries_invalidate. unfold get.
  destruct (map_get (keyToString k) (entries c)) as [e|] eqn:G.
  - rewrite map_get_set. str_cases (keyToString j) (keyToString k);
      [|reflexivity]. rewrite E, G. reflexivity.
  - str_cases (keyToString j) (keyToString k); [|reflexivity].
    rewrite E, G. reflexivity.
Qed.

Lemma map_keys_invalidate c k evt ts :
  map_keys (entries (invalidate c k evt ts)) = map_keys (entries c).
Proof.
  rewrite entries_invalidate. unfold get.
  destruct (map_get _ (entries c)) as [e|] eqn:G; [|reflexivity].
  apply map_keys_set_present.
  apply map_get_In in G. change (keyToString k) with (fst (keyToString k, e)).
  apply in_map. exact G.
Qed.

Lemma isStale_invalidated c k e t :
  get c k = Some e -> invalidatedAt (meta e) <> None -> isStale c k t = true.
Proof.
  intros G H. unfold isStale. rewrite G.
  destruct (invalidatedAt (meta e)); [reflexivity|congruence].
Qed.


Lemma get_invalidate_all ks : forall c evt ts j,
  get (invalidate_all c ks evt ts) j =
  if slot_among j ks
  then option_map (fun e => mark_invalidated e ts) (get c j)
  else get c j.
Proof.
  induction ks as [|k ks IH]; intros c evt ts j; simpl; [reflexivity|].
  unfold invalidate_all in *. simpl. rewrite IH, get_invalidate.
  destruct (str_eqb (keyToString j) (keyToString k)); simpl;
    destruct (slot_among j ks); try reflexivity.
  destruct (get c j); reflexivity.
Qed.

Lemma map_keys_invalidate_all ks : forall c evt ts,
  map_keys (entries (invalidate_all c ks evt ts)) = map_keys (entries c).
Proof.
  induction ks as [|k ks IH]; intros c evt ts; simpl; [reflexivity|].
  unfold invalidate_all in *. simpl. rewrite IH. apply map_keys_invalidate.
Qed.

Lemma fetchers_invalidate_all ks : forall c evt ts,
  fetchers (invalidate_all c ks evt ts) = fetchers c.
Proof.
  induction ks as [|k ks IH]; intros c evt ts; simpl; [reflexivity|].
  unfold invalidate_all in *. simpl. rewrite IH. apply fetchers_invalidate.
Qed.

(** The keys stored in the entries are not touched by invalidation. *)
Lemma stored_keys_invalidate c k evt ts :
  List.map key (map_values (entries (invalidate c k evt ts))) =
  List.map key (map_values (entries c)).
Proof.
  rewrite entries_invalidate. unfold get.
  destruct (map_get (keyToString k) (entries c)) as [e|] eqn:G; [|reflexivity].
  revert G. generalize (keyToString k) as s. intros s.
  induction (entries c) as [|[s' x] m IH]; simpl; [discriminate|].
  str_cases s s'; simpl.
  - intros H. injection H as ->. reflexivity.
  - intros H. f_equal. apply IH. exact H.
Qed.

Lemma stored_keys_invalidate_all ks : forall c evt ts,
  List.map key (map_values (entries (invalidate_all c ks evt ts))) =
  List.map key (map_values (entries c)).
Proof.
  induction ks as [|k ks IH]; intros c evt ts; simpl; [reflexivity|].
  unfold invalidate_all in *. simpl. rewrite IH.
  apply stored_keys_invalidate.
Qed.

(** [invalidatePrefix] is the invalidation of the stored keys that have
    the prefix, in insertion order. *)
Lemma invalidatePrefix_as_invalidate_all c prefix evt ts :
  invalidatePrefix c prefix evt ts =
  invalidate_all c
    (filter (fun k => hasPrefix k prefix)
            (List.map key (map_values (entries c))))
    evt ts.
Proof.
  unfold invalidatePrefix, invalidate_all.
  generalize (map_values (entries c)) as l. intros l. revert c.
  induction l as [|e l IH]; intros c; simpl; [reflexivity|].
  destruct (hasPrefix (key e) prefix); simpl; apply IH.
Qed.

Lemma well_formed_get c s e :
  well_formed c -> In (s, e) (entries c) ->
  get c (key e) = Some e /\ map_get s (entries c) = Some e.
Proof.
  intros [Hnd Hk] Hin. pose proof (Hk _ _ Hin) as ->.
  unfold get. split; apply In_map_get; assumption.
Qed.

(** In a well-formed store only an entry's own key reaches its slot. *)
Lemma slot_among_stored c s e (P : QueryKey -> bool) :
  well_formed c -> In (s, e) (entries c) ->
  slot_among (key e) (filter P (List.map key (map_values (entries c)))) =
  P (key e).
Proof.
  intros Hwf Hin. destruct (P (key e)) eqn:HP.
  - apply existsb_exists. exists (key e). split; [|apply str_eqb_refl].
    apply filter_In. split; [|exact HP].
    apply in_map. unfold map_values.
    change e with (snd (s, e)). apply in_map. exact Hin.
  - destruct (slot_among _ _) eqn:Hs; [|reflexivity].
    apply existsb_exists in Hs. destruct Hs as [k' [Hk' Heq]].
    apply filter_In in Hk'. destruct Hk' as [Hk' HP'].
    apply in_map_iff in Hk'. destruct Hk' as [e' [<- He']].
    unfold map_values in He'. apply in_map_iff in He'.
    destruct He' as [[s' e''] [He'' Hin']]. simpl in He''. subst e''.
    apply str_eqb_eq in Heq.
    destruct Hwf as [Hnd Hk].
    pose proof (Hk _ _ Hin) as Hs1. pose proof (Hk _ _ Hin') as Hs2.
    assert (e' = e).
    { assert (G1 : map_get s (entries c) = Some e) by (now apply In_map_get).
      assert (G2 : map_get s' (entries c) = Some e') by (now apply In_map_get).
      assert (s = s') by congruence. subst s'. congruence. }
    subst e'. congruence.
Qed.

Lemma segments_match_spec prefix : forall ky : QueryKey,
  segments_match ky prefix = true <->
  (forall i p, nth_error prefix i = Some p ->
               exists x, nth_error ky i = Some x /\ strict_eq x p = true).
Proof.
  induction prefix as [|p prefix IH]; intros ky; simpl.
  - split; [|reflexivity]. intros _ [|i] q; discriminate.
  - destruct ky as [|x ky].
    + split; [discriminate|]. intros H.
      destruct (H O p eq_refl) as [x [Hx _]]. discriminate.
    + destruct (strict_eq x p) eqn:Hxp; simpl.
      * rewrite IH. split.
        -- intros H [|i] q Hq; simpl in *.
           ++ injection Hq as <-. eauto.
           ++ apply H. exact Hq.
        -- intros H i q Hq. apply (H (S i) q Hq).
      * split; [discriminate|]. intros H.
        destruct (H O p eq_refl) as [x' [Hx' Hs]]. simpl in Hx'.
        injection Hx' as <-. congruence.
Qed.

Lemma segments_match_length prefix : forall ky : QueryKey,
  segments_match ky prefix = true ->
  (List.length prefix <= List.length ky)%nat.
Proof.
  induction prefix as [|p prefix IH]; intros [|x ky]; simpl; try lia;
    try discriminate.
  destruct (strict_eq x p); simpl; [|discriminate].
  intros H. apply IH in H. lia.
Qed.

(** [hasPrefix] computes the relation the design document describes. *)
Lemma hasPrefix_spec (ky prefix : QueryKey) :
  hasPrefix ky prefix = true <-> leading_segments_equal ky prefix.
Proof.
  unfold hasPrefix, leading_segments_equal.
  destruct (Nat.ltb_spec (List.length ky) (List.length prefix)) as [Hlt|Hge].
  - split; [discriminate|]. intros [H _]. lia.
  - rewrite segments_match_spec. tauto.
Qed.

Lemma invalidate_present c k e evt ts :
  get c k = Some e ->
  get (invalidate c k evt ts) k = Some (mark_invalidated e ts) /\
  forall t, isStale (invalidate c k evt ts) k t = true.
Proof.
  intros G.
  assert (G' : get (invalidate c k evt ts) k = Some (mark_invalidated e ts)).
  { rewrite get_invalidate, str_eqb_refl, G. reflexivity. }
  split; [exact G'|].
  intros t. eapply isStale_invalidated; [exact G'|]. simpl. discriminate.
Qed.

(** C7: [invalidate] does nothing at all when the key has no entry;
    when it has one, the entry keeps its data and gets
    [invalidatedAt = now], so that [get] still returns the previous
    data and [isStale] is true from then on. *)
Theorem invalidate_noop_or_nondestructive c k evt ts :
  match get c k with
  | None => invalidate c k evt ts = c
  | Some e =>
      let c' := invalidate c k evt ts in
      get c' k = Some (mark_invalidated e ts) /\
      data (mark_invalidated e ts) = data e /\
      invalidatedAt (meta (mark_invalidated e ts)) = Some ts /\
      forall t, isStale c' k t = true
  end.
Proof.
  destruct (get c k) as [e|] eqn:G.
  - destruct (invalidate_present c k e evt ts G) as [G' Hstale].
    cbv zeta. repeat split; assumption.
  - unfold invalidate. unfold get in G. now rewrite G.
Qed.

(** C3: when [getOrFetch] cannot answer from a fresh entry and there is
    no fetcher, or the fetcher fails, the result is an error made by
    [toAppError] and the cache is the one before the call. *)
Theorem getOrFetch_failure_leaves_cache c k ts ts' :
  (get c k = None \/ isStale c k ts = true) ->
  (map_get (keyToString k) (fetchers c) = None \/
   exists f err, map_get (keyToString k) (fetchers c) = Some f /\
                 f ts = Rejected err) ->
  exists appError,
    getOrFetch newError toAppError c k ts ts' = (ErrorResult appError, c) /\
    (appError = toAppError (newError (lit "Missing fetcher")) None [(lit "key", k)] \/
     exists f err, map_get (keyToString k) (fetchers c) = Some f /\
                   f ts = Rejected err /\
                   appError = toAppError err None [(lit "key", k)]) /\
    get (snd (getOrFetch newError toAppError c k ts ts')) k = get c k.
Proof.
  intros Hmiss Hfail.
  assert (Hpath :
    getOrFetch newError toAppError c k ts ts' =
    match map_get (keyToString k) (fetchers c) with
    | None => (ErrorResult (missing_fetcher newError toAppError k), c)
    | Some fetcher =>
        match fetcher ts with
        | Fulfilled d => (DataResult d, snd (set c k d None ts'))
        | Rejected e =>
            (ErrorResult (toAppError e None [(lit "key", k)]), c)
        end
    end).
  { unfold getOrFetch. destruct Hmiss as [G|S].
    - now rewrite G.
    - rewrite S. simpl. now destruct (get c k). }
  rewrite Hpath. destruct Hfail as [F|[f [err [F R]]]]; rewrite F.
  - eexists. split; [reflexivity|]. split; [now left|reflexivity].
  - rewrite R. eexists. split; [reflexivity|]. split; [|reflexivity].
    right. exists f, err. auto.
Qed.


(** C8: [invalidatePrefix] keeps the stored keys and their order,
    marks invalidated exactly the entries whose key has the prefix and
    leaves every other entry as it was. *)
Theorem invalidatePrefix_exact c prefix evt ts :
  well_formed c ->
  let c' := invalidatePrefix c prefix evt ts in
  map_keys (entries c') = map_keys (entries c) /\
  forall s e, In (s, e) (entries c) ->
    (leading_segments_equal (key e) prefix ->
     map_get s (entries c') = Some (mark_invalidated e ts)) /\
    (~ leading_segments_equal (key e) prefix ->
     map_get s (entries c') = Some e).
Proof.
  intros Hwf c'. subst c'.
  rewrite invalidatePrefix_as_invalidate_all. split.
  - apply map_keys_invalidate_all.
  - intros s e Hin.
    pose proof (well_formed_get c s e Hwf Hin) as [G _].
    pose proof (proj2 Hwf _ _ Hin) as Hs.
    pose proof (get_invalidate_all
      (filter (fun k => hasPrefix k prefix)
              (List.map key (map_values (entries c)))) c evt ts (key e)) as H.
    rewrite (slot_among_stored c s e (fun k => hasPrefix k prefix) Hwf Hin) in H.
    rewrite G in H. unfold get in H. rewrite <- Hs in H.
    split; intros Hp.
    + apply hasPrefix_spec in Hp. now rewrite Hp in H.
    + destruct (hasPrefix (key e) prefix) eqn:Hh; [|exact H].
      apply hasPrefix_spec in Hh. contradiction.
Qed.

End CacheFacts.

Transparent keyToString.


(* ================================================================== *)
(** ** The key encoding loses nothing *)
(* ================================================================== *)

Section JsonFacts.

Example stringify_ex :
  JSON_stringify [SString (lit "games"); SString (lit "a,b"); SNumber (Int (-7) eq_refl);
                  SNull; SBool true]
  = (lit "[" ++ 34 :: lit "games" ++ 34 :: lit "," ++ 34 :: lit "a,b" ++ 34 ::
     lit ",-7,null,true]")%N.
Proof. vm_compute. reflexivity. Qed.

Ltac Zify.zify_post_hook ::= Z.to_euclidean_division_equations.

Lemma hex_value_digit (d : N) :
  (d < 16)%N -> hex_value (hex_digit d) = Some d.
Proof.
  intros H. unfold hex_digit, hex_value.
  destruct (N.ltb_spec d 10) as [Hd|Hd].
  - replace ((48 <=? 48 + d) && (48 + d <=? 57))%N with true.
    + f_equal. lia.
    + symmetry. apply andb_true_iff. split; apply N.leb_le; lia.
  - replace ((48 <=? 87 + d) && (87 + d <=? 57))%N with false.
    + replace ((97 <=? 87 + d) && (87 + d <=? 102))%N with true.
      * f_equal. lia.
      * symmetry. apply andb_true_iff. split; apply N.leb_le; lia.
    + symmetry. apply andb_false_iff. right. apply N.leb_gt. lia.
Qed.

Lemma hex_digits_value (c : N) :
  (c < 65536)%N ->
  ((c / 4096) mod 16 * 4096 + (c / 256) mod 16 * 256
   + (c / 16) mod 16 * 16 + c mod 16 = c)%N.
Proof. intros H. lia. Qed.

Lemma unquote_unicode_escape (c : N) (t : JsString) :
  (c < 65536)%N ->
  unquote_body (unicode_escape c ++ t) = cons_fst c (unquote_body t).
Proof.
  intros H. unfold unicode_escape.
  cbn [app unquote_body N.eqb Pos.eqb].
  rewrite !hex_value_digit by (apply N.mod_lt; discriminate).
  now rewrite hex_digits_value.
Qed.

Lemma surrogate_bounds (c : N) :
  is_leading_surrogate c || is_trailing_surrogate c = true ->
  (55296 <= c < 57344)%N.
Proof.
  unfold is_leading_surrogate, is_trailing_surrogate.
  intros H. apply orb_true_iff in H.
  destruct H as [H|H]; apply andb_true_iff in H; destruct H as [H1 H2];
    apply N.leb_le in H1; apply N.leb_le in H2; lia.
Qed.

(** Reading back the escape of one code unit. *)
Lemma unquote_escape_unit (c : N) (t : JsString) :
  unquote_body (escape_unit c ++ t) = cons_fst c (unquote_body t).
Proof.
  unfold escape_unit.
  destruct (N.eqb_spec c 8) as [->|N8]; [reflexivity|].
  destruct (N.eqb_spec c 9) as [->|N9]; [reflexivity|].
  destruct (N.eqb_spec c 10) as [->|N10]; [reflexivity|].
  destruct (N.eqb_spec c 12) as [->|N12]; [reflexivity|].
  destruct (N.eqb_spec c 13) as [->|N13]; [reflexivity|].
  destruct (N.eqb_spec c 34) as [->|N34]; [reflexivity|].
  destruct (N.eqb_spec c 92) as [->|N92]; [reflexivity|].
  destruct ((c <? 32)%N || is_leading_surrogate c || is_trailing_surrogate c)
    eqn:Hesc.
  - apply unquote_unicode_escape.
    rewrite <- orb_assoc in Hesc. apply orb_true_iff in Hesc.
    destruct Hesc as [Hlt|Hs].
    + apply N.ltb_lt in Hlt. lia.
    + apply surrogate_bounds in Hs. lia.
  - cbn [app unquote_body].
    destruct (N.eqb_spec c 34); [contradiction|].
    destruct (N.eqb_spec c 92); [contradiction|]. reflexivity.
Qed.

Lemma unquote_literal_surrogate (c : N) (t : JsString) :
  is_leading_surrogate c || is_trailing_surrogate c = true ->
  unquote_body (c :: t) = cons_fst c (unquote_body t).
Proof.
  intros H. apply surrogate_bounds in H. cbn [unquote_body].
  destruct (N.eqb_spec c 34); [lia|].
  destruct (N.eqb_spec c 92); [lia|]. reflexivity.
Qed.

(** Reading back a quoted string body gives the string and the rest. *)
Lemma unquote_quote_body (n : nat) : forall (s r : JsString),
  (List.length s <= n)%nat ->
  unquote_body (quote_body s ++ 34%N :: r) = Some (s, r).
Proof.
  induction n as [|n IH]; intros s r Hlen.
  - destruct s; [reflexivity|simpl in Hlen; lia].
  - destruct s as [|c rest]; [reflexivity|].
    simpl in Hlen. cbn [quote_body].
    destruct (is_leading_surrogate c) eqn:Hlead.
    + destruct rest as [|d rest'].
      * rewrite unquote_escape_unit. reflexivity.
      * destruct (is_trailing_surrogate d) eqn:Htrail.
        -- cbn [app].
           rewrite (unquote_literal_surrogate c) by (now rewrite Hlead).
           rewrite (unquote_literal_surrogate d)
             by (rewrite Htrail; apply orb_true_r).
           rewrite IH by (simpl in Hlen; lia). reflexivity.
        -- rewrite <- app_assoc, unquote_escape_unit.
           rewrite IH by lia. reflexivity.
    + rewrite <- app_assoc, unquote_escape_unit.
      rewrite IH by lia. reflexivity.
Qed.

Lemma QuoteJSONString_prefix_free (s s' x y : JsString) :
  QuoteJSONString s ++ x = QuoteJSONString s' ++ y -> s = s' /\ x = y.
Proof.
  unfold QuoteJSONString. cbn [app]. rewrite <- !app_assoc. cbn [app].
  intros H. injection H as H.
  pose proof (unquote_quote_body (List.length s) s x (le_n _)) as H1.
  pose proof (unquote_quote_body (List.length s') s' y (le_n _)) as H2.
  rewrite H in H1. rewrite H1 in H2. injection H2 as -> ->. auto.
Qed.


Lemma lit_String (a : ascii) (s : string) :
  lit (String a s) = N_of_ascii a :: lit s.
Proof. reflexivity. Qed.

Lemma lit_inj (a b : string) : lit a = lit b -> a = b.
Proof.
  revert b. induction a as [|x a IH]; intros [|y b]; try discriminate.
  - reflexivity.
  - rewrite !lit_String. intros H. injection H as Hx Hr.
    f_equal; [|now apply IH].
    rewrite <- (ascii_N_embedding x), <- (ascii_N_embedding y).
    now rewrite Hx.
Qed.

Lemma string_of_uint_numeric (d : Decimal.uint) :
  Forall (fun c => numeric c = true) (lit (NilEmpty.string_of_uint d)).
Proof.
  induction d; cbn [NilEmpty.string_of_uint]; try rewrite lit_String;
    constructor; try reflexivity; assumption.
Qed.

(** Two safe integers of the same value are the same number. *)
Lemma Int_ext (z z' : Z) p p' : z = z' -> Int z p = Int z' p'.
Proof.
  intros <-. f_equal. apply UIP_dec, Bool.bool_dec.
Qed.

Lemma number_to_string_numeric (z : Z) p :
  Forall (fun c => numeric c = true) (number_to_string (Int z p)).
Proof.
  unfold number_to_string.
  destruct (Z.to_int z) as [d|d]; cbn [NilEmpty.string_of_int].
  - apply string_of_uint_numeric.
  - rewrite lit_String. constructor; [reflexivity|].
    apply string_of_uint_numeric.
Qed.

Lemma number_to_string_head (z : Z) Hs :
  exists c t, number_to_string (Int z Hs) = c :: t /\ numeric c = true.
Proof.
  pose proof (number_to_string_numeric z Hs) as H.
  destruct (number_to_string (Int z Hs)) as [|c t] eqn:E.
  - exfalso. unfold number_to_string in E. clear H Hs.
    destruct z as [|p|p]; cbn [Z.to_int NilEmpty.string_of_int] in E;
      try discriminate.
    pose proof (DecimalPos.Unsigned.to_uint_nonnil p) as Hn.
    destruct (Pos.to_uint p); try discriminate E. now apply Hn.
  - exists c, t. split; [reflexivity|]. now inversion H.
Qed.

Lemma number_to_string_inj (z z' : Z) p p' :
  number_to_string (Int z p) = number_to_string (Int z' p') ->
  Int z p = Int z' p'.
Proof.
  unfold number_to_string. intros H. apply lit_inj in H.
  apply Int_ext. apply DecimalZ.to_int_inj.
  pose proof (NilEmpty.isi (Z.to_int z)) as H1.
  pose proof (NilEmpty.isi (Z.to_int z')) as H2.
  rewrite H in H1. rewrite H1 in H2. now injection H2.
Qed.

Lemma numeral_delimited (a : JsString) : forall (b x y : JsString),
  Forall (fun c => numeric c = true) a ->
  Forall (fun c => numeric c = true) b ->
  delimited x -> delimited y ->
  a ++ x = b ++ y -> a = b /\ x = y.
Proof.
  induction a as [|c a IH]; intros b x y Ha Hb Hx Hy H.
  - destruct b as [|d b]; [auto|].
    simpl in H. subst x. inversion Hb; subst. simpl in Hx. congruence.
  - destruct b as [|d b].
    + simpl in H. subst y. inversion Ha; subst. simpl in Hy. congruence.
    + simpl in H. injection H as -> H.
      inversion Ha; subst. inversion Hb; subst.
      destruct (IH b x y) as [-> ->]; auto.
Qed.


Ltac number_head z p H :=
  let c := fresh "c" in let t := fresh "t" in
  let E := fresh "E" in let Hc := fresh "Hc" in
  destruct (number_to_string_head z p) as [c [t [E Hc]]];
  rewrite E in H; cbn in H; injection H; intros; subst c;
  discriminate Hc.

Lemma serialize_scalar_prefix_free (v w : Scalar) (x y : JsString) :
  finite_scalar v = true -> finite_scalar w = true ->
  delimited x -> delimited y ->
  serialize_scalar v ++ x = serialize_scalar w ++ y -> v = w /\ x = y.
Proof.
  intros Fv Fw Hx Hy H.
  destruct v as [s|[z p| | |]|[|]|]; try discriminate Fv;
    destruct w as [s'|[z' p'| | |]|[|]|]; try discriminate Fw;
    cbn [serialize_scalar] in H;
    try (apply QuoteJSONString_prefix_free in H; destruct H as [-> ->];
         now split);
    try (cbn in H; discriminate H);
    try (number_head z p H); try (number_head z' p' H);
    try (cbn in H; injection H as ->; now split).
  destruct (numeral_delimited _ _ x y (number_to_string_numeric z p)
              (number_to_string_numeric z' p') Hx Hy H) as [E ->].
  apply number_to_string_inj in E. now rewrite E.
Qed.

Lemma serialize_scalar_head (v : Scalar) :
  exists c t, serialize_scalar v = c :: t /\ c <> 93%N /\ c <> 44%N.
Proof.
  destruct v as [s|[z p| | |]|[|]|]; cbn;
    try (eexists; eexists; split; [reflexivity|split; discriminate]).
  destruct (number_to_string_head z p) as [c [t [E Hc]]].
  unfold number_to_string in E. rewrite E.
  exists c, t. split; [reflexivity|].
  split; intros ->; discriminate Hc.
Qed.

(** The text after the opening bracket. *)
Lemma serialize_elements_cons (v : Scalar) (a : list Scalar) :
  serialize_elements (v :: a) ++ [93%N] =
  serialize_scalar v ++
    match a with
    | [] => [93%N]
    | _ :: _ => 44%N :: serialize_elements a ++ [93%N]
    end.
Proof.
  destruct a as [|w a]; [reflexivity|].
  cbn [serialize_elements]. rewrite <- app_assoc. reflexivity.
Qed.

Lemma serialize_elements_inj (a : list Scalar) : forall b,
  finite_key a = true -> finite_key b = true ->
  serialize_elements a ++ [93%N] = serialize_elements b ++ [93%N] ->
  a = b.
Proof.
  induction a as [|v a IH]; intros b Fa Fb H.
  - destruct b as [|w b]; [reflexivity|].
    rewrite serialize_elements_cons in H.
    destruct (serialize_scalar_head w) as [c [t [E [Hc _]]]].
    rewrite E in H. cbn in H. injection H as H _. congruence.
  - destruct b as [|w b].
    + rewrite serialize_elements_cons in H.
      destruct (serialize_scalar_head v) as [c [t [E [Hc _]]]].
      rewrite E in H. cbn in H. injection H as H _. congruence.
    + rewrite !serialize_elements_cons in H.
      cbn [finite_key forallb] in Fa, Fb.
      apply andb_true_iff in Fa. destruct Fa as [Fv Fa].
      apply andb_true_iff in Fb. destruct Fb as [Fw Fb].
      apply serialize_scalar_prefix_free in H; try assumption.
      * destruct H as [-> H]. f_equal.
        destruct a as [|v' a], b as [|w' b]; try discriminate H;
          [reflexivity|].
        injection H as H. apply IH; assumption.
      * destruct a; reflexivity.
      * destruct b; reflexivity.
Qed.

(** Keys without non-finite numbers have different encodings when they
    differ. *)
Lemma keyToString_inj (k1 k2 : QueryKey) :
  finite_key k1 = true -> finite_key k2 = true ->
  keyToString k1 = keyToString k2 -> k1 = k2.
Proof.
  unfold keyToString, JSON_stringify. intros F1 F2 H.
  injection H as H. now apply serialize_elements_inj.
Qed.


Lemma strict_eq_finite (v w : Scalar) :
  finite_scalar v = true -> (strict_eq v w = true <-> v = w).
Proof.
  intros F.
  destruct v as [s|[z p| | |]|b|]; try discriminate F;
    destruct w as [s'|[z' p'| | |]|b'|]; cbn;
    try (split; [discriminate|congruence]); try tauto.
  - rewrite str_eqb_eq. split; congruence.
  - rewrite Z.eqb_eq. split; [intros E; f_equal; now apply Int_ext|].
    intros E. now injection E.
  - rewrite Bool.eqb_true_iff. split; congruence.
Qed.

Lemma key_eqb_finite (k1 : QueryKey) : forall k2,
  finite_key k1 = true -> (key_eqb k1 k2 = true <-> k1 = k2).
Proof.
  induction k1 as [|v k1 IH]; intros [|w k2] F; cbn;
    try (split; [discriminate|congruence]); try tauto.
  cbn in F. apply andb_true_iff in F. destruct F as [Fv F].
  rewrite andb_true_iff, (strict_eq_finite v w Fv), (IH k2 F).
  split; [intros [-> ->]; reflexivity|intros H; injection H; auto].
Qed.



End JsonFacts.

(* ================================================================== *)
(** ** Facts about the rule engine *)
(* ================================================================== *)

Section RuleFacts.
Context {Data RawError AppError : Type}.

Let Cache := QueryCache Data RawError.
Let Entry := CacheEntry Data.
Implicit Types (c : Cache) (k j : QueryKey) (e : Entry) (ts : Z).
Implicit Types (evt : CacheInvalidationEvent)
         (input : InvalidationRuleInput AppError).

Opaque keyToString.


Lemma invalidate_all_app c (l1 l2 : list QueryKey) o ts :
  invalidate_all (invalidate_all c l1 o ts) l2 o ts =
  invalidate_all c (l1 ++ l2) o ts.
Proof. unfold invalidate_all. now rewrite fold_left_app. Qed.

Lemma invalidate_all_map {A} (f : A -> QueryKey) (l : list A) : forall c o ts,
  fold_left (fun c' a => invalidate c' (f a) o ts) l c =
  invalidate_all c (List.map f l) o ts.
Proof.
  induction l as [|a l IH]; intros c o ts; [reflexivity|].
  unfold invalidate_all in *. cbn [fold_left List.map]. apply IH.
Qed.

Lemma invalidateBalances_as_invalidate_all c addrs evt ts :
  invalidateBalances c addrs evt ts =
  invalidate_all c (List.map QueryKeys.balances.account addrs) (Some evt) ts.
Proof. apply invalidate_all_map. Qed.

Lemma invalidateCoinFlip_as_invalidate_all c addrs gid evt ts :
  invalidateCoinFlip c addrs gid evt ts =
  invalidate_all c
    (match gid with
     | Some g => [QueryKeys.games.byId (SString (String_of g))]
     | None => []
     end ++ List.map QueryKeys.games.recentByAddress addrs)
    (Some evt) ts.
Proof.
  unfold invalidateCoinFlip. rewrite invalidate_all_map.
  rewrite <- invalidate_all_app. now destruct gid.
Qed.

Lemma invalidateAchievementBadge_as_invalidate_all c addrs evt ts :
  invalidateAchievementBadge c addrs evt ts =
  invalidate_all c
    (flat_map (fun a => [QueryKeys.rewards.byAddress a;
                         QueryKeys.profile.byAddress a]) addrs)
    (Some evt) ts.
Proof.
  unfold invalidateAchievementBadge, invalidate_all. revert c.
  induction addrs as [|a addrs IH]; intros c; [reflexivity|].
  cbn [fold_left flat_map app]. apply IH.
Qed.

(** [applyRules] is the invalidation of [rule_keys], one by one. *)
Lemma applyRules_as_invalidate_all c input ts :
  applyRules c input ts =
  invalidate_all c (rule_keys c (stamp_event input ts))
                 (Some (stamp_event input ts)) ts.
Proof.
  unfold applyRules, rule_keys. cbv zeta.
  generalize (stamp_event input ts) as evt. intros evt.
  rewrite invalidateBalances_as_invalidate_all.
  rewrite <- !invalidate_all_app.
  set (c1 := invalidate_all c _ (Some evt) ts).
  assert (Hk : List.map key (map_values (entries c1)) =
               List.map key (map_values (entries c)))
    by apply stored_keys_invalidate_all.
  rewrite <- Hk.
  assert (H2 :
    (if contract_is evt (lit "prizePool")
     then invalidatePrefix c1 QueryKeys.balances.root (Some evt) ts
     else c1) =
    invalidate_all c1
      (if contract_is evt (lit "prizePool")
       then filter (fun k => hasPrefix k QueryKeys.balances.root)
                   (List.map key (map_values (entries c1)))
       else []) (Some evt) ts).
  { destruct (contract_is evt (lit "prizePool")); [|reflexivity].
    apply invalidatePrefix_as_invalidate_all. }
  rewrite H2. set (c2 := invalidate_all c1 _ (Some evt) ts).
  assert (H3 :
    (if contract_is evt (lit "coinFlip")
     then invalidateCoinFlip c2 (event_addresses evt) (event_gameId evt) evt ts
     else c2) =
    invalidate_all c2
      (if contract_is evt (lit "coinFlip")
       then match event_gameId evt with
            | Some g => [QueryKeys.games.byId (SString (String_of g))]
            | None => []
            end ++ List.map QueryKeys.games.recentByAddress (event_addresses evt)
       else []) (Some evt) ts).
  { destruct (contract_is evt (lit "coinFlip")); [|reflexivity].
    apply invalidateCoinFlip_as_invalidate_all. }
  rewrite H3. set (c3 := invalidate_all c2 _ (Some evt) ts).
  destruct (contract_is evt (lit "achievementBadge")); [|reflexivity].
  apply invalidateAchievementBadge_as_invalidate_all.
Qed.

Lemma slot_among_app j (l1 l2 : list QueryKey) :
  slot_among j (l1 ++ l2) = slot_among j l1 || slot_among j l2.
Proof. apply existsb_app. Qed.

Lemma slot_among_In j (l : list QueryKey) :
  In j l -> slot_among j l = true.
Proof.
  intros H. apply existsb_exists. exists j. split; [exact H|apply str_eqb_refl].
Qed.

(** What a read sees after [applyRules]. *)
Lemma get_applyRules c input ts j :
  get (applyRules c input ts) j =
  if slot_among j (rule_keys c (stamp_event input ts))
  then option_map (fun e => mark_invalidated e ts) (get c j)
  else get c j.
Proof. rewrite applyRules_as_invalidate_all. apply get_invalidate_all. Qed.

Lemma isStale_after_mark c c' j ts t :
  get c' j = option_map (fun e => mark_invalidated e ts) (get c j) ->
  isStale c' j t = true.
Proof.
  intros H. unfold isStale. rewrite H. now destruct (get c j).
Qed.

Lemma stamp_event_contract input ts tx n :
  contractTx (event input) = Some tx ->
  contract_is (stamp_event input ts) n = str_eqb (contract tx) n.
Proof. intros H. unfold contract_is, stamp_event. cbn. now rewrite H. Qed.

(** Stamping the event keeps the affected addresses. *)
Lemma stamp_event_addresses input ts :
  event_addresses (stamp_event input ts) = event_addresses (event input).
Proof.
  unfold event_addresses, stamp_event. cbn.
  now destruct (contractTx (event input)).
Qed.

Lemma stamp_event_gameId input ts tx :
  contractTx (event input) = Some tx ->
  event_gameId (stamp_event input ts) = gameId tx.
Proof. intros H. unfold event_gameId, stamp_event. cbn. now rewrite H. Qed.

(** C6: after [applyRules] on a successful coin-flip transaction with
    game id [g] and affected addresses [A] (those of the transaction,
    else of the mutation), the entries of [games.byId(String(g))]
    and, for every [a] in [A], of [games.recentByAddress(a)] and
    [balances.account(a)] are the old ones marked invalidated (none if
    there was none), and the three keys read as stale. *)
Theorem applyRules_coinFlip_invalidates c input ts tx h g A :
  outcome input = OutcomeOk h ->
  contractTx (event input) = Some tx ->
  contract tx = lit "coinFlip" ->
  gameId tx = Some g ->
  event_addresses (event input) = A ->
  let c' := applyRules c input ts in
  let invalidated j :=
    get c' j = option_map (fun e => mark_invalidated e ts) (get c j) /\
    forall t, isStale c' j t = true in
  invalidated (QueryKeys.games.byId (SString (String_of g))) /\
  forall a, In a A ->
    invalidated (QueryKeys.games.recentByAddress a) /\
    invalidated (QueryKeys.balances.account a).
Proof.
  intros _ Htx Hc Hg HA c' invalidated.
  assert (Hkeys : forall j,
    In j (List.map QueryKeys.balances.account A
          ++ QueryKeys.games.byId (SString (String_of g))
             :: List.map QueryKeys.games.recentByAddress A) ->
    invalidated j).
  { intros j Hj.
    assert (G : get c' j = option_map (fun e => mark_invalidated e ts) (get c j)).
    { subst c'. rewrite get_applyRules.
      replace (slot_among j (rule_keys c (stamp_event input ts))) with true;
        [reflexivity|].
      symmetry. unfold rule_keys. cbv zeta.
      rewrite !(stamp_event_contract input ts tx) by assumption.
      rewrite stamp_event_addresses, HA.
      rewrite (stamp_event_gameId input ts tx) by assumption.
      rewrite Hc, Hg.
      replace (str_eqb (lit "coinFlip") (lit "prizePool")) with false
        by reflexivity.
      replace (str_eqb (lit "coinFlip") (lit "coinFlip")) with true
        by reflexivity.
      replace (str_eqb (lit "coinFlip") (lit "achievementBadge")) with false
        by reflexivity.
      apply slot_among_In. rewrite !in_app_iff. cbn [In].
      apply in_app_or in Hj. cbn [In] in Hj. tauto. }
    split; [exact G|]. intros t. eapply isStale_after_mark. exact G. }
  split.
  - apply Hkeys. apply in_or_app. right. now left.
  - intros a Ha. split; apply Hkeys; apply in_or_app.
    + right. right. now apply in_map.
    + left. now apply in_map.
Qed.

Lemma account_slot_inj (a b : JsString) :
  keyToString (QueryKeys.balances.account a) =
  keyToString (QueryKeys.balances.account b) -> a = b.
Proof.
  intros H. apply keyToString_inj in H; [|reflexivity|reflexivity].
  now injection H.
Qed.

(** C2, what the code does instead: the pooled-funds rule calls
    [invalidatePrefix] with [QueryKeys.balances.root()], which is
    [["balances", "root"]], so a stored [balances.account(addr)] whose
    address is not among the affected ones is left exactly as it was. *)
Theorem applyRules_prizePool_misses_accounts c input ts tx A s e addr :
  well_formed c ->
  contractTx (event input) = Some tx ->
  contract tx = lit "prizePool" ->
  event_addresses (event input) = A ->
  In (s, e) (entries c) ->
  key e = QueryKeys.balances.account addr ->
  ~ In addr A ->
  get (applyRules c input ts) (key e) = Some e /\
  (invalidatedAt (meta e) = None ->
   forall t, Number_ge (Finite t) (staleAt (meta e)) = false ->
             isStale (applyRules c input ts) (key e) t = false).
Proof.
  intros Hwf Htx Hc HA Hin Hk Hni.
  assert (G : get (applyRules c input ts) (key e) = Some e).
  { rewrite get_applyRules.
    replace (slot_among (key e) (rule_keys c (stamp_event input ts)))
      with false.
    - apply (well_formed_get c s e Hwf Hin).
    - symmetry. unfold rule_keys. cbv zeta.
      rewrite !(stamp_event_contract input ts tx) by assumption.
      rewrite stamp_event_addresses, HA.
      rewrite Hc.
      replace (str_eqb (lit "prizePool") (lit "prizePool")) with true
        by reflexivity.
      replace (str_eqb (lit "prizePool") (lit "coinFlip")) with false
        by reflexivity.
      replace (str_eqb (lit "prizePool") (lit "achievementBadge")) with false
        by reflexivity.
      rewrite !slot_among_app.
      rewrite (slot_among_stored c s e
                 (fun k => hasPrefix k QueryKeys.balances.root) Hwf Hin).
      rewrite Hk.
      replace (hasPrefix (QueryKeys.balances.account addr)
                         QueryKeys.balances.root) with false by reflexivity.
      cbn [slot_among existsb orb]. rewrite !orb_false_r.
      destruct (slot_among _ _) eqn:Hs; [|reflexivity].
      apply existsb_exists in Hs. destruct Hs as [k' [Hk' Heq]].
      apply in_map_iff in Hk'. destruct Hk' as [a [<- Ha]].
      apply str_eqb_eq, account_slot_inj in Heq. congruence. }
  split; [exact G|].
  intros Hinv t Ht. unfold isStale. rewrite G, Hinv. exact Ht.
Qed.

End RuleFacts.

Transparent keyToString.

(* ================================================================== *)
(** ** The invalidate / refetch cycle *)
(* ================================================================== *)

Section CycleFacts.
Context {Data RawError AppError : Type}.
Variable toAppError :
  RawError -> option JsString -> list (JsString * QueryKey) -> AppError.

Let Cache := QueryCache Data RawError.
Let Entry := CacheEntry Data.
Implicit Types (c : Cache) (k j : QueryKey) (e : Entry) (ts : Z).

Opaque keyToString.


Lemma invalidate_starts_cycle c k e f evt ts :
  get c k = Some e ->
  refetches (policy e) = true ->
  map_get (keyToString k) (fetchers c) = Some f ->
  (forall t, exists err, f t = Rejected err) ->
  suspended c = [] ->
  cycling (invalidate c k evt ts) k (data e) f (S (List.length (notified c))).
Proof.
  intros G Hp Hf Hfail Hs.
  assert (G' : get (invalidate c k evt ts) k = Some (mark_invalidated e ts)).
  { rewrite get_invalidate, str_eqb_refl, G. reflexivity. }
  split; [|split; [|split]].
  - exists (mark_invalidated e ts). repeat split; try assumption. discriminate.
  - rewrite fetchers_invalidate. exact Hf.
  - destruct (Hfail ts) as [err Herr]. exists err.
    unfold invalidate. unfold get in G. rewrite G. cbn [policy mark_invalidated].
    rewrite Hp. unfold start_refetch. cbn [fetchers notify with_entries].
    rewrite Hf. unfold suspend. cbn [suspended notify with_entries].
    rewrite Hs, Herr. reflexivity.
  - unfold invalidate. unfold get in G. rewrite G. cbn [policy mark_invalidated].
    rewrite Hp. unfold start_refetch. cbn [fetchers notify with_entries].
    rewrite Hf. unfold suspend. cbn [notified notify with_entries].
    rewrite length_app. cbn. lia.
Qed.

Lemma cycle_turn c k d f n ts :
  (forall t, exists err, f t = Rejected err) ->
  cycling c k d f n ->
  exists c', run_job toAppError c ts = Some c' /\ cycling c' k d f (S n).
Proof.
  intros Hfail [[e [G [Hd [Hp Hi]]]] [Hf [[err Hs] Hn]]].
  unfold run_job. rewrite Hs. eexists. split; [reflexivity|].
  unfold resume_refetch. cbn [suspended_key suspended_promise snd].
  rewrite <- Hd, <- Hn.
  apply (invalidate_starts_cycle
           {| entries := entries c; fetchers := fetchers c;
              maxEntries := maxEntries c; notified := notified c;
              suspended := [] |} k e f); auto.
Qed.

Lemma cycle_runs n : forall clock c k d f m,
  (forall t, exists err, f t = Rejected err) ->
  cycling c k d f m ->
  snd (run_jobs toAppError n clock c) = n /\
  cycling (fst (run_jobs toAppError n clock c)) k d f (m + n).
Proof.
  induction n as [|n IH]; intros clock c k d f m Hfail Hc.
  - cbn. rewrite Nat.add_0_r. auto.
  - cbn [run_jobs].
    destruct (cycle_turn c k d f m (clock O) Hfail Hc) as [c' [Hr Hc']].
    rewrite Hr.
    destruct (IH (fun i => clock (S i)) c' k d f (S m) Hfail Hc') as [H1 H2].
    destruct (run_jobs toAppError n (fun i => clock (S i)) c') as [c'' done].
    cbn [fst snd] in *. split; [now rewrite H1|].
    replace (m + S n)%nat with (S m + n)%nat by lia. exact H2.
Qed.

(** C10: with an entry that refetches on invalidation and a fetcher
    that always fails, one [invalidate] starts a cycle that no number
    of turns of the job queue ends: each of the first [n] turns resumes
    a refetch of the key, which fails and invalidates it again, and
    after them another refetch of the key is waiting. *)
Theorem failing_refetch_cycle_never_ends c k e f evt ts :
  get c k = Some e ->
  refetches (policy e) = true ->
  map_get (keyToString k) (fetchers c) = Some f ->
  (forall t, exists err, f t = Rejected err) ->
  suspended c = [] ->
  forall (n : nat) (clock : nat -> Z),
    let r := run_jobs toAppError n clock (invalidate c k evt ts) in
    snd r = n /\
    (exists err, suspended (fst r) =
                 [{| suspended_key := k; suspended_promise := Rejected err |}]) /\
    List.length (notified (fst r)) = (List.length (notified c) + 1 + n)%nat /\
    (exists e', get (fst r) k = Some e' /\ data e' = data e) /\
    forall t, isStale (fst r) k t = true.
Proof.
  intros G Hp Hf Hfail Hs n clock r.
  pose proof (invalidate_starts_cycle c k e f evt ts G Hp Hf Hfail Hs) as H0.
  destruct (cycle_runs n clock _ k (data e) f _ Hfail H0) as [H1 H2].
  fold r in H1, H2.
  destruct H2 as [[e' [G' [Hd [Hp' Hi]]]] [Hf' [Hsusp Hn]]].
  split; [exact H1|]. split; [exact Hsusp|]. split; [lia|].
  split; [exists e'; auto|].
  intros t. eapply isStale_invalidated; eassumption.
Qed.

End CycleFacts.

Transparent keyToString.

(* ================================================================== *)
(** ** Writing and evicting *)
(* ================================================================== *)

Section SetFacts.
Context {Data RawError : Type}.

Let Cache := QueryCache Data RawError.
Let Entry := CacheEntry Data.
Implicit Types (c : Cache) (k j : QueryKey) (e : Entry) (ts : Z).
Implicit Types (l : list Entry) (es : list (JsString * Entry)).
Implicit Types (op : SetCall Data) (calls hist : list (SetCall Data)).

Opaque keyToString.

Lemma sort_by_updatedAt_nil l : sort_by_updatedAt Data l = [] -> l = [].
Proof.
  destruct l as [|a l]; [reflexivity|]. cbn [sort_by_updatedAt fold_right].
  destruct (fold_right _ _ l) as [|h t]; cbn; [discriminate|].
  destruct (_ <=? _); discriminate.
Qed.

(** The first entry of the sorted array is a least-recently-updated
    one. *)
Lemma sort_by_updatedAt_head l : forall h t,
  sort_by_updatedAt Data l = h :: t ->
  In h l /\ forall y, In y l -> stamp h <= stamp y.
Proof.
  induction l as [|a l IH]; intros h t; [discriminate|].
  cbn [sort_by_updatedAt fold_right].
  fold (sort_by_updatedAt Data l).
  destruct (sort_by_updatedAt Data l) as [|h' t'] eqn:E.
  - apply sort_by_updatedAt_nil in E. subst l. cbn.
    intros H. injection H as <- <-. split; [now left|].
    intros y [<-|[]]. lia.
  - destruct (IH h' t' eq_refl) as [Hin Hmin]. cbn [insert_by_updatedAt].
    destruct (Z.leb_spec (updatedAt (meta a)) (updatedAt (meta h'))) as [Hle|Hgt];
      intros H; injection H as <- <-.
    + split; [now left|]. intros y [<-|Hy]; [unfold stamp; lia|].
      specialize (Hmin y Hy). unfold stamp in *. lia.
    + split; [now right|]. intros y [<-|Hy]; [unfold stamp; lia|].
      apply Hmin, Hy.
Qed.

(** Stability at work: an entry appended last, and not older than the
    others, is not the first of the sorted array. *)
Lemma sort_by_updatedAt_head_old l x : forall h t,
  l <> [] -> (forall y, In y l -> stamp y <= stamp x) ->
  sort_by_updatedAt Data (l ++ [x]) = h :: t -> In h l.
Proof.
  induction l as [|a l IH]; intros h t Hne Hle; [contradiction|].
  cbn [app sort_by_updatedAt fold_right].
  fold (sort_by_updatedAt Data (l ++ [x])).
  destruct l as [|b l].
  - cbn. specialize (Hle a (or_introl eq_refl)). unfold stamp in Hle.
    destruct (Z.leb_spec (updatedAt (meta a)) (updatedAt (meta x)));
      [|lia].
    intros Hs. injection Hs as <- _. now left.
  - destruct (sort_by_updatedAt Data ((b :: l) ++ [x])) as [|h' t'] eqn:E.
    + apply sort_by_updatedAt_nil in E. discriminate.
    + assert (Hin : In h' (b :: l)).
      { apply (IH h' t'); [discriminate| |reflexivity].
        intros y Hy. apply Hle. now right. }
      cbn [insert_by_updatedAt].
      destruct (_ <=? _); intros H; injection H as <- _;
        [now left|now right].
Qed.

Lemma enforceMaxEntries_within c :
  match maxEntries c with
  | None => True
  | Some m => m = 0 \/ Z.of_nat (List.length (entries c)) <= m
  end ->
  enforceMaxEntries c = c.
Proof.
  unfold enforceMaxEntries. destruct (maxEntries c) as [m|]; [|reflexivity].
  intros [->|H]; [reflexivity|].
  destruct (m =? 0); [reflexivity|].
  destruct (Z.leb_spec (Z.of_nat (List.length (entries c))) m); [reflexivity|lia].
Qed.

Lemma enforceMaxEntries_one_over c m victim rest :
  maxEntries c = Some m -> 1 <= m ->
  Z.of_nat (List.length (entries c)) = m + 1 ->
  sort_by_updatedAt Data (map_values (entries c)) = victim :: rest ->
  enforceMaxEntries c =
  with_entries Data RawError c
    (map_delete (keyToString (key victim)) (entries c)).
Proof.
  intros Hm H1 Hlen Hsort. unfold enforceMaxEntries. rewrite Hm.
  destruct (Z.eqb_spec m 0); [lia|].
  destruct (Z.leb_spec (Z.of_nat (List.length (entries c))) m); [lia|].
  cbv zeta. rewrite Hsort.
  replace (Z.of_nat (List.length (entries c)) - m) with 1 by lia.
  reflexivity.
Qed.

Lemma map_get_app_new (s k : JsString) (v : Entry) es :
  map_get k es = None ->
  map_get s (es ++ [(k, v)]) = if str_eqb s k then Some v else map_get s es.
Proof.
  intros Hk. induction es as [|[k' v'] es IH]; cbn [app map_get].
  - reflexivity.
  - cbn [map_get] in Hk. str_cases k k'; [discriminate|].
    str_cases s k'.
    + subst k'. str_cases s k; [congruence|reflexivity].
    + apply IH, Hk.
Qed.

Lemma map_get_In_iff es (s : JsString) (e : Entry) :
  NoDup (map_keys es) -> (map_get s es = Some e <-> In (s, e) es).
Proof.
  intros Hnd. split; [apply map_get_In|now apply In_map_get].
Qed.

Lemma In_values_slot es (e : Entry) :
  In e (map_values es) -> exists s, In (s, e) es.
Proof.
  unfold map_values. rewrite in_map_iff.
  intros [[s e'] [He Hin]]. cbn in He. subst e'. eauto.
Qed.

Lemma map_keys_app es es' :
  map_keys (es ++ es') = map_keys es ++ map_keys es'.
Proof. apply map_app. Qed.

Lemma map_values_app es es' :
  map_values (es ++ es') = map_values es ++ map_values es'.
Proof. apply map_app. Qed.


Lemma consistent_new (m : option Z) (T : Z) :
  match m with Some n => 0 <= n | None => True end ->
  consistent (new_QueryCache Data RawError m) T.
Proof.
  intros Hm. split; [|split].
  - split; [constructor|intros s e []].
  - intros s e [].
  - cbn. destruct m as [n|]; [|exact I]. cbn. lia.
Qed.

Lemma map_set_length_present (s : JsString) (v : Entry) es :
  In s (map_keys es) -> List.length (map_set s v es) = List.length es.
Proof.
  intros H. rewrite <- (length_map fst (map_set s v es)).
  change (List.map fst (map_set s v es)) with (map_keys (map_set s v es)).
  rewrite map_keys_set_present by assumption. apply length_map.
Qed.

Lemma map_get_Some_key es (s : JsString) (e : Entry) :
  map_get s es = Some e -> In s (map_keys es).
Proof.
  intros H. apply map_get_In in H. change s with (fst (s, e)).
  now apply in_map.
Qed.

(** What one [set] does to the [Map]: the written entry lands in the
    slot of its key; at most one other slot is emptied, and then it
    held a least-recently-updated entry. *)
Lemma set_effect c k (d : Data) p T ts :
  consistent c T -> T <= ts ->
  exists evicted,
    set_outcome c (snd (set c k d p ts)) k (fst (set c k d p ts)) evicted.
Proof.
  intros [[Hnd Hslot] [Hold Hbound]] HT.
  set (entry := fst (set c k d p ts)). set (c' := snd (set c k d p ts)).
  set (slot := keyToString k).
  set (c1 := with_entries Data RawError c (map_set slot entry (entries c))).
  assert (Hc' : c' = notify Data RawError (enforceMaxEntries c1) k (Some entry))
    by reflexivity.
  assert (Hstamp : stamp entry = ts) by reflexivity.
  destruct (get c k) as [e0|] eqn:G.
  - (* the key is present: same slots, nothing to evict *)
    assert (Hin : In slot (map_keys (entries c)))
      by (eapply map_get_Some_key; exact G).
    assert (Hlen : List.length (entries c1) = List.length (entries c))
      by (apply map_set_length_present; exact Hin).
    assert (Hsame : enforceMaxEntries c1 = c1).
    { apply enforceMaxEntries_within. cbn [maxEntries c1 with_entries].
      destruct (maxEntries c) as [m|]; [|exact I].
      rewrite Hlen. tauto. }
    exists None. unfold set_outcome. fold slot. rewrite G, Hc', Hsame.
    cbn [entries notify c1 with_entries].
    split; [now rewrite map_keys_set_present|].
    split; [intros s; apply map_get_set|].
    split; [|split; reflexivity].
    split; [change (map_set slot entry (entries c)) with (entries c1); lia|].
    destruct (maxEntries c) as [m|]; [|exact I].
    change (map_set slot entry (entries c)) with (entries c1).
    rewrite Hlen. exact Hbound.
  - (* a new key is appended *)
    assert (Hni : ~ In slot (map_keys (entries c)))
      by (apply map_get_None; exact G).
    assert (Happ : entries c1 = entries c ++ [(slot, entry)])
      by (apply map_set_absent; exact Hni).
    assert (Hlen : List.length (entries c1) = S (List.length (entries c)))
      by (rewrite Happ, length_app; cbn; lia).
    assert (Hnd1 : NoDup (map_keys (entries c1))).
    { rewrite Happ, map_keys_app. cbn.
      apply NoDup_app; [exact Hnd|repeat constructor; intros []|].
      intros a Ha [<-|[]]. contradiction. }
    assert (Hget1 : forall s, map_get s (entries c1) =
               if str_eqb s slot then Some entry else map_get s (entries c)).
    { intros s. rewrite Happ. apply map_get_app_new. exact G. }
    assert (Hfits :
      match maxEntries c with
      | None => True
      | Some m => m = 0 \/ Z.of_nat (List.length (entries c1)) <= m
      end ->
      exists evicted, set_outcome c c' k entry evicted).
    { intros Hok.
      assert (Hsame : enforceMaxEntries c1 = c1)
        by (apply enforceMaxEntries_within; exact Hok).
      exists None. unfold set_outcome. fold slot. rewrite G, Hc', Hsame.
      cbn [entries notify].
      split; [exact Hnd1|]. split; [exact Hget1|].
      split; [|split; reflexivity].
      split; [lia|].
      destruct (maxEntries c) as [m|]; [|exact I].
      destruct Hok as [->|Hok]; [now left|].
      destruct Hbound as [->|[H1 _]]; [now left|]. right. split; assumption. }
    destruct (maxEntries c) as [m|] eqn:Hm; [|apply Hfits; exact I].
    destruct Hbound as [->|[H1 Hsz]]; [apply Hfits; now left|].
    destruct (Z.le_gt_cases (Z.of_nat (List.length (entries c1))) m)
      as [Hle|Hgt]; [apply Hfits; now right|].
    clear Hfits.
    (* the store was full: the oldest entry goes *)
    assert (Hfull : Z.of_nat (List.length (entries c)) = m) by lia.
    destruct (sort_by_updatedAt Data (map_values (entries c1)))
      as [|victim rest] eqn:Hsort.
    { apply sort_by_updatedAt_nil in Hsort. rewrite Happ in Hsort.
      rewrite map_values_app in Hsort. apply app_eq_nil in Hsort.
      destruct Hsort as [_ Hs]. discriminate Hs. }
    assert (Hvin : In victim (map_values (entries c))).
    { rewrite Happ, map_values_app in Hsort.
      apply (sort_by_updatedAt_head_old _ entry victim rest);
        [| |exact Hsort].
      - destruct (entries c); [cbn in Hfull; lia|discriminate].
      - intros y Hy. apply In_values_slot in Hy. destruct Hy as [s Hy].
        specialize (Hold _ _ Hy). rewrite Hstamp. lia. }
    assert (Hvmin : forall s e, map_get s (entries c) = Some e ->
                                stamp victim <= stamp e).
    { intros s e He.
      apply (proj2 (sort_by_updatedAt_head _ _ _ Hsort)).
      rewrite Happ, map_values_app. apply in_or_app. left.
      apply map_get_In in He. unfold map_values.
      change e with (snd (s, e)). now apply in_map. }
    apply In_values_slot in Hvin. destruct Hvin as [sv Hvin].
    pose proof (Hslot _ _ Hvin) as Hsv.
    assert (Hsvk : In sv (map_keys (entries c))).
    { change sv with (fst (sv, victim)). now apply in_map. }
    assert (Hne : sv <> slot) by (intros ->; contradiction).
    assert (Hevict : enforceMaxEntries c1 =
              with_entries Data RawError c1
                (map_delete sv (entries c) ++ [(slot, entry)])).
    { rewrite (enforceMaxEntries_one_over c1 m victim rest);
        [|exact Hm|exact H1|lia|exact Hsort].
      f_equal. rewrite <- Hsv, Happ, map_delete_app. f_equal.
      cbn [map_delete]. str_cases sv slot; [contradiction|reflexivity]. }
    exists (Some (sv, victim)). unfold set_outcome. fold slot.
    rewrite Hc', Hevict. cbn [entries notify with_entries].
    assert (Hgd : map_get slot (map_delete sv (entries c)) = None).
    { rewrite map_get_delete. str_cases slot sv; [reflexivity|exact G]. }
    split.
    { rewrite map_keys_app. cbn.
      apply NoDup_app; [now apply map_keys_delete_NoDup
                       |repeat constructor; intros []|].
      intros a Ha [<-|[]]. apply map_keys_delete_incl in Ha. tauto. }
    split.
    { intros s. rewrite map_get_app_new by exact Hgd.
      str_cases s slot; [reflexivity|]. apply map_get_delete. }
    split; [|split; reflexivity].
    split; [exact G|]. split; [exact Hne|].
    split; [now apply In_map_get|]. split; [exact Hvmin|].
    split.
    { rewrite length_app. cbn.
      pose proof (map_delete_length_present sv (entries c) Hnd Hsvk). lia. }
    split; [now rewrite Hm, Hfull|lia].
Qed.

Lemma set_effect_old c k (d : Data) p T ts s e :
  consistent c T -> T <= ts ->
  map_get s (entries (snd (set c k d p ts))) = Some e ->
  (s = keyToString k /\ e = fst (set c k d p ts)) \/
  (s <> keyToString k /\ map_get s (entries c) = Some e).
Proof.
  intros Hc HT H.
  destruct (set_effect c k d p T ts Hc HT) as [ev [_ [Hget _]]].
  rewrite Hget in H. str_cases s (keyToString k).
  - left. split; [assumption|congruence].
  - right. split; [assumption|].
    destruct ev as [[sv victim]|]; [|exact H].
    destruct (str_eqb s sv); [discriminate|exact H].
Qed.

Lemma get_set_same c k (d : Data) p T ts :
  consistent c T -> T <= ts ->
  get (snd (set c k d p ts)) k = Some (fst (set c k d p ts)).
Proof.
  intros Hc HT.
  destruct (set_effect c k d p T ts Hc HT) as [ev [_ [Hget _]]].
  unfold get. rewrite Hget, str_eqb_refl. reflexivity.
Qed.

(** [set] keeps the cache consistent when the clock does not run
    backwards. *)
Lemma set_consistent c k (d : Data) p T ts :
  consistent c T -> T <= ts -> consistent (snd (set c k d p ts)) ts.
Proof.
  intros Hc HT.
  destruct (set_effect c k d p T ts Hc HT)
    as [ev [Hnd [Hget [Hev [Hf Hm]]]]].
  assert (Hold : forall s e,
    In (s, e) (entries (snd (set c k d p ts))) ->
    (s = keyToString k /\ e = fst (set c k d p ts)) \/
    (s <> keyToString k /\ In (s, e) (entries c))).
  { intros s e Hin. apply (In_map_get _ _ _ Hnd) in Hin.
    destruct (set_effect_old c k d p T ts s e Hc HT Hin) as [H|[H1 H2]];
      [now left|right]. split; [assumption|now apply map_get_In]. }
  destruct Hc as [[Hnd0 Hslot] [Hstamps Hbound]].
  split; [split; [exact Hnd|]|split].
  - intros s e Hin. destruct (Hold s e Hin) as [[-> ->]|[_ H]];
      [reflexivity|now apply Hslot].
  - intros s e Hin. destruct (Hold s e Hin) as [[-> ->]|[_ H]].
    + unfold stamp. cbn. lia.
    + specialize (Hstamps s e H). lia.
  - rewrite Hm. destruct ev as [[sv victim]|].
    + destruct Hev as [_ [_ [_ [_ [Hlen [Hmax H1]]]]]].
      rewrite Hmax, Hlen. right. lia.
    + apply Hev.
Qed.

Lemma invalidate_consistent c k evt T ts :
  consistent c T -> consistent (invalidate c k evt ts) T.
Proof.
  intros [[Hnd Hslot] [Hstamps Hbound]].
  assert (Hin : forall s e, In (s, e) (entries (invalidate c k evt ts)) ->
            exists e0, In (s, e0) (entries c) /\
                       (e = e0 \/ e = mark_invalidated e0 ts)).
  { intros s e H. rewrite entries_invalidate in H.
    destruct (get c k) as [e0|] eqn:G; [|eauto].
    assert (Hnd' : NoDup (map_keys (map_set (keyToString k)
                                     (mark_invalidated e0 ts) (entries c)))).
    { rewrite map_keys_set_present; [exact Hnd|].
      eapply map_get_Some_key. exact G. }
    apply (In_map_get _ _ _ Hnd') in H. rewrite map_get_set in H.
    str_cases s (keyToString k).
    - injection H as <-. exists e0. split; [|now right].
      subst s. now apply map_get_In.
    - exists e. split; [now apply map_get_In|now left]. }
  split; [split|split].
  - now rewrite map_keys_invalidate.
  - intros s e H. destruct (Hin s e H) as [e0 [H0 [->| ->]]];
      exact (Hslot s e0 H0).
  - intros s e H. destruct (Hin s e H) as [e0 [H0 [->| ->]]];
      exact (Hstamps s e0 H0).
  - rewrite maxEntries_invalidate.
    destruct (maxEntries c) as [m|]; [|exact I].
    replace (List.length (entries (invalidate c k evt ts)))
      with (List.length (entries c)); [exact Hbound|].
    rewrite <- (length_map fst (entries c)),
            <- (length_map fst (entries (invalidate c k evt ts))).
    f_equal. symmetry. apply map_keys_invalidate.
Qed.

(** C1, as the code has it.  On a consistent cache [set] writes an
    entry with [updatedAt = now] under the policy given, else what
    [QueryPolicies] holds at the namespace, else 30 s with refetch, and
    [get] returns it with the data written.  [staleAt] is the double sum
    of [now] and the stale time: the integer sum up to [2^53], and [NaN]
    when the namespace names a member of [Object.prototype], which then
    stands where the policy should.  For a key of the declared type the
    policy is the one registered for its namespace.  When the key had no
    entry, or one that was not invalidated, the entry written has no
    [invalidatedAt] and [isStale] at a clock value [t] is the test
    [t >= staleAt]. *)
Theorem set_writes_fresh_entry c k (d : Data) p T ts :
  consistent c T -> T <= ts ->
  let entry := fst (set c k d p ts) in
  let c' := snd (set c k d p ts) in
  updatedAt (meta entry) = ts /\
  policy entry =
    match p with
    | Some q => Declared q
    | None =>
        match QueryPolicies (namespace_of k) with
        | Some o => o
        | None =>
            Declared {| staleTimeMs := 30000; refetchOnInvalidate := true |}
        end
    end /\
  (declared_key k = true -> p = None ->
   exists q, QueryPolicies (namespace_of k) = Some (Declared q) /\
             policy entry = Declared q) /\
  staleAt (meta entry) = Number_add (Finite ts) (staleTime (policy entry)) /\
  (forall q, policy entry = Declared q ->
     Z.abs (ts + staleTimeMs q) <= 2 ^ 53 ->
     staleAt (meta entry) = Finite (ts + staleTimeMs q)) /\
  (forall name, policy entry = PrototypeMember name ->
     staleAt (meta entry) = NotANumber) /\
  get c' k = Some entry /\
  data entry = d /\
  ((forall e, get c k = Some e -> invalidatedAt (meta e) = None) ->
   invalidatedAt (meta entry) = None /\
   forall t, isStale c' k t = Number_ge (Finite t) (staleAt (meta entry))).
Proof.
  intros Hc HT entry c'.
  assert (G' : get c' k = Some entry) by (now apply (get_set_same c k d p T ts)).
  assert (Hst : staleAt (meta entry)
                = Number_add (Finite ts) (staleTime (policy entry)))
    by reflexivity.
  split; [reflexivity|]. split; [reflexivity|].
  split.
  { intros Hk ->. destruct (declared_key_policy k Hk) as [q Hq].
    exists q. split; [exact Hq|].
    subst entry. unfold set. cbn [fst policy]. unfold effectivePolicy.
    now rewrite Hq. }
  split; [exact Hst|].
  split.
  { intros q Hq Hsum. rewrite Hst, Hq. cbn [staleTime].
    now apply Number_add_exact. }
  split; [intros name Hn; rewrite Hst, Hn; reflexivity|].
  split; [exact G'|]. split; [reflexivity|].
  intros Hfresh.
  assert (Hi : invalidatedAt (meta entry) = None).
  { subst entry. cbn. destruct (get c k) as [e|] eqn:G; [|reflexivity].
    now apply Hfresh. }
  split; [exact Hi|].
  intros t. unfold isStale. now rewrite G', Hi.
Qed.


Lemma lru_invariant_step N c hist T op :
  1 <= N -> lru_invariant N c hist T -> T <= call_ts op ->
  lru_invariant N
    (snd (set c (call_key op) (call_data op) (call_policy op) (call_ts op)))
    (hist ++ [op]) (call_ts op).
Proof.
  intros HN [Hc [Hmax [Htimes [Hfrom [Hlast Hfull]]]]] HT.
  set (k := call_key op). set (d := call_data op).
  set (p := call_policy op). set (ts := call_ts op).
  fold ts in HT.
  destruct (set_effect c k d p T ts Hc HT)
    as [ev [Hnd [Hget [Hev [Hf Hm]]]]].
  pose proof (set_effect_old c k d p T ts) as Hold.
  set (entry := fst (set c k d p ts)) in *.
  set (c' := snd (set c k d p ts)) in *.
  assert (Htimes' : forall op', In op' (hist ++ [op]) -> call_ts op' <= ts).
  { intros op' H. apply in_app_or in H. destruct H as [H|[<-|[]]].
    - specialize (Htimes op' H). lia.
    - unfold ts. lia. }
  split; [now apply (set_consistent c k d p T ts)|].
  split; [now rewrite Hm|].
  split; [exact Htimes'|].
  split; [|split].
  - intros s e He. destruct (Hold s e Hc HT He) as [[-> ->]|[Hs He0]].
    + exists op. split; [apply in_or_app; right; now left|].
      repeat split; reflexivity.
    + destruct (Hfrom s e He0) as [op' [Hin H]].
      exists op'. split; [apply in_or_app; now left|exact H].
  - intros op' s e Hin He Hcond.
    destruct (Hold s e Hc HT He) as [[-> ->]|[Hs He0]].
    + unfold stamp. cbn. now apply Htimes'.
    + apply in_app_or in Hin. destruct Hin as [Hin|[<-|[]]].
      * destruct Hcond as [->|Hnone]; [now apply (Hlast op' _ e Hin He0); left|].
        rewrite Hget in Hnone. fold k in Hnone.
        destruct (str_eqb (call_slot op') (keyToString k)); [discriminate|].
        destruct ev as [[sv victim]|].
        -- destruct Hev as [_ [_ [Hv [Hmin _]]]].
           str_cases (call_slot op') sv.
           ++ transitivity (stamp victim); [|now apply (Hmin s)].
              apply (Hlast op' sv victim Hin Hv). left. congruence.
           ++ apply (Hlast op' s e Hin He0). now right.
        -- apply (Hlast op' s e Hin He0). now right.
      * exfalso. destruct Hcond as [->|Hnone]; [now apply Hs|].
        rewrite Hget in Hnone. unfold call_slot in Hnone. fold k in Hnone.
        rewrite str_eqb_refl in Hnone. discriminate.
  - destruct ev as [[sv victim]|].
    + left. destruct Hev as [_ [_ [_ [_ [Hlen [Hmx _]]]]]].
      rewrite Hlen. congruence.
    + destruct Hev as [Hlen Hb]. rewrite Hmax in Hb.
      destruct Hb as [->|[_ Hb]]; [lia|].
      destruct Hfull as [Hfull|Hall].
      * left. destruct (get c k); lia.
      * right. intros op' Hin. rewrite Hget. fold k.
        str_cases (call_slot op') (keyToString k);
          [intros HH; discriminate HH|].
        apply in_app_or in Hin. destruct Hin as [Hin|[<-|[]]].
        -- now apply Hall.
        -- exfalso. apply E. reflexivity.
Qed.

Lemma lru_invariant_run N calls : forall c hist T,
  1 <= N -> lru_invariant N c hist T -> clock_monotone T calls ->
  exists T', lru_invariant N (run_sets c calls) (hist ++ calls) T'.
Proof.
  induction calls as [|op calls IH]; intros c hist T HN Hinv Hmono.
  - exists T. now rewrite app_nil_r.
  - destruct Hmono as [HT Hmono]. cbn [run_sets fold_left].
    pose proof (lru_invariant_step N c hist T op HN Hinv HT) as Hstep.
    destruct (IH _ _ _ HN Hstep Hmono) as [T' H]. exists T'.
    rewrite <- app_assoc in H. exact H.
Qed.

Lemma lru_invariant_new N T :
  1 <= N -> lru_invariant N (new_QueryCache Data RawError (Some N)) [] T.
Proof.
  intros HN. split; [apply consistent_new; lia|].
  split; [reflexivity|]. split; [intros op []|].
  split; [intros s e H; discriminate H|].
  split; [intros op s e []|]. right. intros op [].
Qed.

(** The rule picks a slot that is stored, that no slot is older than,
    and that comes before every slot of the same age. *)
Lemma least_recently_updated_leftmost (l : list (JsString * Z)) : forall s t,
  least_recently_updated l = Some (s, t) ->
  exists before after,
    l = before ++ (s, t) :: after /\
    (forall x, In x before -> t < snd x) /\
    (forall x, In x after -> t <= snd x).
Proof.
  induction l as [|x rest IH]; intros s t H; [discriminate H|].
  cbn [least_recently_updated] in H.
  destruct (least_recently_updated rest) as [[s' t']|] eqn:E.
  - destruct (IH s' t' eq_refl) as [before [after [-> [Hb Ha]]]].
    destruct (Z.leb_spec (snd x) (snd (s', t'))) as [Hle|Hgt];
      cbn [snd] in *.
    + injection H as ->. exists [], (before ++ (s', t') :: after).
      split; [reflexivity|]. split; [intros y []|].
      intros y Hy. apply in_app_or in Hy. cbn [snd] in Hle.
      destruct Hy as [Hy|[<-|Hy]]; cbn [snd].
      * specialize (Hb y Hy). lia.
      * exact Hle.
      * specialize (Ha y Hy). lia.
    + injection H as <- <-. exists (x :: before), after.
      split; [reflexivity|]. split; [|exact Ha].
      intros y [<-|Hy]; [lia|now apply Hb].
  - injection H as ->. destruct rest as [|y rest].
    + exists [], []. repeat split; intros z [].
    + cbn [least_recently_updated] in E.
      destruct (least_recently_updated rest) as [z|];
        [destruct (_ <=? _)|]; discriminate E.
Qed.

Lemma slot_stamps_set (s : JsString) (v : Entry) es :
  List.map (fun se => (fst se, stamp (snd se))) (map_set s v es)
  = map_set s (stamp v) (List.map (fun se => (fst se, stamp (snd se))) es).
Proof.
  induction es as [|[s' v'] es IH]; [reflexivity|].
  cbn [map_set List.map fst snd]. destruct (str_eqb s s'); [reflexivity|].
  cbn [List.map fst snd]. now rewrite IH.
Qed.

Lemma slot_stamps_delete (s : JsString) es :
  List.map (fun se : JsString * Entry => (fst se, stamp (snd se)))
           (map_delete s es)
  = map_delete s (List.map (fun se => (fst se, stamp (snd se))) es).
Proof.
  induction es as [|[s' v'] es IH]; [reflexivity|].
  cbn [map_delete List.map fst snd]. destruct (str_eqb s s'); [exact IH|].
  cbn [List.map fst snd]. now rewrite IH.
Qed.

(** The first entry of the sorted array is the one the rule picks: the
    sort is stable, so among the entries of least [updatedAt] the first
    of the [Map] comes first. *)
Lemma sort_by_updatedAt_head_rule es : forall victim rest,
  sort_by_updatedAt Data (map_values es) = victim :: rest ->
  exists sv,
    In (sv, victim) es /\
    least_recently_updated
      (List.map (fun se => (fst se, stamp (snd se))) es)
    = Some (sv, stamp victim).
Proof.
  induction es as [|[s e] es IH]; intros victim rest; [discriminate|].
  cbn [map_values List.map snd fst sort_by_updatedAt fold_right
       least_recently_updated].
  fold (map_values es). fold (sort_by_updatedAt Data (map_values es)).
  destruct (sort_by_updatedAt Data (map_values es)) as [|h t] eqn:E.
  - apply sort_by_updatedAt_nil in E. destruct es; [|discriminate E].
    cbn. intros H. injection H as <- _. exists s. split; [now left|reflexivity].
  - destruct (IH h t eq_refl) as [sv [Hin Hl]]. rewrite Hl.
    cbn [insert_by_updatedAt snd]. unfold stamp at 1 2.
    destruct (updatedAt (meta e) <=? updatedAt (meta h));
      intros H; injection H as <- _.
    + exists s. split; [now left|reflexivity].
    + exists sv. split; [now right|reflexivity].
Qed.

(** One [set] on a bounded cache does to the slots what the rule says. *)
Lemma set_follows_rule N c k (d : Data) p T ts :
  1 <= N -> maxEntries c = Some N ->
  consistent c T -> T <= ts ->
  slot_stamps (snd (set c k d p ts))
  = lru_set N (slot_stamps c) (keyToString k) ts.
Proof.
  intros HN Hmax Hc HT.
  pose proof Hc as [[Hnd Hslot] [Hold Hbound]].
  rewrite Hmax in Hbound. destruct Hbound as [->|[_ Hsz]]; [lia|].
  set (entry := fst (set c k d p ts)).
  set (slot := keyToString k).
  set (c1 := with_entries Data RawError c (map_set slot entry (entries c))).
  assert (H1 : slot_stamps c1 = map_set slot ts (slot_stamps c)).
  { unfold slot_stamps, c1. cbn [entries with_entries].
    now rewrite slot_stamps_set. }
  assert (Hc' : snd (set c k d p ts)
                = notify Data RawError (enforceMaxEntries c1) k (Some entry))
    by reflexivity.
  assert (Hst : slot_stamps (snd (set c k d p ts))
                = slot_stamps (enforceMaxEntries c1))
    by (rewrite Hc'; reflexivity).
  assert (Hlen : List.length (slot_stamps c1) = List.length (entries c1))
    by (unfold slot_stamps; apply length_map).
  rewrite Hst. unfold lru_set. cbv zeta. rewrite <- H1, Hlen.
  assert (Hwf1 : forall s e, In (s, e) (entries c1) -> s = keyToString (key e)).
  { intros s e Hin. unfold c1 in Hin. cbn [entries with_entries] in Hin.
    apply In_map_set in Hin. destruct Hin as [[-> ->]|Hin];
      [reflexivity|now apply Hslot]. }
  destruct (Z.leb_spec (Z.of_nat (List.length (entries c1))) N) as [Hle|Hgt].
  - rewrite enforceMaxEntries_within; [reflexivity|].
    cbn [maxEntries c1 with_entries]. rewrite Hmax. now right.
  - assert (Hlen1 : (List.length (entries c1) <= S (List.length (entries c)))%nat).
    { unfold c1. cbn [entries with_entries]. apply map_set_length_le. }
    destruct (sort_by_updatedAt Data (map_values (entries c1)))
      as [|victim rest] eqn:Hsort.
    { apply sort_by_updatedAt_nil in Hsort.
      destruct (entries c1); [cbn in Hgt; lia|discriminate Hsort]. }
    destruct (sort_by_updatedAt_head_rule _ _ _ Hsort) as [sv [Hin Hl]].
    fold (slot_stamps c1) in Hl. rewrite Hl.
    rewrite (enforceMaxEntries_one_over c1 N victim rest);
      [|exact Hmax|exact HN|lia|exact Hsort].
    unfold slot_stamps at 1. cbn [entries with_entries].
    rewrite slot_stamps_delete. rewrite <- (Hwf1 sv victim Hin). reflexivity.
Qed.

Lemma run_follows_rule N calls : forall c T,
  1 <= N -> maxEntries c = Some N -> consistent c T ->
  clock_monotone T calls ->
  slot_stamps (run_sets c calls)
  = fold_left (fun acc op => lru_set N acc (call_slot op) (call_ts op))
              calls (slot_stamps c).
Proof.
  induction calls as [|op calls IH]; intros c T HN Hmax Hc Hmono;
    [reflexivity|].
  destruct Hmono as [HT Hmono]. cbn [run_sets fold_left].
  fold (run_sets (snd (set c (call_key op) (call_data op) (call_policy op)
                           (call_ts op))) calls).
  rewrite (IH _ (call_ts op) HN); [| |now apply (set_consistent c _ _ _ T)|exact Hmono].
  - now rewrite (set_follows_rule N c _ _ _ T).
  - destruct (set_effect c (call_key op) (call_data op) (call_policy op)
                T (call_ts op) Hc HT) as [ev [_ [_ [_ [_ Hm]]]]].
    now rewrite Hm.
Qed.


End SetFacts.

Transparent keyToString.


(* ================================================================== *)
(** ** Every state the program reaches is consistent *)
(* ================================================================== *)

Section ReachFacts.
Context {Data RawError AppError : Type}.
Variable newError : JsString -> RawError.
Variable toAppError :
  RawError -> option JsString -> list (JsString * QueryKey) -> AppError.

Let Cache := QueryCache Data RawError.
Implicit Types (c : Cache) (k : QueryKey) (ts T : Z).

Opaque keyToString.

Lemma consistent_later c T T' :
  consistent c T -> T <= T' -> consistent c T'.
Proof.
  intros [Hwf [Hst Hb]] HT. split; [exact Hwf|]. split; [|exact Hb].
  intros s e H. specialize (Hst s e H). lia.
Qed.

(** Consistency reads the entries and the bound only. *)
Lemma consistent_same_entries c c' T :
  entries c' = entries c -> maxEntries c' = maxEntries c ->
  consistent c T -> consistent c' T.
Proof.
  unfold consistent, well_formed. intros -> ->. tauto.
Qed.

Lemma invalidate_all_consistent (ks : list QueryKey) : forall c evt ts T,
  consistent c T -> consistent (invalidate_all c ks evt ts) T.
Proof.
  induction ks as [|k ks IH]; intros c evt ts T Hc; [exact Hc|].
  unfold invalidate_all in *. cbn [fold_left]. apply IH.
  now apply invalidate_consistent.
Qed.

Lemma remove_consistent c k T : consistent c T -> consistent (remove c k) T.
Proof.
  intros [[Hnd Hslot] [Hst Hb]]. unfold remove.
  split; [split|split]; cbn [entries notify with_entries maxEntries].
  - now apply map_keys_delete_NoDup.
  - intros s e H. apply In_map_delete in H. now apply Hslot.
  - intros s e H. apply In_map_delete in H. now apply (Hst s).
  - destruct (maxEntries c) as [m|]; [|exact I].
    destruct Hb as [->|[H1 H2]]; [now left|right]. split; [exact H1|].
    assert (List.length (map_delete (keyToString k) (entries c))
            <= List.length (entries c))%nat; [|lia].
    clear. induction (entries c) as [|[s e] m' IH]; cbn; [lia|].
    destruct (str_eqb _ s); cbn; lia.
Qed.

Lemma clear_notifies (l : list (CacheEntry Data)) : forall c,
  entries (fold_left (fun c' entry => notify Data RawError c' (key entry) None) l c)
  = entries c /\
  maxEntries (fold_left (fun c' entry => notify Data RawError c' (key entry) None) l c)
  = maxEntries c.
Proof.
  induction l as [|e l IH]; intros c; [now split|].
  cbn [fold_left]. destruct (IH (notify Data RawError c (key e) None)) as [H1 H2].
  rewrite H1, H2. now split.
Qed.

Lemma clear_consistent c T : consistent c T -> consistent (clear c) T.
Proof.
  intros [_ [_ Hb]]. unfold clear.
  split; [split|split]; cbn [entries with_entries maxEntries].
  - constructor.
  - intros s e [].
  - intros s e [].
  - rewrite (proj2 (clear_notifies _ c)).
    destruct (maxEntries c) as [m|]; [|exact I].
    destruct Hb as [->|[H1 _]]; [now left|right]. cbn. lia.
Qed.

Lemma resume_refetch_consistent c s T ts :
  consistent c T -> T <= ts ->
  consistent (snd (resume_refetch toAppError c s ts)) ts.
Proof.
  intros Hc HT. unfold resume_refetch.
  destruct (suspended_promise _ _ s); cbn [snd].
  - now apply (set_consistent _ _ _ _ T).
  - apply invalidate_consistent. now apply (consistent_later c T).
Qed.

(** The invariant of the cache object. *)
Theorem reachable_consistent T c :
  Reachable newError toAppError T c -> consistent c T.
Proof.
  induction 1 as
    [m T Hm
    |T T' c _ IH HT
    |T c k d p _ IH
    |T c k evt _ IH
    |T c prefix evt _ IH
    |T c k _ IH
    |T c _ IH
    |T c k f _ IH
    |T c k _ IH
    |T T' c k _ IH HT
    |T T' c k _ IH HT
    |T c input _ IH
    |T c c' _ IH Hjob].
  - now apply consistent_new.
  - now apply (consistent_later c T).
  - apply (set_consistent _ _ _ _ T); [exact IH|lia].
  - now apply invalidate_consistent.
  - rewrite invalidatePrefix_as_invalidate_all.
    now apply invalidate_all_consistent.
  - now apply remove_consistent.
  - now apply clear_consistent.
  - now apply (consistent_same_entries c).
  - now apply (consistent_same_entries c).
  - unfold getOrFetch.
    assert (Hpath : consistent
      (snd match map_get (keyToString k) (fetchers c) with
           | None => (ErrorResult (missing_fetcher newError toAppError k), c)
           | Some fetcher =>
               match fetcher T with
               | Fulfilled d => (DataResult d, snd (set c k d None T'))
               | Rejected e =>
                   (ErrorResult (toAppError e None [(lit "key", k)]), c)
               end
           end) T').
    { destruct (map_get _ (fetchers c)) as [f|]; cbn [snd];
        [|now apply (consistent_later c T)].
      destruct (f T); cbn [snd];
        [now apply (set_consistent _ _ _ _ T)|now apply (consistent_later c T)]. }
    destruct (get c k); [|exact Hpath].
    destruct (negb _); [|exact Hpath].
    now apply (consistent_later c T).
  - unfold refetch. destruct (map_get _ (fetchers c)) as [f|]; cbn [snd].
    + now apply (resume_refetch_consistent c _ T).
    + now apply (consistent_later c T).
  - rewrite applyRules_as_invalidate_all. now apply invalidate_all_consistent.
  - unfold run_job in Hjob. destruct (suspended c) as [|s rest]; [discriminate|].
    injection Hjob as <-.
    apply (resume_refetch_consistent _ s T); [|lia].
    now apply (consistent_same_entries c).
Qed.

End ReachFacts.

Transparent keyToString.

(* ================================================================== *)
(** ** Further properties of the cache store *)
(* ================================================================== *)

Section StoreFacts.
Context {Data RawError AppError : Type}.
Variable newError : JsString -> RawError.
Variable toAppError :
  RawError -> option JsString -> list (JsString * QueryKey) -> AppError.

Let Cache := QueryCache Data RawError.
Let Entry := CacheEntry Data.
Implicit Types (c : Cache) (k j parent : QueryKey) (e : Entry) (ts T : Z).
Implicit Types (deps : list QueryKey).

Opaque keyToString.

Let consistency_event (ts : Z) : option CacheInvalidationEvent :=
  Some {| at_ms := ts; reason := consistency_check;
          contractTx := None; mutation := None |}.

Lemma ensureDependencies_fresh c parent deps ts :
  (forall dep, In dep deps -> isStale c dep ts = false) ->
  ensureDependencies newError toAppError c parent deps ts = (DepsOk, c).
Proof.
  induction deps as [|dep deps IH]; intros H; [reflexivity|].
  cbn [ensureDependencies]. rewrite (H dep (or_introl eq_refl)).
  apply IH. intros d Hd. apply H. now right.
Qed.

Lemma ensureDependencies_stale c parent deps ts :
  (exists dep, In dep deps /\ isStale c dep ts = true) ->
  exists pre first post,
    deps = pre ++ first :: post /\
    (forall d, In d pre -> isStale c d ts = false) /\
    isStale c first ts = true /\
    ensureDependencies newError toAppError c parent deps ts =
    (DepsFailed
       (toAppError (newError (lit "Dependency stale")) (Some (lit "unknown"))
                   [(lit "parent", parent); (lit "dep", first)]),
     invalidate c parent (consistency_event ts) ts).
Proof.
  induction deps as [|dep deps IH]; intros [d [Hin Hd]]; [destruct Hin|].
  destruct (isStale c dep ts) eqn:Hs.
  - exists [], dep, deps. cbn [ensureDependencies app]. rewrite Hs.
    split; [reflexivity|]. split; [intros x []|]. split; reflexivity.
  - destruct Hin as [->|Hin]; [congruence|].
    destruct IH as [pre [first [post [E [Hpre [Hf Hr]]]]]]; [eauto|].
    exists (dep :: pre), first, post. cbn [ensureDependencies app].
    rewrite Hs, Hr. split; [now rewrite E|].
    split; [intros x [<-|Hx]; auto|]. split; [exact Hf|reflexivity].
Qed.

(** X1: [ensureDependencies] answers [{ ok: true }] exactly when no
    dependency is stale (in particular for no dependency at all), and
    then the cache is the one before the call. *)
Theorem ensureDependencies_ok_iff c parent deps ts :
  let r := ensureDependencies newError toAppError c parent deps ts in
  (fst r = DepsOk <-> forall dep, In dep deps -> isStale c dep ts = false) /\
  (fst r = DepsOk -> snd r = c).
Proof.
  cbv zeta.
  assert (Hdec : (forall dep, In dep deps -> isStale c dep ts = false) \/
                 (exists dep, In dep deps /\ isStale c dep ts = true)).
  { clear. induction deps as [|dep deps IH]; [left; intros d []|].
    destruct (isStale c dep ts) eqn:Hs; [right; exists dep; split; [now left|exact Hs]|].
    destruct IH as [IH|[d [Hin Hd]]].
    - left. intros d [<-|Hd]; auto.
    - right. exists d. split; [now right|exact Hd]. }
  destruct Hdec as [Hfresh|Hstale].
  - rewrite (ensureDependencies_fresh c parent deps ts Hfresh). cbn. tauto.
  - destruct (ensureDependencies_stale c parent deps ts Hstale)
      as [pre [first [post [E [Hpre [Hf Hr]]]]]].
    rewrite Hr. cbn [fst snd]. split; [|discriminate].
    split; [discriminate|]. intros H.
    assert (Hin : In first deps) by (rewrite E; apply in_or_app; right; now left).
    specialize (H first Hin). congruence.
Qed.

(** X2: when some dependency is stale, [ensureDependencies] fails with
    the error built for the first stale dependency, and its only effect
    is [invalidate(parent)]: the parent keeps its data and reads as
    stale, every key in another slot is untouched, and a parent that is
    not cached leaves the cache as it was. *)
Theorem ensureDependencies_invalidates_parent c parent deps ts dep :
  In dep deps -> isStale c dep ts = true ->
  let r := ensureDependencies newError toAppError c parent deps ts in
  (exists pre first post,
      deps = pre ++ first :: post /\
      (forall d, In d pre -> isStale c d ts = false) /\
      isStale c first ts = true /\
      fst r = DepsFailed
                (toAppError (newError (lit "Dependency stale"))
                            (Some (lit "unknown"))
                            [(lit "parent", parent); (lit "dep", first)])) /\
  get (snd r) parent =
    option_map (fun e => mark_invalidated e ts) (get c parent) /\
  (forall t, isStale (snd r) parent t = true) /\
  (forall j, keyToString j <> keyToString parent -> get (snd r) j = get c j) /\
  (get c parent = None -> snd r = c).
Proof.
  intros Hin Hs r.
  destruct (ensureDependencies_stale c parent deps ts)
    as [pre [first [post [E [Hpre [Hf Hr]]]]]]; [eauto|].
  subst r. rewrite Hr. cbn [fst snd].
  assert (G : get (invalidate c parent (consistency_event ts) ts) parent =
              option_map (fun e => mark_invalidated e ts) (get c parent)).
  { rewrite get_invalidate, str_eqb_refl. reflexivity. }
  split; [exists pre, first, post; auto|].
  split; [exact G|]. split; [|split].
  - intros t. unfold isStale. rewrite G. now destruct (get c parent).
  - intros j Hj. rewrite get_invalidate.
    apply str_eqb_neq in Hj. now rewrite Hj.
  - intros Hnone. unfold invalidate. unfold get in Hnone. now rewrite Hnone.
Qed.

Lemma get_remove c k j :
  get (remove c k) j =
  if str_eqb (keyToString j) (keyToString k) then None else get c j.
Proof.
  unfold get, remove. cbn [entries notify with_entries]. apply map_get_delete.
Qed.

(** X3: [remove] empties the slot of the key and no other: [get] of the
    key is none and it reads as stale, every other slot reads as before,
    the fetchers stay registered, and subscribers are told once, with a
    null entry, whether or not something was stored. *)
Theorem remove_empties_slot c k :
  let c' := remove c k in
  (forall j, get c' j =
             if str_eqb (keyToString j) (keyToString k) then None
             else get c j) /\
  (forall t, isStale c' k t = true) /\
  fetchers c' = fetchers c /\
  suspended c' = suspended c /\
  notified c' = notified c ++ [(k, None)].
Proof.
  cbv zeta.
  split; [intros j; apply get_remove|]. split; [|repeat split].
  intros t. unfold isStale. now rewrite get_remove, str_eqb_refl.
Qed.

Lemma clear_notified (l : list Entry) : forall c,
  notified (fold_left (fun c' entry => notify Data RawError c' (key entry) None) l c)
  = notified c ++ List.map (fun e => (key e, None)) l /\
  fetchers (fold_left (fun c' entry => notify Data RawError c' (key entry) None) l c)
  = fetchers c /\
  suspended (fold_left (fun c' entry => notify Data RawError c' (key entry) None) l c)
  = suspended c.
Proof.
  induction l as [|e l IH]; intros c; cbn [fold_left List.map].
  - rewrite app_nil_r. auto.
  - destruct (IH (notify Data RawError c (key e) None)) as [H1 [H2 H3]].
    rewrite H1, H2, H3. cbn [notified fetchers suspended notify].
    rewrite <- app_assoc. auto.
Qed.

(** X4: [clear] leaves no entry: every key reads as none and stale and
    the snapshot is empty; subscribers are told once per stored entry,
    in insertion order, with a null entry; fetchers and the bound stay. *)
Theorem clear_empties_store c :
  let c' := clear c in
  entries c' = [] /\
  (forall k t, get c' k = None /\ isStale c' k t = true) /\
  snapshot c' = {| keys := []; size := 0 |} /\
  notified c' =
    notified c ++ List.map (fun e => (key e, None)) (map_values (entries c)) /\
  fetchers c' = fetchers c /\
  maxEntries c' = maxEntries c.
Proof.
  cbv zeta. unfold clear.
  destruct (clear_notified (map_values (entries c)) c) as [H1 [H2 H3]].
  destruct (clear_notifies (map_values (entries c)) c) as [_ H4].
  cbn [entries notified fetchers maxEntries with_entries].
  repeat split; assumption.
Qed.

(** X5: on a well-formed store [snapshot] reports as many keys as its
    [size], no two of them in one slot; each reported key reads back an
    entry stored under that very key, and every entry that [get] finds
    has its key reported. *)
Theorem snapshot_lists_stored_keys c :
  well_formed c ->
  let s := snapshot c in
  size s = List.length (keys s) /\
  NoDup (List.map keyToString (keys s)) /\
  (forall k, In k (keys s) -> exists e, get c k = Some e /\ key e = k) /\
  (forall j e, get c j = Some e ->
     In (key e) (keys s) /\ keyToString (key e) = keyToString j).
Proof.
  intros [Hnd Hslot] s. subst s. cbn [keys size snapshot].
  assert (Hslots : List.map keyToString (List.map key (map_values (entries c)))
                   = map_keys (entries c)).
  { unfold map_values, map_keys. rewrite !map_map.
    apply map_ext_in. intros [s e] Hin. cbn. symmetry. now apply Hslot. }
  split; [unfold map_values; now rewrite !length_map|].
  split; [now rewrite Hslots|]. split.
  - intros k Hk. apply in_map_iff in Hk. destruct Hk as [e [<- He]].
    unfold map_values in He. apply in_map_iff in He.
    destruct He as [[s e'] [E Hin]]. cbn in E. subst e'.
    exists e. split; [|reflexivity].
    unfold get. rewrite <- (Hslot s e Hin). now apply In_map_get.
  - intros j e G. unfold get in G. apply map_get_In in G.
    split; [|symmetry; now apply Hslot].
    apply in_map. unfold map_values. change e with (snd (keyToString j, e)).
    now apply in_map.
Qed.

(** X6: staleness only grows with the clock: a key that reads as stale
    stays stale at every later clock value while the cache is not
    written, and one that is fresh was fresh at every earlier one. *)
Theorem isStale_monotone c k t t' :
  t <= t' ->
  (isStale c k t = true -> isStale c k t' = true) /\
  (isStale c k t' = false -> isStale c k t = false).
Proof.
  intros Ht. unfold isStale. destruct (get c k) as [e|]; [|split; auto].
  destruct (invalidatedAt (meta e)); [split; auto|].
  split; intros H.
  - now apply (Number_ge_monotone t t').
  - destruct (Number_ge (Finite t) (staleAt (meta e))) eqn:E; [|reflexivity].
    rewrite (Number_ge_monotone t t' _ Ht E) in H. discriminate H.
Qed.

(** X7: [set] keeps the invalidation mark of the entry it replaces.
    Once a key is invalidated, writing to it stores the new data but the
    key still reads as stale at every clock value; after [remove] the
    same write gives an entry without the mark. *)
Theorem set_keeps_invalidation_mark c k e i (d : Data) p T ts :
  consistent c T -> T <= ts ->
  get c k = Some e -> invalidatedAt (meta e) = Some i ->
  let written := set c k d p ts in
  get (snd written) k = Some (fst written) /\
  data (fst written) = d /\
  createdAt (meta (fst written)) = createdAt (meta e) /\
  invalidatedAt (meta (fst written)) = Some i /\
  (forall t, isStale (snd written) k t = true) /\
  invalidatedAt (meta (fst (set (remove c k) k d p ts))) = None.
Proof.
  intros Hc HT G Hi written.
  assert (G' : get (snd written) k = Some (fst written))
    by (now apply (get_set_same c k d p T ts)).
  assert (Hm : invalidatedAt (meta (fst written)) = Some i).
  { subst written. cbn. now rewrite G. }
  split; [exact G'|]. split; [reflexivity|].
  split; [subst written; cbn; now rewrite G|]. split; [exact Hm|]. split.
  - intros t. eapply isStale_invalidated; [exact G'|]. rewrite Hm. discriminate.
  - assert (Hg : get (remove c k) k = None)
      by (now rewrite get_remove, str_eqb_refl).
    unfold set. cbn [fst meta invalidatedAt]. now rewrite Hg.
Qed.

(** X8: read-through, then hit.  On a miss with a fetcher that
    succeeds, [getOrFetch] returns the fetched data and stores it under
    what [QueryPolicies] holds for the key (else the 30 s fallback),
    with [staleAt] the double sum of the clock of the write and that
    stale time; at every clock value that has not reached [staleAt],
    [getOrFetch] of the key answers the same data and leaves the cache
    as it is. *)
Theorem getOrFetch_reads_through c k f (d : Data) T ts ts' :
  consistent c T -> T <= ts -> ts <= ts' ->
  get c k = None ->
  map_get (keyToString k) (fetchers c) = Some f ->
  f ts = Fulfilled d ->
  let r := getOrFetch newError toAppError c k ts ts' in
  fst r = DataResult d /\
  exists e,
    get (snd r) k = Some e /\ data e = d /\
    policy e = effectivePolicy k None /\
    updatedAt (meta e) = ts' /\
    staleAt (meta e) =
      Number_add (Finite ts') (staleTime (effectivePolicy k None)) /\
    forall t t', Number_ge (Finite t) (staleAt (meta e)) = false ->
      getOrFetch newError toAppError (snd r) k t t' = (DataResult d, snd r).
Proof.
  intros Hc HT Hts G Hf Hd r.
  assert (Hr : r = (DataResult d, snd (set c k d None ts'))).
  { subst r. unfold getOrFetch. now rewrite G, Hf, Hd. }
  rewrite Hr. cbn [fst snd]. split; [reflexivity|].
  exists (fst (set c k d None ts')).
  assert (G' : get (snd (set c k d None ts')) k = Some (fst (set c k d None ts')))
    by (apply (get_set_same c k d None T ts'); [exact Hc|lia]).
  split; [exact G'|]. split; [reflexivity|]. split; [reflexivity|].
  split; [reflexivity|]. split; [reflexivity|].
  intros t t' Ht. unfold getOrFetch. rewrite G'.
  assert (Hfresh : isStale (snd (set c k d None ts')) k t = false).
  { unfold isStale. rewrite G'. cbn [meta invalidatedAt fst set].
    rewrite G. exact Ht. }
  rewrite Hfresh. reflexivity.
Qed.

(** X9: the background refetch that [invalidate] starts ends when the
    fetcher succeeds.  One turn of the job queue stores the fetched data
    (same [createdAt], [updatedAt] at the clock of the turn), the policy
    of the entry becomes what [set] takes for the key when none is given
    ([refetch] gives none), whatever policy the entry was written with,
    and no job is left. *)
Theorem background_refetch_completes c k e f (d : Data) evt T ts ts' :
  consistent c T -> T <= ts -> ts <= ts' ->
  get c k = Some e ->
  refetches (policy e) = true ->
  map_get (keyToString k) (fetchers c) = Some f ->
  f ts = Fulfilled d ->
  suspended c = [] ->
  exists c',
    run_job toAppError (invalidate c k evt ts) ts' = Some c' /\
    suspended c' = [] /\
    (forall t, run_job toAppError c' t = None) /\
    exists e',
      get c' k = Some e' /\ data e' = d /\
      createdAt (meta e') = createdAt (meta e) /\
      updatedAt (meta e') = ts' /\
      policy e' = effectivePolicy k None.
Proof.
  intros Hc HT Hts G Hp Hf Hd Hs.
  assert (Hinv : invalidate c k evt ts =
    suspend Data RawError
      (notify Data RawError
         (with_entries Data RawError c
            (map_set (keyToString k) (mark_invalidated e ts) (entries c)))
         k (Some (mark_invalidated e ts)))
      {| suspended_key := k; suspended_promise := Fulfilled d |}).
  { unfold invalidate. unfold get in G. rewrite G. cbn [policy mark_invalidated].
    rewrite Hp. unfold start_refetch. cbn [fetchers notify with_entries].
    now rewrite Hf, Hd. }
  set (c0 := {| entries := entries (invalidate c k evt ts);
                fetchers := fetchers (invalidate c k evt ts);
                maxEntries := maxEntries (invalidate c k evt ts);
                notified := notified (invalidate c k evt ts);
                suspended := [] |}).
  assert (Hc0 : consistent c0 ts).
  { apply (consistent_same_entries (invalidate c k evt ts)); try reflexivity.
    apply invalidate_consistent. now apply (consistent_later c T). }
  assert (G0 : get c0 k = Some (mark_invalidated e ts)).
  { unfold get, c0. cbn [entries].
    change (get (invalidate c k evt ts) k = Some (mark_invalidated e ts)).
    rewrite get_invalidate, str_eqb_refl, G. reflexivity. }
  exists (snd (set c0 k d None ts')).
  assert (Hjob : run_job toAppError (invalidate c k evt ts) ts'
                 = Some (snd (set c0 k d None ts'))).
  { unfold run_job. rewrite Hinv at 1. cbn [suspended suspend notify with_entries].
    rewrite Hs. cbn [app]. unfold resume_refetch.
    cbn [suspended_key suspended_promise snd]. reflexivity. }
  assert (Hdone : suspended (snd (set c0 k d None ts')) = []).
  { cbn [set snd suspended notify].
    unfold enforceMaxEntries. destruct (maxEntries _) as [m|]; [|reflexivity].
    destruct (m =? 0); [reflexivity|]. destruct (_ <=? m); reflexivity. }
  split; [exact Hjob|]. split; [exact Hdone|].
  split; [intros t; unfold run_job; now rewrite Hdone|].
  exists (fst (set c0 k d None ts')).
  split; [apply (get_set_same c0 k d None ts ts'); [exact Hc0|exact Hts]|].
  split; [reflexivity|].
  split; [unfold set; cbn [fst meta createdAt]; now rewrite G0|].
  split; reflexivity.
Qed.

(** X10: the registry holds one fetcher per slot and the last
    registration wins: after [registerFetcher] a [refetch] of the key
    runs the fetcher just registered, whatever was registered before,
    and after [unregisterFetcher] it answers the missing-fetcher error
    and leaves the cache alone.  Neither touches the entries or the
    fetchers of other slots. *)
Theorem fetcher_registry c k f ts ts' :
  refetch newError toAppError (registerFetcher c k f) k ts ts' =
    resume_refetch toAppError (registerFetcher c k f)
      {| suspended_key := k; suspended_promise := f ts |} ts' /\
  refetch newError toAppError (unregisterFetcher c k) k ts ts' =
    (ErrorResult (toAppError (newError (lit "Missing fetcher")) None
                             [(lit "key", k)]),
     unregisterFetcher c k) /\
  entries (registerFetcher c k f) = entries c /\
  entries (unregisterFetcher c k) = entries c /\
  forall j, keyToString j <> keyToString k ->
    map_get (keyToString j) (fetchers (registerFetcher c k f)) =
      map_get (keyToString j) (fetchers c) /\
    map_get (keyToString j) (fetchers (unregisterFetcher c k)) =
      map_get (keyToString j) (fetchers c).
Proof.
  split; [|split; [|split; [reflexivity|split; [reflexivity|]]]].
  - unfold refetch. cbn [fetchers registerFetcher].
    now rewrite map_get_set, str_eqb_refl.
  - unfold refetch. cbn [fetchers unregisterFetcher].
    now rewrite map_get_delete, str_eqb_refl.
  - intros j Hj. apply str_eqb_neq in Hj.
    cbn [fetchers registerFetcher unregisterFetcher].
    now rewrite map_get_set, map_get_delete, Hj.
Qed.

Lemma well_timed_later T T' e :
  well_timed T e -> T <= T' -> well_timed T' e.
Proof.
  intros [H1 [H2 [H3 H4]]] HT. repeat split; try assumption; try lia.
  - now apply (H4 i).
  - specialize (H4 i H). lia.
Qed.

Lemma well_timed_mark T e :
  well_timed T e -> well_timed T (mark_invalidated e T).
Proof.
  intros [H1 [H2 [H3 H4]]]. repeat split; cbn; try assumption;
    injection H as <-; lia.
Qed.

Lemma In_entries_invalidate c k evt ts s e :
  NoDup (map_keys (entries c)) ->
  In (s, e) (entries (invalidate c k evt ts)) ->
  exists e0, In (s, e0) (entries c) /\ (e = e0 \/ e = mark_invalidated e0 ts).
Proof.
  intros Hnd H. rewrite entries_invalidate in H.
  destruct (get c k) as [e0|] eqn:G; [|eauto].
  assert (Hnd' : NoDup (map_keys (map_set (keyToString k)
                                   (mark_invalidated e0 ts) (entries c)))).
  { rewrite map_keys_set_present; [exact Hnd|].
    eapply map_get_Some_key. exact G. }
  apply (In_map_get _ _ _ Hnd') in H. rewrite map_get_set in H.
  str_cases s (keyToString k).
  - injection H as <-. exists e0. split; [|now right].
    subst s. now apply map_get_In.
  - exists e. split; [now apply map_get_In|now left].
Qed.

Lemma invalidate_all_well_timed (ks : list QueryKey) : forall c evt T,
  consistent c T ->
  (forall s e, In (s, e) (entries c) -> well_timed T e) ->
  forall s e, In (s, e) (entries (invalidate_all c ks evt T)) -> well_timed T e.
Proof.
  induction ks as [|k ks IH]; intros c evt T Hc Hall; [exact Hall|].
  unfold invalidate_all in *. cbn [fold_left].
  apply IH; [now apply invalidate_consistent|].
  intros s e Hin.
  destruct (In_entries_invalidate c k evt T s e (proj1 (proj1 Hc)) Hin)
    as [e0 [H0 [->| ->]]].
  - now apply (Hall s).
  - apply well_timed_mark. now apply (Hall s).
Qed.

Lemma set_well_timed c k (d : Data) p T ts :
  consistent c T -> T <= ts ->
  (forall s e, In (s, e) (entries c) -> well_timed T e) ->
  forall s e, In (s, e) (entries (snd (set c k d p ts))) -> well_timed ts e.
Proof.
  intros Hc HT Hall s e Hin.
  pose proof (set_consistent c k d p T ts Hc HT) as [[Hnd _] _].
  apply (In_map_get _ _ _ Hnd) in Hin.
  destruct (set_effect_old c k d p T ts s e Hc HT Hin) as [[_ ->]|[_ Hold]].
  - unfold set. cbn [fst]. unfold well_timed. cbn [meta policy createdAt updatedAt staleAt invalidatedAt].
    destruct (get c k) as [e0|] eqn:G.
    + unfold get in G. apply map_get_In in G.
      destruct (Hall _ _ G) as [H1 [H2 [H3 H4]]].
      split; [lia|]. split; [lia|]. split; [reflexivity|].
      intros i Hi. specialize (H4 i Hi). lia.
    + split; [lia|]. split; [lia|]. split; [reflexivity|]. discriminate.
  - apply map_get_In in Hold. apply (well_timed_later T); [|exact HT].
    now apply (Hall s).
Qed.

(** X11: the timestamps of every entry of a reachable cache are in
    order: created no later than updated, updated no later than the
    clock, [staleAt] the double sum of [updatedAt] and the stale time of
    what the entry carries as its policy ([NaN] when that is a member of
    [Object.prototype]), and an invalidation mark between creation and
    the clock. *)
Theorem reachable_well_timed T c s e :
  Reachable newError toAppError T c ->
  In (s, e) (entries c) -> well_timed T e.
Proof.
  intros HR. revert s e.
  induction HR as
    [m T Hm
    |T T' c HR IH HT
    |T c k d p HR IH
    |T c k evt HR IH
    |T c prefix evt HR IH
    |T c k HR IH
    |T c HR IH
    |T c k f HR IH
    |T c k HR IH
    |T T' c k HR IH HT
    |T T' c k HR IH HT
    |T c input HR IH
    |T c c' HR IH Hjob]; intros s e Hin;
    try (pose proof (reachable_consistent newError toAppError _ _ HR) as Hc).
  - destruct Hin.
  - apply (well_timed_later T); [now apply (IH s)|exact HT].
  - apply (set_well_timed c k d p T T Hc (Z.le_refl T) IH s e Hin).
  - apply (invalidate_all_well_timed [k] c evt T Hc IH s e Hin).
  - rewrite invalidatePrefix_as_invalidate_all in Hin.
    apply (invalidate_all_well_timed _ c evt T Hc IH s e Hin).
  - unfold remove in Hin. cbn [entries notify with_entries] in Hin.
    apply In_map_delete in Hin. now apply (IH s).
  - unfold clear in Hin. cbn [entries with_entries] in Hin. destruct Hin.
  - now apply (IH s).
  - now apply (IH s).
  - assert (Hlater : forall s e, In (s, e) (entries c) -> well_timed T' e).
    { intros s0 e0 H0. apply (well_timed_later T); [now apply (IH s0)|exact HT]. }
    revert Hin. unfold getOrFetch.
    assert (Hpath : In (s, e) (entries
      (snd match map_get (keyToString k) (fetchers c) with
           | None => (ErrorResult (missing_fetcher newError toAppError k), c)
           | Some fetcher =>
               match fetcher T with
               | Fulfilled d => (DataResult d, snd (set c k d None T'))
               | Rejected e0 =>
                   (ErrorResult (toAppError e0 None [(lit "key", k)]), c)
               end
           end)) -> well_timed T' e).
    { destruct (map_get _ (fetchers c)) as [f|]; cbn [snd]; [|apply Hlater].
      destruct (f T); cbn [snd]; [|apply Hlater].
      apply (set_well_timed c k d None T T' Hc HT IH). }
    destruct (get c k); [|exact Hpath].
    destruct (negb _); [apply Hlater|exact Hpath].
  - assert (Hlater : forall s e, In (s, e) (entries c) -> well_timed T' e).
    { intros s0 e0 H0. apply (well_timed_later T); [now apply (IH s0)|exact HT]. }
    revert Hin. unfold refetch.
    destruct (map_get _ (fetchers c)) as [f|]; cbn [snd]; [|apply Hlater].
    unfold resume_refetch. cbn [suspended_key suspended_promise].
    destruct (f T); cbn [snd].
    + apply (set_well_timed c k d None T T' Hc HT IH).
    + apply (invalidate_all_well_timed [k] c (consistency_event T') T');
        [now apply (consistent_later c T)|exact Hlater].
  - rewrite applyRules_as_invalidate_all in Hin.
    apply (invalidate_all_well_timed _ c (Some (stamp_event input T)) T
             Hc IH s e Hin).
  - unfold run_job in Hjob. destruct (suspended c) as [|job rest]; [discriminate|].
    injection Hjob as <-. revert Hin. unfold resume_refetch.
    set (c0 := {| entries := entries c; fetchers := fetchers c;
                  maxEntries := maxEntries c; notified := notified c;
                  suspended := rest |}).
    assert (Hc0 : consistent c0 T)
      by (now apply (consistent_same_entries c)).
    destruct (suspended_promise _ _ job); cbn [snd].
    + apply (set_well_timed c0 _ d None T T Hc0 (Z.le_refl T) IH).
    + apply (invalidate_all_well_timed [suspended_key _ _ job] c0
               (consistency_event T) T Hc0 IH).
Qed.

(** X20: what every reachable cache keeps, for a cache created with no
    bound or a non-negative one and a clock that does not run backwards:
    no two entries share a slot, every entry sits in the slot its own
    key encodes to and was written no later than the clock, and with a
    bound of at least [1] the store never holds more entries than the
    bound. *)
Theorem reachable_store_invariant T c :
  Reachable newError toAppError T c ->
  NoDup (map_keys (entries c)) /\
  (forall s e, In (s, e) (entries c) ->
     s = keyToString (key e) /\ get c (key e) = Some e /\
     updatedAt (meta e) <= T) /\
  (forall m, maxEntries c = Some m -> 1 <= m ->
     Z.of_nat (size (snapshot c)) <= m).
Proof.
  intros HR.
  destruct (reachable_consistent newError toAppError T c HR)
    as [[Hnd Hslot] [Hst Hb]].
  split; [exact Hnd|]. split.
  - intros s e Hin. split; [now apply Hslot|]. split; [|now apply (Hst s)].
    now apply (well_formed_get c s e (conj Hnd Hslot)).
  - intros m Hm H1. cbn [size snapshot]. rewrite Hm in Hb.
    destruct Hb as [->|[_ Hb]]; [lia|exact Hb].
Qed.

End StoreFacts.

Transparent keyToString.

(* ================================================================== *)
(** ** Further properties of the rule engine and of prefixes *)
(* ================================================================== *)

Section EngineFacts.
Context {Data RawError AppError : Type}.

Let Cache := QueryCache Data RawError.
Let Entry := CacheEntry Data.
Implicit Types (c : Cache) (k j : QueryKey) (e : Entry) (ts : Z).
Implicit Types (evt : CacheInvalidationEvent)
         (input : InvalidationRuleInput AppError).

Opaque keyToString.

(** X12: after [applyRules] on an achievement-badge transaction with
    affected addresses [A], the entries of [rewards.byAddress(a)],
    [profile.byAddress(a)] and [balances.account(a)] are, for every [a]
    in [A], the old ones marked invalidated (none if there was none),
    and the three keys read as stale. *)
Theorem applyRules_achievementBadge_invalidates c input ts tx A :
  contractTx (event input) = Some tx ->
  contract tx = lit "achievementBadge" ->
  event_addresses (event input) = A ->
  let c' := applyRules c input ts in
  let invalidated j :=
    get c' j = option_map (fun e => mark_invalidated e ts) (get c j) /\
    forall t, isStale c' j t = true in
  forall a, In a A ->
    invalidated (QueryKeys.rewards.byAddress a) /\
    invalidated (QueryKeys.profile.byAddress a) /\
    invalidated (QueryKeys.balances.account a).
Proof.
  intros Htx Hc HA c' invalidated.
  assert (Hkeys : forall j,
    In j (List.map QueryKeys.balances.account A
          ++ flat_map (fun a => [QueryKeys.rewards.byAddress a;
                                 QueryKeys.profile.byAddress a]) A) ->
    invalidated j).
  { intros j Hj.
    assert (G : get c' j = option_map (fun e => mark_invalidated e ts) (get c j)).
    { subst c'. rewrite get_applyRules.
      replace (slot_among j (rule_keys c (stamp_event input ts))) with true;
        [reflexivity|].
      symmetry. unfold rule_keys. cbv zeta.
      rewrite !(stamp_event_contract input ts tx) by assumption.
      rewrite stamp_event_addresses, HA, Hc.
      replace (str_eqb (lit "achievementBadge") (lit "prizePool")) with false
        by reflexivity.
      replace (str_eqb (lit "achievementBadge") (lit "coinFlip")) with false
        by reflexivity.
      replace (str_eqb (lit "achievementBadge") (lit "achievementBadge"))
        with true by reflexivity.
      apply slot_among_In. rewrite !in_app_iff. cbn [In].
      apply in_app_or in Hj. tauto. }
    split; [exact G|]. intros t. eapply isStale_after_mark. exact G. }
  intros a Ha.
  repeat split; apply Hkeys; apply in_or_app.
  - right. apply in_flat_map. exists a. split; [exact Ha|now left].
  - right. apply in_flat_map. exists a. split; [exact Ha|now left].
  - right. apply in_flat_map. exists a. split; [exact Ha|right; now left].
  - right. apply in_flat_map. exists a. split; [exact Ha|right; now left].
  - left. now apply in_map.
  - left. now apply in_map.
Qed.

Lemma notified_invalidate_grows c k o ts :
  exists more, notified (invalidate c k o ts) = notified c ++ more.
Proof.
  unfold invalidate. destruct (map_get _ (entries c)) as [e|].
  - exists [(k, Some (mark_invalidated e ts))].
    destruct (refetches _); [unfold start_refetch|]; cbn;
      try reflexivity.
    destruct (map_get _ _); reflexivity.
  - exists []. now rewrite app_nil_r.
Qed.

Lemma notified_invalidate_all_grows (ks : list QueryKey) : forall c o ts,
  exists more, notified (invalidate_all c ks o ts) = notified c ++ more.
Proof.
  induction ks as [|k ks IH]; intros c o ts.
  - exists []. cbn. now rewrite app_nil_r.
  - unfold invalidate_all in *. cbn [fold_left].
    destruct (IH (invalidate c k o ts) o ts) as [m2 H2].
    destruct (notified_invalidate_grows c k o ts) as [m1 H1].
    exists (m1 ++ m2). now rewrite H2, H1, app_assoc.
Qed.

Lemma maxEntries_invalidate_all (ks : list QueryKey) : forall c o ts,
  maxEntries (invalidate_all c ks o ts) = maxEntries c.
Proof.
  induction ks as [|k ks IH]; intros c o ts; [reflexivity|].
  unfold invalidate_all in *. cbn [fold_left]. rewrite IH.
  apply maxEntries_invalidate.
Qed.

(** X13: [applyRules] only marks.  Whatever the input, the store has
    the same slots in the same order, the same fetchers and bound, every
    key reads either as before or as its old entry marked invalidated
    (so no data, key, policy or write time changes and nothing is added
    or removed), and the notifications sent before are still the first
    ones. *)
Theorem applyRules_only_marks c input ts :
  let c' := applyRules c input ts in
  map_keys (entries c') = map_keys (entries c) /\
  fetchers c' = fetchers c /\
  maxEntries c' = maxEntries c /\
  (forall j, get c' j = get c j \/
             get c' j = option_map (fun e => mark_invalidated e ts) (get c j)) /\
  (forall j, option_map data (get c' j) = option_map data (get c j) /\
             option_map (fun e => updatedAt (meta e)) (get c' j)
             = option_map (fun e => updatedAt (meta e)) (get c j)) /\
  exists more, notified c' = notified c ++ more.
Proof.
  cbv zeta. rewrite applyRules_as_invalidate_all.
  split; [apply map_keys_invalidate_all|].
  split; [apply fetchers_invalidate_all|].
  split; [apply maxEntries_invalidate_all|].
  split; [|split].
  - intros j. rewrite get_invalidate_all. destruct (slot_among _ _); auto.
  - intros j. rewrite get_invalidate_all.
    destruct (slot_among _ _); [|auto]. now destruct (get c j).
  - apply notified_invalidate_all_grows.
Qed.

Lemma invalidate_all_event_irrelevant (ks : list QueryKey) : forall c o o' ts,
  invalidate_all c ks o ts = invalidate_all c ks o' ts.
Proof.
  induction ks as [|k ks IH]; intros c o o' ts; [reflexivity|].
  unfold invalidate_all in *. cbn [fold_left].
  change (invalidate c k o ts) with (invalidate c k o' ts). apply IH.
Qed.

(** X14: the outcome does not choose the keys.  [applyRules] leaves the
    cache in the same state for a successful, a retryable and a terminal
    outcome of the same event: a failed transaction invalidates exactly
    what a successful one does. *)
Theorem applyRules_ignores_outcome c (o1 o2 : TxOutcome AppError) ev ts :
  applyRules c {| outcome := o1; event := ev |} ts =
  applyRules c {| outcome := o2; event := ev |} ts.
Proof.
  rewrite !applyRules_as_invalidate_all.
  assert (Hk : rule_keys c (stamp_event {| outcome := o1; event := ev |} ts) =
               rule_keys c (stamp_event {| outcome := o2; event := ev |} ts)).
  { unfold rule_keys, contract_is, event_addresses, event_gameId, stamp_event.
    cbn [contractTx mutation outcome event].
    destruct (contractTx ev) as [tx|]; reflexivity. }
  rewrite Hk. apply invalidate_all_event_irrelevant.
Qed.

(** X15: for an event without a contract transaction, or with a
    contract other than [prizePool], [coinFlip] and [achievementBadge],
    [applyRules] invalidates [balances.account(a)] for the affected
    addresses and nothing else; with no affected address it leaves the
    whole cache state as it was. *)
Theorem applyRules_other_contract c input ts A :
  contract_is (event input) (lit "prizePool") = false ->
  contract_is (event input) (lit "coinFlip") = false ->
  contract_is (event input) (lit "achievementBadge") = false ->
  event_addresses (event input) = A ->
  let c' := applyRules c input ts in
  (forall a, In a A ->
     get c' (QueryKeys.balances.account a) =
     option_map (fun e => mark_invalidated e ts)
                (get c (QueryKeys.balances.account a))) /\
  (forall j,
     (forall a, In a A ->
        keyToString j <> keyToString (QueryKeys.balances.account a)) ->
     get c' j = get c j) /\
  (A = [] -> c' = c).
Proof.
  intros H1 H2 H3 HA c'.
  assert (Hc : forall n, contract_is (stamp_event input ts) n
                         = contract_is (event input) n).
  { intros n. unfold contract_is, stamp_event. cbn [contractTx].
    now destruct (contractTx (event input)). }
  assert (Hkeys : rule_keys c (stamp_event input ts) =
                  List.map QueryKeys.balances.account A).
  { unfold rule_keys. cbv zeta. rewrite !Hc, H1, H2, H3.
    rewrite stamp_event_addresses, HA. now rewrite !app_nil_r. }
  split; [|split].
  - intros a Ha. subst c'. rewrite get_applyRules, Hkeys.
    rewrite slot_among_In; [reflexivity|now apply in_map].
  - intros j Hj. subst c'. rewrite get_applyRules, Hkeys.
    destruct (slot_among _ _) eqn:Hs; [|reflexivity].
    apply existsb_exists in Hs. destruct Hs as [k' [Hk' Heq]].
    apply in_map_iff in Hk'. destruct Hk' as [a [<- Ha]].
    apply str_eqb_eq in Heq. now destruct (Hj a Ha).
  - intros ->. subst c'. rewrite applyRules_as_invalidate_all, Hkeys.
    reflexivity.
Qed.

Lemma segments_match_nan (prefix : QueryKey) : forall ky : QueryKey,
  In (SNumber NaN) prefix -> segments_match ky prefix = false.
Proof.
  induction prefix as [|p prefix IH]; intros ky Hin; [destruct Hin|].
  cbn [segments_match]. destruct ky as [|x ky]; [reflexivity|].
  destruct Hin as [->|Hin].
  - destruct x as [?|[]|?|]; reflexivity.
  - destruct (negb (strict_eq x p)); [reflexivity|now apply IH].
Qed.

Lemma invalidate_all_nil_filter (l : list QueryKey) (P : QueryKey -> bool) :
  (forall x, P x = false) -> filter P l = [].
Proof.
  intros H. induction l as [|x l IH]; [reflexivity|]. cbn. now rewrite H.
Qed.

(** X16: the two ends of [invalidatePrefix].  With the empty prefix
    every stored entry of a well-formed store is marked invalidated.
    With a prefix that has a [NaN] segment nothing is: [NaN !== NaN], so
    no key has that prefix, not even the prefix itself, and the cache
    state is left as it was. *)
Theorem invalidatePrefix_extremes c (prefix : QueryKey) o ts :
  (well_formed c ->
   forall s e, In (s, e) (entries c) ->
     map_get s (entries (invalidatePrefix c [] o ts))
     = Some (mark_invalidated e ts)) /\
  (In (SNumber NaN) prefix ->
   hasPrefix prefix prefix = false /\ invalidatePrefix c prefix o ts = c).
Proof.
  split.
  - intros Hwf s e Hin. rewrite invalidatePrefix_as_invalidate_all.
    pose proof (well_formed_get c s e Hwf Hin) as [G _].
    pose proof (proj2 Hwf _ _ Hin) as Hs.
    pose proof (get_invalidate_all
      (filter (fun k => hasPrefix k [])
              (List.map key (map_values (entries c)))) c o ts (key e)) as H.
    rewrite (slot_among_stored c s e (fun k => hasPrefix k []) Hwf Hin) in H.
    rewrite G in H. unfold get in H. rewrite <- Hs in H. exact H.
  - intros Hnan.
    assert (Hno : forall ky : QueryKey, hasPrefix ky prefix = false).
    { intros ky. unfold hasPrefix. destruct (_ <? _)%nat; [reflexivity|].
      now apply segments_match_nan. }
    split; [apply Hno|].
    rewrite invalidatePrefix_as_invalidate_all.
    now rewrite (invalidate_all_nil_filter _ _ Hno).
Qed.

Lemma strict_eq_trans (x y z : Scalar) :
  strict_eq x y = true -> strict_eq y z = true -> strict_eq x z = true.
Proof.
  destruct x as [a|[a| | |]|a|], y as [b|[b| | |]|b|], z as [d|[d| | |]|d|];
    cbn; try discriminate; try reflexivity.
  - rewrite !str_eqb_eq. congruence.
  - rewrite !Z.eqb_eq. congruence.
  - rewrite !Bool.eqb_true_iff. congruence.
Qed.

Lemma segments_match_trans (k3 : QueryKey) : forall k2 k1 : QueryKey,
  segments_match k1 k2 = true -> segments_match k2 k3 = true ->
  segments_match k1 k3 = true.
Proof.
  induction k3 as [|z k3 IH]; intros k2 k1 H12 H23; [reflexivity|].
  destruct k2 as [|y k2]; [discriminate H23|].
  destruct k1 as [|x k1]; [discriminate H12|].
  cbn [segments_match] in *.
  destruct (strict_eq x y) eqn:Hxy; [|discriminate H12].
  destruct (strict_eq y z) eqn:Hyz; [|discriminate H23].
  rewrite (strict_eq_trans x y z Hxy Hyz). cbn in *. now apply (IH k2).
Qed.

(** X17: [hasPrefix] orders the keys.  It is transitive; a key without
    non-finite numbers is a prefix of itself and of every extension of
    itself; and two such keys that are prefixes of each other are the
    same key. *)
Theorem hasPrefix_order (k1 k2 k3 : QueryKey) :
  (hasPrefix k1 k2 = true -> hasPrefix k2 k3 = true -> hasPrefix k1 k3 = true) /\
  (finite_key k1 = true -> hasPrefix (k1 ++ k2) k1 = true) /\
  (finite_key k1 = true -> hasPrefix k1 k2 = true -> hasPrefix k2 k1 = true ->
   k1 = k2).
Proof.
  split; [|split].
  - intros H12 H23. apply hasPrefix_spec. apply hasPrefix_spec in H12, H23.
    destruct H12 as [L12 M12], H23 as [L23 M23]. split; [lia|].
    intros i p Hp. destruct (M23 i p Hp) as [y [Hy Hyp]].
    destruct (M12 i y Hy) as [x [Hx Hxy]]. exists x. split; [exact Hx|].
    now apply (strict_eq_trans x y p).
  - intros F. unfold hasPrefix. rewrite length_app.
    destruct (Nat.ltb_spec (List.length k1 + List.length k2) (List.length k1));
      [lia|].
    clear -F. induction k1 as [|x k1 IH]; [reflexivity|].
    cbn in F. apply andb_true_iff in F. destruct F as [Fx F].
    cbn [app segments_match].
    rewrite (proj2 (strict_eq_finite x x Fx) eq_refl). cbn. now apply IH.
  - intros F H12 H21. unfold hasPrefix in H12, H21.
    destruct (Nat.ltb_spec (List.length k1) (List.length k2)) as [|L1];
      [discriminate|].
    destruct (Nat.ltb_spec (List.length k2) (List.length k1)) as [|L2];
      [discriminate|].
    assert (L : List.length k1 = List.length k2) by lia. clear L1 L2 H21.
    revert k2 H12 L. induction k1 as [|x k1 IH]; intros [|y k2] H12 L;
      try discriminate; [reflexivity|].
    cbn in F. apply andb_true_iff in F. destruct F as [Fx F].
    cbn [segments_match] in H12.
    destruct (strict_eq x y) eqn:Hxy; [|discriminate].
    apply (strict_eq_finite x y Fx) in Hxy. subst y. f_equal.
    apply IH; [exact F|exact H12|]. cbn in L. lia.
Qed.

Ltac slots_differ :=
  let H := fresh in
  intros H; apply keyToString_inj in H; [discriminate H|reflexivity|reflexivity].

Ltac slot_inj :=
  let H := fresh in
  split; [intros H; apply keyToString_inj in H;
          [now injection H|reflexivity|reflexivity]
         |now intros ->].

(** X18: the keys the constructors of [QueryKeys] build keep their
    resources apart.  Two keys of one constructor share a storage slot
    exactly when the addresses are the same (for [games.byId], when the
    ids print the same, so [7] and ["7"] name one entry), and keys of
    different constructors never share a slot. *)
Theorem QueryKeys_slots (a b : JsString) (g h : Scalar) :
  (keyToString (QueryKeys.balances.account a)
   = keyToString (QueryKeys.balances.account b) <-> a = b) /\
  (keyToString (QueryKeys.games.recentByAddress a)
   = keyToString (QueryKeys.games.recentByAddress b) <-> a = b) /\
  (keyToString (QueryKeys.rewards.byAddress a)
   = keyToString (QueryKeys.rewards.byAddress b) <-> a = b) /\
  (keyToString (QueryKeys.profile.byAddress a)
   = keyToString (QueryKeys.profile.byAddress b) <-> a = b) /\
  (keyToString (QueryKeys.games.byId g) = keyToString (QueryKeys.games.byId h)
   <-> String_of g = String_of h) /\
  keyToString (QueryKeys.balances.account a)
    <> keyToString (QueryKeys.games.recentByAddress b) /\
  keyToString (QueryKeys.balances.account a)
    <> keyToString (QueryKeys.rewards.byAddress b) /\
  keyToString (QueryKeys.balances.account a)
    <> keyToString (QueryKeys.profile.byAddress b) /\
  keyToString (QueryKeys.balances.account a)
    <> keyToString (QueryKeys.games.byId g) /\
  keyToString (QueryKeys.games.recentByAddress a)
    <> keyToString (QueryKeys.games.byId g) /\
  keyToString (QueryKeys.games.recentByAddress a)
    <> keyToString (QueryKeys.rewards.byAddress b) /\
  keyToString (QueryKeys.games.recentByAddress a)
    <> keyToString (QueryKeys.profile.byAddress b) /\
  keyToString (QueryKeys.rewards.byAddress a)
    <> keyToString (QueryKeys.profile.byAddress b) /\
  keyToString (QueryKeys.rewards.byAddress a)
    <> keyToString (QueryKeys.games.byId g) /\
  keyToString (QueryKeys.profile.byAddress a)
    <> keyToString (QueryKeys.games.byId g) /\
  keyToString (QueryKeys.balances.account a)
    <> keyToString QueryKeys.balances.root.
Proof.
  repeat (split; [slot_inj|]).
  split.
  { split.
    - intros H. apply keyToString_inj in H; [now injection H|reflexivity|reflexivity].
    - unfold QueryKeys.games.byId. now intros ->. }
  repeat (split; [slots_differ|]). slots_differ.
Qed.

End EngineFacts.

Transparent keyToString.

(* ================================================================== *)
(** ** Eviction in general *)
(* ================================================================== *)

Section EvictionFacts.
Context {Data RawError : Type}.

Let Cache := QueryCache Data RawError.
Let Entry := CacheEntry Data.
Implicit Types (c : Cache) (e v : Entry) (l all : list Entry).
Implicit Types (es : list (JsString * Entry)).

Opaque keyToString.

Let older (a b : Entry) : Prop := stamp a <= stamp b.
Let slot_of (v : Entry) : JsString := keyToString (key v).

Lemma insert_by_updatedAt_perm e l :
  Permutation (insert_by_updatedAt Data e l) (e :: l).
Proof.
  induction l as [|h t IH]; cbn; [reflexivity|].
  destruct (_ <=? _); [reflexivity|].
  rewrite IH. apply perm_swap.
Qed.

Lemma sort_by_updatedAt_perm l : Permutation (sort_by_updatedAt Data l) l.
Proof.
  induction l as [|a l IH]; cbn; [reflexivity|].
  fold (sort_by_updatedAt Data l).
  rewrite insert_by_updatedAt_perm. now constructor.
Qed.

Lemma insert_by_updatedAt_sorted e l :
  StronglySorted older l -> StronglySorted older (insert_by_updatedAt Data e l).
Proof.
  induction l as [|h t IH]; intros Hs; cbn.
  - repeat constructor.
  - apply StronglySorted_inv in Hs. destruct Hs as [Ht Hh].
    destruct (Z.leb_spec (updatedAt (meta e)) (updatedAt (meta h))) as [Hle|Hgt].
    + constructor; [now constructor|].
      constructor; [exact Hle|].
      eapply Forall_impl; [|exact Hh]. intros x Hx. unfold older, stamp in *. lia.
    + constructor; [now apply IH|].
      apply (Permutation_Forall (Permutation_sym (insert_by_updatedAt_perm e t))).
      constructor; [unfold older, stamp; lia|exact Hh].
Qed.

Lemma sort_by_updatedAt_sorted l :
  StronglySorted older (sort_by_updatedAt Data l).
Proof.
  induction l as [|a l IH]; cbn; [constructor|].
  now apply insert_by_updatedAt_sorted.
Qed.

Lemma sorted_app_older l1 : forall l2 x y,
  StronglySorted older (l1 ++ l2) -> In x l1 -> In y l2 -> older x y.
Proof.
  induction l1 as [|a l1 IH]; intros l2 x y Hs Hx Hy; [destruct Hx|].
  cbn in Hs. apply StronglySorted_inv in Hs. destruct Hs as [Hs Ha].
  destruct Hx as [<-|Hx].
  - rewrite Forall_forall in Ha. apply Ha. apply in_or_app. now right.
  - now apply (IH l2).
Qed.

Lemma firstn_S_nth_error all : forall n,
  firstn (S n) all =
  firstn n all ++ match nth_error all n with Some v => [v] | None => [] end.
Proof.
  induction all as [|a all IH]; intros [|n]; try reflexivity.
  cbn [firstn nth_error app]. f_equal. apply IH.
Qed.

(** The loop of [enforceMaxEntries] deletes the slots of the first
    [toRemove] entries of the sorted array. *)
Lemma evict_loop_firstn all (n : nat) : forall es,
  fold_left
    (fun es' i =>
       match nth_error all i with
       | None => es'
       | Some victim => map_delete (keyToString (key victim)) es'
       end)
    (seq 0 n) es =
  fold_left (fun es' v => map_delete (slot_of v) es') (firstn n all) es.
Proof.
  induction n as [|n IH]; intros es; [reflexivity|].
  rewrite seq_S, fold_left_app, IH, firstn_S_nth_error, fold_left_app.
  cbn [plus fold_left]. now destruct (nth_error all n).
Qed.

Lemma delete_all_In (vs : list Entry) : forall es s e,
  In (s, e) (fold_left (fun es' v => map_delete (slot_of v) es') vs es) <->
  In (s, e) es /\ ~ In s (List.map slot_of vs).
Proof.
  induction vs as [|v vs IH]; intros es s e; cbn [fold_left List.map In].
  - tauto.
  - rewrite IH, In_map_delete. intuition congruence.
Qed.

Lemma delete_all_NoDup (vs : list Entry) : forall es,
  NoDup (map_keys es) ->
  NoDup (map_keys (fold_left (fun es' v => map_delete (slot_of v) es') vs es)).
Proof.
  induction vs as [|v vs IH]; intros es H; [exact H|].
  cbn [fold_left]. apply IH. now apply map_keys_delete_NoDup.
Qed.

Lemma In_keys_delete k' k es :
  In k' (map_keys es) -> k' <> k -> In k' (map_keys (map_delete k es)).
Proof.
  unfold map_keys. rewrite !in_map_iff. intros [[s x] [E Hin]] Hne.
  cbn in E. subst s. exists (k', x). split; [reflexivity|].
  apply In_map_delete. auto.
Qed.

Lemma delete_all_length (vs : list Entry) : forall es,
  NoDup (map_keys es) ->
  NoDup (List.map slot_of vs) ->
  (forall v, In v vs -> In (slot_of v) (map_keys es)) ->
  (List.length (fold_left (fun es' v => map_delete (slot_of v) es') vs es)
   + List.length vs = List.length es)%nat.
Proof.
  induction vs as [|v vs IH]; intros es Hnd Hvs Hin; cbn [fold_left List.length].
  - lia.
  - cbn [List.map] in Hvs. inversion Hvs as [|? ? Hni Hvs']; subst.
    pose proof (map_delete_length_present (slot_of v) es Hnd
                  (Hin v (or_introl eq_refl))) as Hlen.
    rewrite Nat.add_succ_r, IH; [exact Hlen| | |].
    + now apply map_keys_delete_NoDup.
    + exact Hvs'.
    + intros w Hw. apply In_keys_delete; [apply Hin; now right|].
      intros E. apply Hni. rewrite <- E. now apply in_map.
Qed.

Lemma NoDup_firstn {A} (n : nat) (l : list A) : NoDup l -> NoDup (firstn n l).
Proof.
  intros H. rewrite <- (firstn_skipn n l) in H.
  now apply NoDup_app_remove_r in H.
Qed.

(** X19: [enforceMaxEntries] on any well-formed store with a bound [m]
    other than [0].  The store is cut to [m] entries when it holds more
    (to none at all when [m] is negative); what remains was there, the
    store is still well formed, and every entry removed was updated no
    later than every entry kept. *)
Theorem enforceMaxEntries_cuts_oldest c (m : Z) :
  well_formed c -> maxEntries c = Some m -> m <> 0 ->
  let c' := enforceMaxEntries c in
  Z.of_nat (List.length (entries c'))
  = Z.max 0 (Z.min (Z.of_nat (List.length (entries c))) m) /\
  well_formed c' /\
  (forall s e, In (s, e) (entries c') -> In (s, e) (entries c)) /\
  (forall s e s' e',
     In (s, e) (entries c) -> ~ In (s, e) (entries c') ->
     In (s', e') (entries c') ->
     updatedAt (meta e) <= updatedAt (meta e')) /\
  fetchers c' = fetchers c /\ notified c' = notified c /\
  suspended c' = suspended c.
Proof.
  intros [Hnd Hslot] Hm Hm0 c'. subst c'. unfold enforceMaxEntries.
  rewrite Hm. destruct (Z.eqb_spec m 0) as [|_]; [contradiction|].
  destruct (Z.leb_spec (Z.of_nat (List.length (entries c))) m) as [Hle|Hgt].
  { split; [lia|]. split; [now split|]. split; [auto|].
    split; [intros s e s' e' H1 H2; contradiction|]. auto. }
  cbv zeta. rewrite evict_loop_firstn.
  set (all := sort_by_updatedAt Data (map_values (entries c))).
  set (n := Z.to_nat (Z.of_nat (List.length (entries c)) - m)).
  set (vs := firstn n all).
  cbn [entries fetchers notified suspended with_entries].
  assert (Hperm : Permutation all (map_values (entries c)))
    by apply sort_by_updatedAt_perm.
  assert (Hval : forall v, In v all -> In (slot_of v, v) (entries c)).
  { intros v Hv. apply (Permutation_in _ Hperm) in Hv.
    unfold map_values in Hv. apply in_map_iff in Hv.
    destruct Hv as [[s e] [E Hin]]. cbn in E. subst e.
    unfold slot_of. now rewrite <- (Hslot s v Hin). }
  assert (Hslots : NoDup (List.map slot_of all)).
  { apply (Permutation_NoDup
             (l := List.map slot_of (map_values (entries c)))).
    - symmetry. now apply Permutation_map.
    - replace (List.map slot_of (map_values (entries c)))
        with (map_keys (entries c)); [exact Hnd|].
      unfold map_values, map_keys. rewrite map_map.
      apply map_ext_in. intros [s e] Hin. cbn. unfold slot_of.
      now apply Hslot. }
  assert (Hvs_nd : NoDup (List.map slot_of vs)).
  { unfold vs. rewrite <- firstn_map. now apply NoDup_firstn. }
  assert (Hvs_in : forall v, In v vs -> In v all).
  { intros v Hv. unfold vs in Hv. rewrite <- (firstn_skipn n all).
    apply in_or_app. now left. }
  assert (Hlen_all : List.length all = List.length (entries c)).
  { rewrite (Permutation_length Hperm). unfold map_values. apply length_map. }
  assert (Hlen_vs : List.length vs = Nat.min n (List.length (entries c))).
  { unfold vs. rewrite length_firstn. now rewrite Hlen_all. }
  assert (Hlen : (List.length
                    (fold_left (fun es' v => map_delete (slot_of v) es') vs
                               (entries c))
                  + List.length vs = List.length (entries c))%nat).
  { apply (delete_all_length vs (entries c) Hnd Hvs_nd).
    intros v Hv. change (slot_of v) with (fst (slot_of v, v)).
    apply in_map. apply Hval, Hvs_in, Hv. }
  split.
  { match goal with
    | |- Z.of_nat (List.length ?x) = _ =>
        change x with (fold_left (fun es' v => map_delete (slot_of v) es') vs
                                 (entries c))
    end.
    unfold n in Hlen_vs.
    assert (Harith : forall L V E : nat,
      m < Z.of_nat E ->
      V = Nat.min (Z.to_nat (Z.of_nat E - m)) E -> (L + V)%nat = E ->
      Z.of_nat L = Z.max 0 (Z.min (Z.of_nat E) m)) by (intros; lia).
    apply (Harith _ _ _ Hgt Hlen_vs Hlen). }
  split.
  { split; [now apply delete_all_NoDup|].
    intros s e Hin. apply delete_all_In in Hin. now apply Hslot. }
  split; [intros s e Hin; now apply delete_all_In in Hin|].
  split; [|auto].
  intros s e s' e' Hin Hgone Hkept.
  assert (Hv : In e vs).
  { destruct (in_dec (list_eq_dec N.eq_dec) s (List.map slot_of vs)) as [Hs|Hs].
    - apply in_map_iff in Hs. destruct Hs as [v [E Hv]].
      assert (v = e); [|now subst].
      pose proof (Hval v (Hvs_in v Hv)) as Hv'. rewrite E in Hv'.
      apply (In_map_get _ _ _ Hnd) in Hv'.
      apply (In_map_get _ _ _ Hnd) in Hin. congruence.
    - exfalso. apply Hgone. apply delete_all_In. auto. }
  apply delete_all_In in Hkept. destruct Hkept as [Hin' Hns].
  assert (Hrest : In e' (skipn n all)).
  { assert (Hall : In e' all).
    { apply (Permutation_in _ (Permutation_sym Hperm)).
      unfold map_values. change e' with (snd (s', e')). now apply in_map. }
    rewrite <- (firstn_skipn n all) in Hall. apply in_app_or in Hall.
    destruct Hall as [Hf|Hr]; [exfalso|exact Hr].
    apply Hns. rewrite (Hslot s' e' Hin'). now apply (in_map slot_of). }
  apply (sorted_app_older (firstn n all) (skipn n all) e e');
    [rewrite firstn_skipn; apply sort_by_updatedAt_sorted|exact Hv|exact Hrest].
Qed.

End EvictionFacts.

Transparent keyToString.

(* ================================================================== *)
(** ** Concrete runs *)
(* ================================================================== *)

Import Examples.

Lemma two_entries_consistent : consistent two_entries 0.
Proof.
  unfold two_entries.
  apply (set_consistent _ _ _ _ 0 0); [|lia].
  apply (set_consistent _ _ _ _ 0 0); [|lia].
  apply consistent_new. exact I.
Defined.

(** C1, three runs where the statement fails.  With [staleTimeMs = 0]
    the entry just written is stale at the very clock value of the
    write.  [set] copies [invalidatedAt] from the entry it replaces:
    after [set], [invalidate] and a second [set] at clock 300 the entry
    still carries [invalidatedAt = 200] and reads as stale.  And for
    the namespace [constructor], unknown to [QueryPolicies], the policy
    is not the 30 s fallback but the member of [Object.prototype] of
    that name, and [staleAt] is [NaN], not [now + 30000]. *)
Lemma set_then_stale_counterexample :
  (declared_key balanceKey = true /\
   isStale (snd (set (empty None) balanceKey 5 (Some always_stale) 100))
           balanceKey 100 = true) /\
  (let c1 := snd (set (empty None) balanceKey 5 (Some minute) 100) in
   let c2 := invalidate c1 balanceKey None 200 in
   let written := set c2 balanceKey 6 (Some minute) 300 in
   invalidatedAt (meta (fst written)) = Some 200 /\
   isStale (snd written) balanceKey 300 = true) /\
  (let k := [SString (lit "constructor"); SString (lit "x")] in
   let written := set (empty None) k 5 None 100 in
   policy (fst written) = PrototypeMember (lit "constructor") /\
   staleAt (meta (fst written)) = NotANumber /\
   isStale (snd written) k 100000000 = false).
Proof. vm_compute. repeat split; reflexivity. Qed.

Lemma set_writes_fresh_entry_witness :
  consistent (empty None) 100 /\
  (let written := set (empty None) balanceKey 5 None 100 in
   policy (fst written) =
     Declared {| staleTimeMs := 3000; refetchOnInvalidate := true |} /\
   meta (fst written) =
     {| createdAt := 100; updatedAt := 100; staleAt := Finite 3100;
        invalidatedAt := None |} /\
   get (snd written) balanceKey = Some (fst written) /\
   data (fst written) = 5 /\
   isStale (snd written) balanceKey 100 = false /\
   isStale (snd written) balanceKey 3099 = false /\
   isStale (snd written) balanceKey 3100 = true).
Proof.
  assert (Hc : consistent (empty None) 100) by (apply consistent_new; exact I).
  split; [exact Hc|].
  destruct (set_writes_fresh_entry (empty None) balanceKey 5 None
              100 100 Hc)
    as [H1 [H2 [H3 [H4 [H5 [H6 [H7 [H8 H9]]]]]]]].
  - lia.
  - destruct H9 as [H9 H10]; [intros e He; discriminate He|].
    destruct (H3 eq_refl eq_refl) as [q [Hq Hp]].
    injection Hq as <-.
    pose proof (H5 _ Hp) as Hs. cbn [staleTimeMs] in Hs.
    assert (Hs' : staleAt (meta (fst (set (empty None) balanceKey 5 None 100)))
                  = Finite 3100).
    { apply Hs. vm_compute. discriminate. }
    split; [exact Hp|]. split; [reflexivity|]. split; [exact H7|].
    split; [exact H8|].
    rewrite !H10, Hs'. repeat split; reflexivity.
Defined.

(** C2 at a concrete input: a fresh [balances.account("GADDR")] entry,
    then a successful [prizePool] transaction that lists no address.
    Nothing is invalidated, nobody is notified, the entry is fresh. *)
Lemma applyRules_prizePool_witness :
  isStale two_entries balanceKey 200 = false /\
  applyRules two_entries prizePool_success 200 = two_entries /\
  isStale (applyRules two_entries prizePool_success 200) balanceKey 200 = false.
Proof.
  split; [reflexivity|]. split; [reflexivity|].
  assert (Hin : In (keyToString balanceKey,
                    {| key := balanceKey; data := 1; policy := Declared minute;
                       meta := {| createdAt := 0; updatedAt := 0;
                                  staleAt := Finite 60000; invalidatedAt := None |} |})
                   (entries two_entries)) by (left; reflexivity).
  destruct (applyRules_prizePool_misses_accounts (AppError := App)
              two_entries prizePool_success 200
              {| contract := lit "prizePool"; method := lit "deposit";
                 txHash := None; addresses := Some []; gameId := None |}
              [] _ _ GADDR (proj1 two_entries_consistent) eq_refl eq_refl
              eq_refl Hin eq_refl (fun H => H))
    as [_ H].
  apply H; [reflexivity|cbn; lia].
Defined.

Lemma getOrFetch_failure_witness :
  let c := registerFetcher (empty None) game7 boom in
  get c game7 = None /\
  getOrFetch newError toAppError c game7 0 1 =
    (ErrorResult (lit "boom", None, [(lit "key", game7)]), c) /\
  get (snd (getOrFetch newError toAppError c game7 0 1)) game7 = None.
Proof.
  intros c. split; [reflexivity|].
  destruct (getOrFetch_failure_leaves_cache newError toAppError c game7 0 1)
    as [appError [H1 [H2 H3]]].
  - left. reflexivity.
  - right. exists boom, (lit "boom"). split; reflexivity.
  - split; [reflexivity|exact H3].
Defined.




Lemma applyRules_coinFlip_witness :
  let c' := applyRules two_entries coinFlip_success 10 in
  isStale two_entries balanceKey 10 = false /\
  isStale two_entries gameKey 10 = false /\
  isStale c' balanceKey 10 = true /\
  isStale c' gameKey 10 = true /\
  isStale c' game7 10 = true /\
  option_map data (get c' balanceKey) = Some 1.
Proof.
  intros c'.
  destruct (applyRules_coinFlip_invalidates two_entries coinFlip_success 10
              {| contract := lit "coinFlip"; method := lit "play";
                 txHash := None; addresses := Some [GADDR];
                 gameId := Some (SNumber (Int 7 eq_refl)) |}
              (Some (lit "abc")) (SNumber (Int 7 eq_refl)) [GADDR]
              eq_refl eq_refl eq_refl eq_refl eq_refl)
    as [[_ Hgame] Haddr].
  destruct (Haddr GADDR (or_introl eq_refl)) as [[_ Hrecent] [Hbal Hbalance]].
  split; [reflexivity|]. split; [reflexivity|].
  split; [apply Hbalance|]. split; [apply Hrecent|]. split; [apply Hgame|].
  fold c' in Hbal. unfold balanceKey. rewrite Hbal. reflexivity.
Defined.

Lemma invalidatePrefix_witness :
  let c' := invalidatePrefix two_entries [SString (lit "games")] None 10 in
  well_formed two_entries /\
  isStale c' gameKey 10 = true /\
  isStale c' balanceKey 10 = false /\
  List.map (fun se => invalidatedAt (meta (snd se))) (entries c') =
    [None; Some 10] /\
  map_keys (entries c') = map_keys (entries two_entries).
Proof.
  intros c'.
  pose proof (proj1 two_entries_consistent) as Hwf.
  split; [exact Hwf|].
  destruct (invalidatePrefix_exact two_entries [SString (lit "games")] None 10
              Hwf) as [Hkeys Hentries].
  split; [reflexivity|]. split; [reflexivity|]. split; [reflexivity|].
  exact Hkeys.
Defined.


Lemma failing_refetch_cycle_witness :
  let started := invalidate failing_rewards rewardsKey None 10 in
  let after := run_jobs toAppError 1000 (fun i => 11 + Z.of_nat i) started in
  List.length (suspended failing_rewards) = 0%nat /\
  snd after = 1000%nat /\
  List.length (suspended (fst after)) = 1%nat /\
  List.length (notified (fst after)) = 1002%nat.
Proof.
  intros started after.
  destruct (failing_refetch_cycle_never_ends toAppError failing_rewards
              rewardsKey
              {| key := rewardsKey; data := 1;
                 policy := Declared {| staleTimeMs := 5000; refetchOnInvalidate := true |};
                 meta := {| createdAt := 0; updatedAt := 0; staleAt := Finite 5000;
                            invalidatedAt := None |} |}
              boom None 10 eq_refl eq_refl eq_refl
              (fun _ => ex_intro _ (lit "boom") eq_refl) eq_refl
              1000%nat (fun i => 11 + Z.of_nat i))
    as [Hran [[err Hsusp] [Hnotified _]]].
  fold started in Hran, Hsusp, Hnotified. fold after in Hran, Hsusp, Hnotified.
  split; [reflexivity|]. split; [exact Hran|].
  split; [now rewrite Hsusp|]. rewrite Hnotified. reflexivity.
Defined.

(* ------------------------------------------------------------------ *)
(** *** Runs for the further properties *)
(* ------------------------------------------------------------------ *)

Lemma two_entries_reachable : Reachable newError toAppError 0 two_entries.
Proof.
  unfold two_entries. apply reach_set. apply reach_set.
  apply reach_new. exact I.
Defined.

Lemma ensureDependencies_ok_witness :
  ensureDependencies newError toAppError two_entries balanceKey [gameKey] 10
  = (DepsOk, two_entries) /\
  fst (ensureDependencies newError toAppError two_entries balanceKey [] 10)
  = DepsOk.
Proof.
  split; [reflexivity|].
  apply (proj1 (ensureDependencies_ok_iff newError toAppError two_entries
                  balanceKey [] 10)).
  intros dep [].
Defined.

Lemma ensureDependencies_stale_witness :
  let r := ensureDependencies newError toAppError two_entries balanceKey
             [gameKey; game7] 10 in
  isStale two_entries game7 10 = true /\
  fst r = DepsFailed (lit "Dependency stale", Some (lit "unknown"),
                      [(lit "parent", balanceKey); (lit "dep", game7)]) /\
  isStale two_entries balanceKey 10 = false /\
  isStale (snd r) balanceKey 10 = true /\
  get (snd r) gameKey = get two_entries gameKey.
Proof.
  intros r.
  destruct (ensureDependencies_invalidates_parent newError toAppError
              two_entries balanceKey [gameKey; game7] 10 game7
              (or_intror (or_introl eq_refl)) eq_refl)
    as [_ [_ [Hstale [Hother _]]]].
  split; [reflexivity|]. split; [reflexivity|]. split; [reflexivity|].
  split; [apply Hstale|]. apply Hother. discriminate.
Defined.

Lemma snapshot_witness :
  well_formed two_entries /\
  snapshot two_entries = {| keys := [balanceKey; gameKey]; size := 2 |} /\
  exists e, get two_entries gameKey = Some e /\ key e = gameKey.
Proof.
  pose proof (proj1 two_entries_consistent) as Hwf.
  split; [exact Hwf|]. split; [reflexivity|].
  destruct (snapshot_lists_stored_keys two_entries Hwf) as [_ [_ [H _]]].
  apply H. right. left. reflexivity.
Defined.

Lemma isStale_monotone_witness :
  isStale two_entries balanceKey 60000 = true /\
  isStale two_entries balanceKey 70000 = true.
Proof.
  split; [reflexivity|].
  apply (proj1 (isStale_monotone two_entries balanceKey 60000 70000
                  ltac:(lia))).
  reflexivity.
Defined.

Lemma set_keeps_invalidation_mark_witness :
  let c := invalidate two_entries balanceKey None 5 in
  let written := set c balanceKey 7 (Some minute) 10 in
  consistent c 5 /\
  option_map data (get (snd written) balanceKey) = Some 7 /\
  invalidatedAt (meta (fst written)) = Some 5 /\
  isStale (snd written) balanceKey 10 = true.
Proof.
  intros c written.
  assert (Hc : consistent c 5).
  { apply invalidate_consistent.
    apply (consistent_later two_entries 0); [exact two_entries_consistent|lia]. }
  split; [exact Hc|].
  destruct (set_keeps_invalidation_mark c balanceKey
              (mark_invalidated
                 {| key := balanceKey; data := 1; policy := Declared minute;
                    meta := {| createdAt := 0; updatedAt := 0;
                               staleAt := Finite 60000; invalidatedAt := None |} |} 5)
              5 7 (Some minute) 5 10 Hc ltac:(lia) eq_refl eq_refl)
    as [G [Hd [_ [Hi [Hs _]]]]].
  fold written in G, Hi, Hs. split; [now rewrite G|]. split; [exact Hi|apply Hs].
Defined.

Lemma getOrFetch_reads_through_witness :
  let c := registerFetcher (empty None) game7 (fun _ => Fulfilled 42) in
  let r := getOrFetch newError toAppError c game7 1 2 in
  get c game7 = None /\
  fst r = DataResult 42 /\
  getOrFetch newError toAppError (snd r) game7 3 4 = (DataResult 42, snd r).
Proof.
  intros c r.
  assert (Hc : consistent c 0).
  { apply (consistent_same_entries (empty None)); try reflexivity.
    apply consistent_new. exact I. }
  destruct (getOrFetch_reads_through newError toAppError c game7
              (fun _ => Fulfilled 42) 42 0 1 2 Hc ltac:(lia) ltac:(lia)
              eq_refl eq_refl eq_refl)
    as [Hr [e [G [Hd [Hp [Hu [Hs Hhit]]]]]]].
  split; [reflexivity|]. split; [exact Hr|].
  apply Hhit. rewrite Hs. reflexivity.
Defined.

(** The run of the repository's own test: an entry written with a
    policy of its own, a fetcher that succeeds, one [invalidate]. *)
Lemma background_refetch_witness :
  let c := registerFetcher
             (snd (set (empty None) rewardsKey 1
                       (Some {| staleTimeMs := 60000;
                                refetchOnInvalidate := true |}) 0))
             rewardsKey (fun _ => Fulfilled 2) in
  exists c',
    run_job toAppError (invalidate c rewardsKey None 0) 1 = Some c' /\
    suspended c' = [] /\
    option_map data (get c' rewardsKey) = Some 2 /\
    option_map (@policy _) (get c' rewardsKey) =
      Some (Declared {| staleTimeMs := 5000; refetchOnInvalidate := true |}).
Proof.
  intros c.
  assert (Hc : consistent c 0).
  { apply (consistent_same_entries
             (snd (set (empty None) rewardsKey 1
                       (Some {| staleTimeMs := 60000;
                                refetchOnInvalidate := true |}) 0)));
      try reflexivity.
    apply (set_consistent _ _ _ _ 0 0); [|lia]. apply consistent_new. exact I. }
  destruct (background_refetch_completes toAppError c rewardsKey
              {| key := rewardsKey; data := 1;
                 policy := Declared {| staleTimeMs := 60000; refetchOnInvalidate := true |};
                 meta := {| createdAt := 0; updatedAt := 0; staleAt := Finite 60000;
                            invalidatedAt := None |} |}
              (fun _ => Fulfilled 2) 2 None 0 0 1 Hc ltac:(lia) ltac:(lia)
              eq_refl eq_refl eq_refl eq_refl eq_refl)
    as [c' [Hjob [Hdone [_ [e' [G [Hd [_ [_ Hp]]]]]]]]].
  exists c'. split; [exact Hjob|]. split; [exact Hdone|].
  rewrite G. cbn [option_map]. split; [now rewrite Hd|now rewrite Hp].
Defined.

Lemma reachable_well_timed_witness :
  well_timed 0
    {| key := balanceKey; data := 1; policy := Declared minute;
       meta := {| createdAt := 0; updatedAt := 0; staleAt := Finite 60000;
                  invalidatedAt := None |} |}.
Proof.
  apply (reachable_well_timed newError toAppError 0 two_entries
           (keyToString balanceKey)); [exact two_entries_reachable|].
  left. reflexivity.
Defined.

Lemma reachable_store_invariant_witness :
  let c := registerFetcher (snd (set (snd (set (empty (Some 1)) balanceKey 1 None 0))
                                     gameKey 2 None 5))
                           gameKey boom in
  Reachable newError toAppError 5 c /\
  NoDup (map_keys (entries c)) /\
  Z.of_nat (size (snapshot c)) <= 1.
Proof.
  intros c.
  assert (HR : Reachable newError toAppError 5 c).
  { unfold c. apply reach_registerFetcher. apply reach_set.
    apply (reach_later _ _ _ _ _ 0 5); [|lia]. apply reach_set.
    apply reach_new. cbn. lia. }
  split; [exact HR|].
  destruct (reachable_store_invariant newError toAppError 5 c HR)
    as [Hnd [_ Hbound]].
  split; [exact Hnd|]. apply Hbound; [reflexivity|lia].
Defined.

Lemma applyRules_achievementBadge_witness :
  let input : InvalidationRuleInput App :=
    {| outcome := OutcomeOk None;
       event := {| at_ms := 0; reason := tx_success;
                   contractTx :=
                     Some {| contract := lit "achievementBadge";
                             method := lit "award"; txHash := None;
                             addresses := Some [GADDR]; gameId := None |};
                   mutation := None |} |} in
  let c' := applyRules two_entries input 10 in
  isStale two_entries balanceKey 10 = false /\
  isStale c' balanceKey 10 = true /\
  isStale c' (QueryKeys.rewards.byAddress GADDR) 10 = true /\
  get c' (QueryKeys.profile.byAddress GADDR) = None /\
  isStale c' gameKey 10 = false.
Proof.
  intros input c'.
  destruct (applyRules_achievementBadge_invalidates two_entries input 10
              {| contract := lit "achievementBadge"; method := lit "award";
                 txHash := None; addresses := Some [GADDR]; gameId := None |}
              [GADDR] eq_refl eq_refl eq_refl GADDR (or_introl eq_refl))
    as [[_ Hrew] [[Hprof _] [_ Hbal]]].
  split; [reflexivity|]. split; [apply Hbal|]. split; [apply Hrew|].
  split; [exact Hprof|reflexivity].
Defined.

Lemma applyRules_other_contract_witness :
  let input : InvalidationRuleInput App :=
    {| outcome := OutcomeFailed (lit "boom", None, []) true;
       event := {| at_ms := 0; reason := manual; contractTx := None;
                   mutation := Some {| name := lit "transfer";
                                       mutation_addresses := Some [GADDR] |} |} |} in
  let c' := applyRules two_entries input 10 in
  isStale c' balanceKey 10 = true /\
  get c' gameKey = get two_entries gameKey.
Proof.
  intros input c'.
  destruct (applyRules_other_contract two_entries input 10 [GADDR]
              eq_refl eq_refl eq_refl eq_refl) as [Hbal [Hother _]].
  split; [reflexivity|].
  apply Hother. intros a [<-|[]]. discriminate.
Defined.

Lemma invalidatePrefix_extremes_witness :
  List.map (fun se => invalidatedAt (meta (snd se)))
           (entries (invalidatePrefix two_entries [] None 10))
  = [Some 10; Some 10] /\
  invalidatePrefix two_entries [SString (lit "games"); SNumber NaN] None 10
  = two_entries.
Proof.
  split; [reflexivity|].
  apply (proj2 (invalidatePrefix_extremes two_entries
                  [SString (lit "games"); SNumber NaN] None 10)).
  right. left. reflexivity.
Defined.

Lemma hasPrefix_order_witness :
  hasPrefix gameKey [SString (lit "games")] = true /\
  hasPrefix (gameKey ++ [SNull]) [SString (lit "games")] = true.
Proof.
  split; [reflexivity|].
  apply (proj1 (hasPrefix_order (gameKey ++ [SNull]) gameKey
                  [SString (lit "games")])); reflexivity.
Defined.

Lemma enforceMaxEntries_witness :
  let over (m : Z) : QueryCache Payload Raw :=
    {| entries := entries two_entries; fetchers := []; maxEntries := Some m;
       notified := []; suspended := [] |} in
  List.length (entries (enforceMaxEntries (over 1))) = 1%nat /\
  entries (enforceMaxEntries (over (-1))) = [] /\
  Z.of_nat (List.length (entries (enforceMaxEntries (over (-1))))) = 0.
Proof.
  intros over. split; [reflexivity|]. split; [reflexivity|].
  destruct (enforceMaxEntries_cuts_oldest (over (-1)) (-1)
              (proj1 two_entries_consistent) eq_refl ltac:(discriminate))
    as [Hlen _].
  rewrite Hlen. reflexivity.
Defined.
